(** * The banking system of [code2.cpp]

    [BankSystem] with its operations [createAccount], [createProcess],
    [executeProcess], [findAccount], [checkBalance] and [printProcesses],
    embedded as pure functions that take the state and return the new state,
    the value returned and the lines written to [cout].  The menu loop of
    [main] only reads the arguments and calls these.

    - [int] is [Z]; the two post-increments of the id counters go through
      [int_wrap] (two's complement), and [counters_in_range] shows that the
      capacity checks keep them far from the wrap.
    - [double] is the kernel's binary64 [float], so comparisons, sums and
      differences round, and treat NaN and the infinities, as the compiled
      program's do.
    - The fixed arrays [accounts] and [processes] are lists of the arrays'
      length, read with [!!] and written with [<[ i := x ]>]; the slots at
      and above the counts hold whatever the arrays held at construction.
      A pointer into an array is the index of the slot.
    - [std::string] is [string]; the lines written to [cout] are the
      constructors of [Output].
    - A run is a list of calls made one after the other, each a function of
      the state; the mutexes are not part of that state.  Calls of
      [executeProcess] made at the same time are modelled apart, as threads
      that step through the body of the worker over a shared memory with
      [bankMutex] and the [accMutex]es in it. *)

From Stdlib Require Import ZArith QArith List String Bool Lia Floats Permutation Sorted.
From stdpp Require Import base list.

Local Open Scope string_scope.
Local Open Scope Z_scope.

(** ** Data model *)

Definition MAX_ACCOUNTS : Z := 1000.
Definition MAX_PROCESSES : Z := 100.

Record Account := mkAccount {
  id : Z;
  customerId : string;
  balance : float;
  active : bool
}.

Record Process := mkProcess {
  tid : Z;
  aid : Z;
  type : string;
  amount : float;
  status : string
}.

Record BankSystem := mkBank {
  accounts : list Account;
  processes : list Process;
  accountCount : Z;
  processCount : Z;
  nextAccountId : Z;
  nextTransactionId : Z
}.

(** The lines the program writes to [cout], one constructor per line. *)
Inductive Output :=
| ErrMaxAccounts              (* Error: Maximum account limit reached. *)
| ErrNegativeInitialBalance   (* Error: Initial balance cannot be negative. *)
| AccountCreated (accountId : Z)
| ErrMaxProcesses             (* Error: Maximum process limit reached. *)
| ProcessCreated (t : Z)
| ErrAccountNotFound (t : Z)  (* Error: Account not found for transaction t *)
| ErrInvalidDeposit           (* Error: Invalid deposit amount. *)
| DepositSuccessful (t : Z) (newBalance : float)
| ErrInsufficientOrInvalid    (* Error: Insufficient funds or invalid withdrawal amount. *)
| WithdrawalSuccessful (t : Z) (newBalance : float)
| ErrUnknownType              (* Error: Unknown transaction type. *)
| ErrTransactionNotFound      (* Error: Transaction ID not found. *)
| ErrInvalidAccountId         (* Error: Invalid account ID. *)
| ProcessTableTitle           (* Process Table: *)
| ProcessTableColumns         (* TID AID Type Amount Status *)
| ProcessRow (p : Process).   (* one line per stored process *)

(** ** Operations *)

(** [x++] on an [int]: the value wraps in two's complement on 32 bits. *)
Definition int_wrap (z : Z) : Z := (z + 2 ^ 31) mod 2 ^ 32 - 2 ^ 31.

(** [for (int i = 0; i < n; i++) if (p(arr[i])) return &arr[i];] as a scan
    that carries the index [i] and the number [n] of iterations left; the
    pointer returned is the index together with the element it points to.
    A read past the end of the array ends the scan; the counts never exceed
    the arrays' lengths in a reachable state, so it does not occur there. *)
Fixpoint scan {A : Type} (p : A -> bool) (arr : list A) (i n : nat)
  : option (nat * A) :=
  match n with
  | O => None
  | S n' =>
      match arr !! i with
      | Some x => if p x then Some (i, x) else scan p arr (S i) n'
      | None => None
      end
  end.

Definition createAccount (s : BankSystem) (cid : string) (initialBalance : float)
  : Z * BankSystem * list Output :=
  if accountCount s >=? MAX_ACCOUNTS then (-1, s, [ErrMaxAccounts])
  else if (initialBalance <? 0)%float then (-1, s, [ErrNegativeInitialBalance])
  else
    let accountId := nextAccountId s in
    let slot := Z.to_nat (accountCount s) in
    (accountId,
     {| accounts := <[ slot := mkAccount accountId cid initialBalance true ]> (accounts s);
        processes := processes s;
        accountCount := accountCount s + 1;
        processCount := processCount s;
        nextAccountId := int_wrap (nextAccountId s + 1);
        nextTransactionId := nextTransactionId s |},
     [AccountCreated accountId]).

Definition createProcess (s : BankSystem) (accountId : Z) (ty : string) (amt : float)
  : Z * BankSystem * list Output :=
  if processCount s >=? MAX_PROCESSES then (-1, s, [ErrMaxProcesses])
  else
    let t := nextTransactionId s in
    let slot := Z.to_nat (processCount s) in
    (t,
     {| accounts := accounts s;
        processes := <[ slot := mkProcess t accountId ty amt "Pending" ]> (processes s);
        accountCount := accountCount s;
        processCount := processCount s + 1;
        nextAccountId := nextAccountId s;
        nextTransactionId := int_wrap (nextTransactionId s + 1) |},
     [ProcessCreated t]).

Definition findAccount (s : BankSystem) (accountId : Z) : option (nat * Account) :=
  scan (fun a => active a && (id a =? accountId)) (accounts s) 0
       (Z.to_nat (accountCount s)).

(** [proc.status = st] for the process in slot [i]. *)
Definition set_status (s : BankSystem) (i : nat) (proc : Process) (st : string)
  : BankSystem :=
  {| accounts := accounts s;
     processes := <[ i := mkProcess (tid proc) (aid proc) (type proc) (amount proc) st ]>
                    (processes s);
     accountCount := accountCount s;
     processCount := processCount s;
     nextAccountId := nextAccountId s;
     nextTransactionId := nextTransactionId s |}.

(** [acc->balance = b] for the account in slot [j]. *)
Definition set_balance (s : BankSystem) (j : nat) (acc : Account) (b : float)
  : BankSystem :=
  {| accounts := <[ j := mkAccount (id acc) (customerId acc) b (active acc) ]> (accounts s);
     processes := processes s;
     accountCount := accountCount s;
     processCount := processCount s;
     nextAccountId := nextAccountId s;
     nextTransactionId := nextTransactionId s |}.

Definition executeProcess (s : BankSystem) (t : Z) : BankSystem * list Output :=
  match scan (fun p => tid p =? t) (processes s) 0 (Z.to_nat (processCount s)) with
  | None => (s, [ErrTransactionNotFound])
  | Some (i, proc) =>
      match findAccount s (aid proc) with
      | None => (set_status s i proc "Failed", [ErrAccountNotFound t])
      | Some (j, acc) =>
          if String.eqb (type proc) "Deposit" then
            if (amount proc <=? 0)%float
            then (set_status s i proc "Failed", [ErrInvalidDeposit])
            else
              let b := (balance acc + amount proc)%float in
              (set_status (set_balance s j acc b) i proc "Completed",
               [DepositSuccessful t b])
          else if String.eqb (type proc) "Withdraw" then
            if (amount proc <=? 0)%float || (balance acc <? amount proc)%float
            then (set_status s i proc "Failed", [ErrInsufficientOrInvalid])
            else
              let b := (balance acc - amount proc)%float in
              (set_status (set_balance s j acc b) i proc "Completed",
               [WithdrawalSuccessful t b])
          else (set_status s i proc "Failed", [ErrUnknownType])
      end
  end.

Definition checkBalance (s : BankSystem) (accountId : Z) : float * list Output :=
  match findAccount s accountId with
  | None => ((-1)%float, [ErrInvalidAccountId])
  | Some (_, acc) => (balance acc, [])
  end.

Definition printProcesses (s : BankSystem) : list Output :=
  ProcessTableTitle :: ProcessTableColumns
  :: map ProcessRow (take (Z.to_nat (processCount s)) (processes s)).

(** ** Runs: the public operations as steps *)

Inductive Op :=
| CreateAccount (cid : string) (initialBalance : float)
| CreateProcess (accountId : Z) (ty : string) (amt : float)
| ExecuteProcess (t : Z)
| CheckBalance (accountId : Z)
| PrintProcesses.

Inductive Value :=
| VInt (z : Z)
| VDouble (f : float)
| VVoid.

Definition step (s : BankSystem) (op : Op) : Value * BankSystem * list Output :=
  match op with
  | CreateAccount cid b =>
      let '(r, s', o) := createAccount s cid b in (VInt r, s', o)
  | CreateProcess a ty amt =>
      let '(r, s', o) := createProcess s a ty amt in (VInt r, s', o)
  | ExecuteProcess t =>
      let '(s', o) := executeProcess s t in (VVoid, s', o)
  | CheckBalance a =>
      let '(r, o) := checkBalance s a in (VDouble r, s, o)
  | PrintProcesses => (VVoid, s, printProcesses s)
  end.

Definition step_state (s : BankSystem) (op : Op) : BankSystem := snd (fst (step s op)).
Definition step_value (s : BankSystem) (op : Op) : Value := fst (fst (step s op)).

(** The state after a list of operations, and the values they returned. *)
Fixpoint run (s : BankSystem) (ops : list Op) : BankSystem :=
  match ops with
  | [] => s
  | op :: ops' => run (step_state s op) ops'
  end.

Fixpoint returns (s : BankSystem) (ops : list Op) : list (Op * Value) :=
  match ops with
  | [] => []
  | op :: ops' => (op, step_value s op) :: returns (step_state s op) ops'
  end.

(** A [BankSystem] as its constructor leaves it: counts 0, next ids 1, and
    the two arrays with whatever [accs0] and [procs0] they start with. *)
Definition init (accs0 : list Account) (procs0 : list Process) : BankSystem :=
  {| accounts := accs0; processes := procs0;
     accountCount := 0; processCount := 0;
     nextAccountId := 1; nextTransactionId := 1 |}.

Inductive reachable : BankSystem -> Prop :=
| reach_init accs0 procs0 :
    Z.of_nat (length accs0) = MAX_ACCOUNTS ->
    Z.of_nat (length procs0) = MAX_PROCESSES ->
    reachable (init accs0 procs0)
| reach_step s op : reachable s -> reachable (step_state s op).

(** ** Vocabulary of the statements

    What the lemmas below speak of: a concrete bank, what is read from a
    state, the invariants of the reachable states, what an execution leaves
    alone, the ids a run handed out, and families of deposits. *)

(** A concrete fresh bank, for examples. *)
Definition blank_account : Account := mkAccount 0 "" 0%float false.
Definition blank_process : Process := mkProcess 0 0 "" 0%float "".
Definition bank0 : BankSystem :=
  init (repeat blank_account 1000) (repeat blank_process 100).

(** The bank with all [MAX_ACCOUNTS] accounts created. *)
Definition full_bank : BankSystem := run bank0 (repeat (CreateAccount "c" 0%float) 1000).

Definition balance_at (s : BankSystem) (j : nat) : option float :=
  balance <$> accounts s !! j.
Definition status_at (s : BankSystem) (i : nat) : option string :=
  status <$> processes s !! i.

(** The transaction-lookup loop at the head of [executeProcess]. *)
Definition findProcess (s : BankSystem) (t : Z) : option (nat * Process) :=
  scan (fun p => tid p =? t) (processes s) 0 (Z.to_nat (processCount s)).

Record wf (s : BankSystem) : Prop := {
  wf_acc_len : Z.of_nat (length (accounts s)) = MAX_ACCOUNTS;
  wf_proc_len : Z.of_nat (length (processes s)) = MAX_PROCESSES;
  wf_acc_count : 0 <= accountCount s <= MAX_ACCOUNTS;
  wf_proc_count : 0 <= processCount s <= MAX_PROCESSES;
  wf_next_acc : nextAccountId s = accountCount s + 1;
  wf_next_tid : nextTransactionId s = processCount s + 1;
  wf_acc_ids : forall j a,
    (j < Z.to_nat (accountCount s))%nat -> accounts s !! j = Some a ->
    id a = Z.of_nat j + 1 /\ active a = true;
  wf_proc_tids : forall i p,
    (i < Z.to_nat (processCount s))%nat -> processes s !! i = Some p ->
    tid p = Z.of_nat i + 1
}.

(** Two records that differ at most in [balance], resp. [status]. *)
Definition same_account (a a' : Account) : Prop :=
  id a' = id a /\ customerId a' = customerId a /\ active a' = active a.
Definition same_process (p p' : Process) : Prop :=
  tid p' = tid p /\ aid p' = aid p /\ type p' = type p /\ amount p' = amount p.

(** Slot by slot, [l'] holds what [l] holds up to the relation [R]. *)
Definition slots_related {A : Type} (R : A -> A -> Prop) (l l' : list A) : Prop :=
  forall k, match l !! k, l' !! k with
            | Some x, Some x' => R x x'
            | None, None => True
            | _, _ => False
            end.

(** What [executeProcess] never touches. *)
Record exec_frame (s s' : BankSystem) : Prop := {
  fr_acc_count : accountCount s' = accountCount s;
  fr_proc_count : processCount s' = processCount s;
  fr_next_acc : nextAccountId s' = nextAccountId s;
  fr_next_tid : nextTransactionId s' = nextTransactionId s;
  fr_accounts : slots_related same_account (accounts s) (accounts s');
  fr_processes : slots_related same_process (processes s) (processes s')
}.

(** The ways through [executeProcess], as one case analysis: the state that
    results is [s], [s] with one status written, or [s] with one balance and
    one status written. *)
Inductive exec_outcome (s : BankSystem) (t : Z) : BankSystem * list Output -> Prop :=
| exec_not_found :
    findProcess s t = None ->
    exec_outcome s t (s, [ErrTransactionNotFound])
| exec_no_account i proc :
    findProcess s t = Some (i, proc) ->
    findAccount s (aid proc) = None ->
    exec_outcome s t (set_status s i proc "Failed", [ErrAccountNotFound t])
| exec_failed i proc j acc o :
    findProcess s t = Some (i, proc) ->
    findAccount s (aid proc) = Some (j, acc) ->
    exec_outcome s t (set_status s i proc "Failed", o)
| exec_deposit i proc j acc :
    findProcess s t = Some (i, proc) ->
    findAccount s (aid proc) = Some (j, acc) ->
    type proc = "Deposit" ->
    (amount proc <=? 0)%float = false ->
    exec_outcome s t
      (set_status (set_balance s j acc (balance acc + amount proc)%float) i proc "Completed",
       [DepositSuccessful t (balance acc + amount proc)%float])
| exec_withdraw i proc j acc :
    findProcess s t = Some (i, proc) ->
    findAccount s (aid proc) = Some (j, acc) ->
    type proc = "Withdraw" ->
    (amount proc <=? 0)%float = false ->
    (balance acc <? amount proc)%float = false ->
    exec_outcome s t
      (set_status (set_balance s j acc (balance acc - amount proc)%float) i proc "Completed",
       [WithdrawalSuccessful t (balance acc - amount proc)%float]).

(** The [double]s an operation brings in are ordinary numbers: the initial
    balance is not NaN, a transaction amount is neither NaN nor infinite. *)
Definition regular_op (op : Op) : bool :=
  match op with
  | CreateAccount _ initialBalance => negb (is_nan initialBalance)
  | CreateProcess _ _ amt => is_finite amt
  | ExecuteProcess _ => true
  | CheckBalance _ => true
  | PrintProcesses => true
  end.

(** [balance >= 0] for every account created so far. *)
Definition balances_nonneg (s : BankSystem) : Prop :=
  forall j a, (j < Z.to_nat (accountCount s))%nat -> accounts s !! j = Some a ->
              (0 <=? balance a)%float = true.

Definition amounts_finite (s : BankSystem) : Prop :=
  forall i p, (i < Z.to_nat (processCount s))%nat -> processes s !! i = Some p ->
              is_finite (amount p) = true.

(** The id a call handed out, if it was a successful creation: both
    creations return -1 when they fail. *)
Definition new_account_id (r : Op * Value) : option Z :=
  match r with
  | (CreateAccount _ _, VInt z) => if z =? -1 then None else Some z
  | _ => None
  end.

Definition new_transaction_id (r : Op * Value) : option Z :=
  match r with
  | (CreateProcess _ _ _, VInt z) => if z =? -1 then None else Some z
  | _ => None
  end.

(** The ids handed out over a run, in the order of the calls. *)
Definition created_account_ids (rs : list (Op * Value)) : list Z := omap new_account_id rs.
Definition created_transaction_ids (rs : list (Op * Value)) : list Z :=
  omap new_transaction_id rs.

(** [b] after [n] executions of [balance += a]. *)
Fixpoint add_n (n : nat) (a b : float) : float :=
  match n with
  | O => b
  | S n' => add_n n' a (b + a)%float
  end.

(** A stored Deposit of [a] on account [accountId]. *)
Definition is_deposit (s : BankSystem) (accountId : Z) (a : float) (t : Z) : Prop :=
  exists i proc, findProcess s t = Some (i, proc) /\
    type proc = "Deposit" /\ aid proc = accountId /\ amount proc = a.

Definition is_completed (s : BankSystem) (t : Z) : Prop :=
  exists i proc, findProcess s t = Some (i, proc) /\ status proc = "Completed".

(** The number a finite [double] stands for. *)
Definition exact_value (x : float) : option Q :=
  match Prim2SF x with
  | S754_zero _ => Some 0%Q
  | S754_finite sg m e => Some ((cond_Zopp sg (Zpos m) # 1) * Qpower 2 e)%Q
  | _ => None
  end.

(** Neither NaN nor negative: a zero of either sign, a positive finite
    number or +infinity. *)
Definition SFnonneg (x : spec_float) : bool :=
  match x with
  | S754_zero _ => true
  | S754_infinity s => negb s
  | S754_nan => false
  | S754_finite s _ _ => negb s
  end.

(** Finite and strictly positive. *)
Definition SFfinpos (x : spec_float) : bool :=
  match x with
  | S754_finite false _ _ => true
  | _ => false
  end.

(** ** The menu loop of [menu] and [main]

    One turn of the loop reads a choice and the arguments of its case from
    [cin]; a [Request] is what one turn read, every extraction having
    succeeded.  The loop runs over the list of requests typed so far and
    returns at choice 6; when the list ends first the loop has written the
    menu once more and is waiting at [cin >> choice].  An extraction that
    fails, which end of input is, lies outside this model. *)
Inductive Request :=
| Choice1 (cid : string) (initialBalance : float)   (* 1. Create Account *)
| Choice2 (accountId : Z) (amt : float)             (* 2. Deposit *)
| Choice3 (accountId : Z) (amt : float)             (* 3. Withdraw *)
| Choice4 (accountId : Z)                           (* 4. Check Balance *)
| Choice5                                           (* 5. Display All Processes *)
| Choice6                                           (* 6. Exit *)
| ChoiceOther.                                      (* any other number *)

(** What [menu] writes to [cout]: its own lines, and those of the bank. *)
Inductive MenuLine :=
| MenuText                    (* the title, the six entries, "Enter your choice: " *)
| Prompt (text : string)
| FromBank (o : Output)
| BalanceLine (accountId : Z) (b : float)   (* Balance for Account ID a: b *)
| InvalidChoice.              (* Invalid choice. Please try again. *)

(** The body of one [case] of the [switch]. *)
Definition menu_case (s : BankSystem) (r : Request) : BankSystem * list MenuLine :=
  match r with
  | Choice1 cid b =>
      let '(_, s', o) := createAccount s cid b in
      (s', Prompt "Enter customer ID: " :: Prompt "Enter initial balance: "
           :: map FromBank o)
  | Choice2 a amt =>
      let '(t, s1, o1) := createProcess s a "Deposit" amt in
      let '(s2, o2) := executeProcess s1 t in
      (s2, Prompt "Enter account ID: " :: Prompt "Enter amount to deposit: "
           :: map FromBank (app o1 o2))
  | Choice3 a amt =>
      let '(t, s1, o1) := createProcess s a "Withdraw" amt in
      let '(s2, o2) := executeProcess s1 t in
      (s2, Prompt "Enter account ID: " :: Prompt "Enter amount to withdraw: "
           :: map FromBank (app o1 o2))
  | Choice4 a =>
      let '(b, o) := checkBalance s a in
      (s, Prompt "Enter account ID: "
          :: app (map FromBank o)
                 (if negb (b =? -1)%float then [BalanceLine a b] else []))
  | Choice5 => (s, map FromBank (printProcesses s))
  | Choice6 => (s, [])
  | ChoiceOther => (s, [InvalidChoice])
  end.

(** [menu]: the state reached, the lines written, and whether the loop has
    returned. *)
Fixpoint menu (s : BankSystem) (input : list Request)
  : BankSystem * list MenuLine * bool :=
  match input with
  | [] => (s, [MenuText], false)
  | Choice6 :: _ => (s, [MenuText], true)
  | r :: rest =>
      let '(s1, o1) := menu_case s r in
      let '(s2, o2, returned) := menu s1 rest in
      (s2, MenuText :: app o1 o2, returned)
  end.

Definition menu_state (s : BankSystem) (input : list Request) : BankSystem :=
  fst (fst (menu s input)).

(** [main]: a bank is constructed, [menu] runs on it, and 0 is returned once
    [menu] has returned. *)
Definition main (accs0 : list Account) (procs0 : list Process) (input : list Request)
  : option Z * list MenuLine :=
  let '(_, o, returned) := menu (init accs0 procs0) input in
  (if returned then Some 0 else None, o).

(** ** More vocabulary *)

(** No created account has a balance below zero. *)
Definition never_negative (s : BankSystem) : Prop :=
  forall j a, (j < Z.to_nat (accountCount s))%nat -> accounts s !! j = Some a ->
              (balance a <? 0)%float = false.

(** Every stored transaction has been executed. *)
Definition no_pending (s : BankSystem) : Prop :=
  forall i p, (i < Z.to_nat (processCount s))%nat -> processes s !! i = Some p ->
              status p = "Completed" \/ status p = "Failed".

(** The integers [lo], [lo + 1], ..., [hi - 1]. *)
Definition Zrange (lo hi : Z) : list Z :=
  map (fun k => lo + Z.of_nat k) (seq 0 (Z.to_nat (hi - lo))).

(** Not below zero: anything but -infinity and the negative finite numbers. *)
Definition SFnotlt0 (x : spec_float) : bool :=
  match x with
  | S754_infinity s => negb s
  | S754_finite s _ _ => negb s
  | _ => true
  end.

(** ** Concurrent calls of [executeProcess]

    A call [executeProcess(tid)] starts a thread that runs the body of the
    lambda (l.84-122) and joins it.  Calls made at the same time from several
    threads are modelled as threads that run this body over one shared
    memory: the bank, [cout], [bankMutex] and one [accMutex] per account
    slot.  A thread moves by the steps below: one statement at a time, one
    iteration of a lookup loop at a time, and [balance +=] and [balance -=]
    in two, the load and the store.  A [lock_guard] blocks while its mutex
    is held and releases it at the [return].  An interleaving is any
    sequence of such steps, each taken by any thread that is not blocked. *)

(** Where a thread stands in the body, with its locals: [i] the slot of
    [proc], [a] the argument of [findAccount], [j] its loop index and then
    the slot [acc] points to, [b] a value computed and not yet stored. *)
Inductive PC :=
| AtStart                                   (* l.84: before lock_guard lock(bankMutex) *)
| InLoop (i : nat)                          (* l.85: bankMutex held; before the test i < processCount *)
| NotFound                                  (* l.122: the loop is over; before the line is written *)
| AtProc (i : nat)                          (* l.87: proc = processes[i]; before the call findAccount(proc.aid) *)
| InFind (i : nat) (a : Z) (j : nat)        (* l.128: in findAccount(a); before the test j < accountCount *)
| AccNull (i : nat)                         (* l.90: acc is null; before the line is written *)
| NoAccount (i : nat)                       (* l.91: before proc.status = "Failed" *)
| AtAccLock (i j : nat)                     (* l.96: before lock_guard accLock(acc->accMutex) *)
| AtType (i j : nat)                        (* l.97: accMutex held; before the tests on type and amount *)
| AtReject (i j : nat) (o : Output)         (* l.99,108,116: before the line [o] is written *)
| Rejected (i j : nat)                      (* l.100,109,117: before proc.status = "Failed" *)
| AtUpdate (i j : nat) (deposit : bool)     (* l.103,112: before acc->balance and proc.amount are loaded *)
| AtStore (i j : nat) (deposit : bool) (b : float)  (* the new balance computed; before it is stored *)
| AtStatus (i j : nat) (deposit : bool)     (* l.104,113: before proc.status = "Completed" *)
| AtSay (i j : nat) (deposit : bool)        (* l.105,114: before the line with acc->balance is written *)
| AtAccUnlock (j : nat)                     (* return: accLock is destroyed *)
| AtUnlock                                  (* return: lock is destroyed *)
| Done.

Record Shared := mkShared {
  bank : BankSystem;
  cout : list Output;
  bankMutex : option nat;          (* the thread that holds it *)
  accMutex : nat -> option nat     (* per account slot, the thread that holds it *)
}.

Definition put_bank (sh : Shared) (b : BankSystem) : Shared :=
  mkShared b (cout sh) (bankMutex sh) (accMutex sh).
Definition say (sh : Shared) (o : Output) : Shared :=
  mkShared (bank sh) (app (cout sh) [o]) (bankMutex sh) (accMutex sh).
Definition put_bankMutex (sh : Shared) (owner : option nat) : Shared :=
  mkShared (bank sh) (cout sh) owner (accMutex sh).
Definition put_accMutex (sh : Shared) (j : nat) (owner : option nat) : Shared :=
  mkShared (bank sh) (cout sh) (bankMutex sh)
           (fun j' => if Nat.eqb j' j then owner else accMutex sh j').

(** One step of thread [k], which runs [executeProcess(t)]; [None] when the
    thread is blocked on a mutex or has finished.  As in [scan], a read past
    the end of an array ends the loop. *)
Definition thread_step (k : nat) (t : Z) (pc : PC) (sh : Shared) : option (PC * Shared) :=
  match pc with
  | AtStart =>
      match bankMutex sh with
      | None => Some (InLoop 0, put_bankMutex sh (Some k))
      | Some _ => None
      end
  | InLoop i =>
      if Z.of_nat i <? processCount (bank sh) then
        match processes (bank sh) !! i with
        | Some proc =>
            if tid proc =? t then Some (AtProc i, sh) else Some (InLoop (S i), sh)
        | None => Some (NotFound, sh)
        end
      else Some (NotFound, sh)
  | NotFound => Some (AtUnlock, say sh ErrTransactionNotFound)
  | AtProc i =>
      match processes (bank sh) !! i with
      | Some proc => Some (InFind i (aid proc) 0, sh)
      | None => None
      end
  | InFind i a j =>
      if Z.of_nat j <? accountCount (bank sh) then
        match accounts (bank sh) !! j with
        | Some acc =>
            if active acc && (id acc =? a)
            then Some (AtAccLock i j, sh)
            else Some (InFind i a (S j), sh)
        | None => Some (AccNull i, sh)
        end
      else Some (AccNull i, sh)
  | AccNull i => Some (NoAccount i, say sh (ErrAccountNotFound t))
  | NoAccount i =>
      match processes (bank sh) !! i with
      | Some proc => Some (AtUnlock, put_bank sh (set_status (bank sh) i proc "Failed"))
      | None => None
      end
  | AtAccLock i j =>
      match accMutex sh j with
      | None => Some (AtType i j, put_accMutex sh j (Some k))
      | Some _ => None
      end
  | AtType i j =>
      match processes (bank sh) !! i, accounts (bank sh) !! j with
      | Some proc, Some acc =>
          if String.eqb (type proc) "Deposit" then
            if (amount proc <=? 0)%float
            then Some (AtReject i j ErrInvalidDeposit, sh)
            else Some (AtUpdate i j true, sh)
          else if String.eqb (type proc) "Withdraw" then
            if (amount proc <=? 0)%float || (balance acc <? amount proc)%float
            then Some (AtReject i j ErrInsufficientOrInvalid, sh)
            else Some (AtUpdate i j false, sh)
          else Some (AtReject i j ErrUnknownType, sh)
      | _, _ => None
      end
  | AtReject i j o => Some (Rejected i j, say sh o)
  | Rejected i j =>
      match processes (bank sh) !! i with
      | Some proc => Some (AtAccUnlock j, put_bank sh (set_status (bank sh) i proc "Failed"))
      | None => None
      end
  | AtUpdate i j deposit =>
      match processes (bank sh) !! i, accounts (bank sh) !! j with
      | Some proc, Some acc =>
          Some (AtStore i j deposit
                  (if deposit then balance acc + amount proc
                   else balance acc - amount proc)%float, sh)
      | _, _ => None
      end
  | AtStore i j deposit b =>
      match accounts (bank sh) !! j with
      | Some acc => Some (AtStatus i j deposit, put_bank sh (set_balance (bank sh) j acc b))
      | None => None
      end
  | AtStatus i j deposit =>
      match processes (bank sh) !! i with
      | Some proc =>
          Some (AtSay i j deposit, put_bank sh (set_status (bank sh) i proc "Completed"))
      | None => None
      end
  | AtSay i j deposit =>
      match accounts (bank sh) !! j with
      | Some acc =>
          Some (AtAccUnlock j,
                say sh (if deposit then DepositSuccessful t (balance acc)
                        else WithdrawalSuccessful t (balance acc)))
      | None => None
      end
  | AtAccUnlock j => Some (AtUnlock, put_accMutex sh j None)
  | AtUnlock => Some (Done, put_bankMutex sh None)
  | Done => None
  end.

(** The shared memory and where each thread stands; thread [k] runs
    [executeProcess] on the [k]-th of the [calls]. *)
Record Config := mkConfig {
  shared : Shared;
  pcs : list PC
}.

Definition sys_step (calls : list Z) (k : nat) (c : Config) : option Config :=
  match calls !! k, pcs c !! k with
  | Some t, Some pc =>
      match thread_step k t pc (shared c) with
      | Some (pc', sh') => Some (mkConfig sh' (<[ k := pc' ]> (pcs c)))
      | None => None
      end
  | _, _ => None
  end.

(** All calls made, none started, on the bank [s]. *)
Definition start (s : BankSystem) (calls : list Z) : Config :=
  mkConfig (mkShared s [] None (fun _ => None)) (repeat AtStart (length calls)).

(** [steps calls n c c']: some interleaving leads from [c] to [c'] in [n]
    steps. *)
Inductive steps (calls : list Z) : nat -> Config -> Config -> Prop :=
| steps_none c : steps calls 0 c c
| steps_more n k c c1 c2 :
    sys_step calls k c = Some c1 -> steps calls n c1 c2 -> steps calls (S n) c c2.

(** The interleaving that a list of thread numbers picks; a pick of a
    thread that cannot move is passed over. *)
Fixpoint run_schedule (calls : list Z) (schedule : list nat) (c : Config) : Config :=
  match schedule with
  | [] => c
  | k :: rest =>
      match sys_step calls k c with
      | Some c' => run_schedule calls rest c'
      | None => run_schedule calls rest c
      end
  end.

(** The number of picks of a schedule that move a thread. *)
Fixpoint moves (calls : list Z) (schedule : list nat) (c : Config) : nat :=
  match schedule with
  | [] => 0
  | k :: rest =>
      match sys_step calls k c with
      | Some c' => S (moves calls rest c')
      | None => moves calls rest c
      end
  end.

Definition is_done (pc : PC) : bool :=
  match pc with Done => true | _ => false end.

Definition all_done (c : Config) : Prop := forallb is_done (pcs c) = true.

(** [n] steps of thread [k] with no other thread moving. *)
Fixpoint solo (k : nat) (t : Z) (n : nat) (pc : PC) (sh : Shared) : option (PC * Shared) :=
  match n with
  | O => Some (pc, sh)
  | S n' =>
      match thread_step k t pc sh with
      | Some (pc', sh') => solo k t n' pc' sh'
      | None => None
      end
  end.

(** The most steps one call takes on the bank [s]: the two loops and twelve
    more. *)
Definition body_steps (s : BankSystem) : nat :=
  (Z.to_nat (processCount s) + Z.to_nat (accountCount s) + 12)%nat.

(** The calls of the threads [order], in that order. *)
Definition calls_of (calls : list Z) (order : list nat) : list Z :=
  omap (fun k => calls !! k) order.

(** What every configuration that an interleaving reaches in [n] steps from
    [start s0 calls] satisfies.  Either no thread is inside the body, both
    kinds of mutex are free, and the bank is what the finished calls give
    when made one after the other in the order [order] in which they took
    [bankMutex]; or one thread [k] is inside, it holds [bankMutex], every
    other thread has not started or has finished, and the shared memory is
    what [k] alone made, in [m] steps, of the memory [base] it found. *)
Inductive linearized (s0 : BankSystem) (calls : list Z) (n : nat) (c : Config) : Prop :=
| lin_free order :
    bankMutex (shared c) = None ->
    (forall j, accMutex (shared c) j = None) ->
    NoDup order ->
    (forall k, In k order <-> pcs c !! k = Some Done) ->
    (forall k pc, pcs c !! k = Some pc -> pc = AtStart \/ pc = Done) ->
    bank (shared c) = run s0 (map ExecuteProcess (calls_of calls order)) ->
    (n <= body_steps s0 * length order)%nat ->
    linearized s0 calls n c
| lin_held order k t base m pc :
    calls !! k = Some t ->
    pcs c !! k = Some pc ->
    pc <> AtStart -> pc <> Done ->
    bankMutex (shared c) = Some k ->
    bankMutex base = None ->
    (forall j, accMutex base j = None) ->
    bank base = run s0 (map ExecuteProcess (calls_of calls order)) ->
    solo k t m AtStart base = Some (pc, shared c) ->
    NoDup order -> ~ In k order ->
    (forall k', In k' order <-> pcs c !! k' = Some Done) ->
    (forall k' pc', k' <> k -> pcs c !! k' = Some pc' -> pc' = AtStart \/ pc' = Done) ->
    (n <= body_steps s0 * length order + m)%nat ->
    linearized s0 calls n c.

(** Transaction [t] sits in its slot of the process array, and is a Deposit
    of [a] on account [accountId]. *)
Definition stored_deposit (s : BankSystem) (accountId : Z) (a : float) (t : Z) : Prop :=
  1 <= t <= processCount s /\
  exists proc, processes s !! Z.to_nat (t - 1) = Some proc /\
    type proc = "Deposit" /\ aid proc = accountId /\ amount proc = a.

(** ** The model at work

    Account "alice" with 100, a deposit of 50 and then a withdrawal of 200:
    ids 1, 1 and 2 are handed out, the deposit completes and leaves 150, the
    withdrawal fails and leaves the balance alone. *)
Example alice_scenario :
  let ops := [CreateAccount "alice" 100%float;
              CreateProcess 1 "Deposit" 50%float; ExecuteProcess 1;
              CreateProcess 1 "Withdraw" 200%float; ExecuteProcess 2;
              CheckBalance 1] in
  map snd (returns bank0 ops)
  = [VInt 1; VInt 1; VVoid; VInt 2; VVoid; VDouble 150%float] /\
  map (status_at (run bank0 ops)) [0; 1]%nat = [Some "Completed"; Some "Failed"].
Proof. split; reflexivity. Qed.

(** ** Facts about [double] comparisons, sums and differences

    Derived from the specification of the binary64 primitives: what the
    guards [x < 0], [x <= 0] and [b < a] of the program let through, and the
    sign of [b + a] and [b - a] behind them. *)
Module Double.

Local Open Scope float_scope.

Lemma SFcompare_antisym x y c :
  SFcompare x y = Some c -> SFcompare y x = Some (CompOpp c).
Proof.
  destruct x as [sx|sx| |sx mx ex], y as [sy|sy| |sy my ey]; simpl;
    try discriminate;
    try (destruct sx; intros [= <-]; reflexivity);
    try (destruct sy; intros [= <-]; reflexivity);
    try (intros [= <-]; reflexivity).
  - destruct sx, sy; intros [= <-]; reflexivity.
  - change (PosDef.Pos.compare_cont Eq mx my) with (mx ?= my)%positive.
    change (PosDef.Pos.compare_cont Eq my mx) with (my ?= mx)%positive.
    rewrite (Z.compare_antisym ex ey), (Pos.compare_antisym mx my).
    destruct sx, sy; intros [= <-]; try reflexivity;
      destruct (ex ?= ey)%Z; simpl; try reflexivity;
      destruct (mx ?= my)%positive; reflexivity.
Qed.

Lemma Prim2SF_zero : Prim2SF 0 = S754_zero false.
Proof. reflexivity. Qed.

(** [0 < a] closes the guard [a <= 0]. *)
Lemma lt0_not_le0 (a : float) : (0 <? a) = true -> (a <=? 0) = false.
Proof.
  rewrite FloatAxioms.ltb_spec, FloatAxioms.leb_spec. unfold SFltb, SFleb.
  destruct (SFcompare (Prim2SF 0) (Prim2SF a)) as [c|] eqn:E; [|discriminate].
  rewrite (SFcompare_antisym _ _ _ E). destruct c; simpl; congruence.
Qed.

(** [a <= b] closes the guard [b < a]. *)
Lemma le_not_gt (a b : float) : (a <=? b) = true -> (b <? a) = false.
Proof.
  rewrite FloatAxioms.ltb_spec, FloatAxioms.leb_spec. unfold SFltb, SFleb.
  destruct (SFcompare (Prim2SF a) (Prim2SF b)) as [c|] eqn:E; [|discriminate].
  rewrite (SFcompare_antisym _ _ _ E). destruct c; simpl; congruence.
Qed.

Lemma leb0_nonneg (x : float) : (0 <=? x) = SFnonneg (Prim2SF x).
Proof.
  rewrite FloatAxioms.leb_spec, Prim2SF_zero.
  destruct (Prim2SF x) as [s|s| |s m e]; try destruct s; reflexivity.
Qed.

Lemma SFcompare_refl_finite s m e :
  SFcompare (S754_finite s m e) (S754_finite s m e) = Some Eq.
Proof.
  simpl. change (PosDef.Pos.compare_cont Eq m m) with (m ?= m)%positive.
  rewrite Z.compare_refl, Pos.compare_refl. destruct s; reflexivity.
Qed.

Lemma is_nan_spec (x : float) : is_nan x = true <-> Prim2SF x = S754_nan.
Proof.
  unfold is_nan. rewrite FloatAxioms.eqb_spec. unfold SFeqb.
  destruct (Prim2SF x) as [s|s| |s m e].
  - split; discriminate.
  - destruct s; split; discriminate.
  - split; reflexivity.
  - rewrite SFcompare_refl_finite. split; discriminate.
Qed.

Lemma is_finite_spec (x : float) :
  is_finite x = true ->
  match Prim2SF x with S754_zero _ | S754_finite _ _ _ => True | _ => False end.
Proof.
  unfold is_finite, is_infinity. intros H.
  apply negb_true_iff, orb_false_iff in H. destruct H as [Hn Hi].
  rewrite FloatAxioms.eqb_spec, FloatAxioms.abs_spec in Hi.
  destruct (Prim2SF x) as [s|s| |s m e] eqn:E; try exact I.
  - discriminate Hi.
  - apply not_true_iff_false in Hn. apply Hn, is_nan_spec, E.
Qed.

(** The guard [x < 0] of [createAccount] lets through exactly the
    non-negative numbers, and NaN. *)
Lemma not_lt0_nonneg (x : float) :
  is_nan x = false -> (x <? 0) = false -> (0 <=? x) = true.
Proof.
  intros Hn. rewrite leb0_nonneg, FloatAxioms.ltb_spec, Prim2SF_zero.
  apply not_true_iff_false in Hn. rewrite is_nan_spec in Hn. revert Hn.
  unfold SFltb.
  destruct (Prim2SF x) as [s|s| |s m e]; try destruct s; simpl; congruence.
Qed.

(** Behind the guard [a <= 0] a finite amount is finite and positive. *)
Lemma not_le0_finpos (a : float) :
  is_finite a = true -> (a <=? 0) = false -> SFfinpos (Prim2SF a) = true.
Proof.
  intros Hf. apply is_finite_spec in Hf. rewrite FloatAxioms.leb_spec, Prim2SF_zero.
  unfold SFleb.
  destruct (Prim2SF a) as [s|s| |s m e]; try destruct s; simpl; try congruence;
    contradiction.
Qed.

(** *** Rounding keeps the sign *)

Lemma shr_1_nonneg mrs : (0 <= shr_m mrs)%Z -> (0 <= shr_m (shr_1 mrs))%Z.
Proof.
  destruct mrs as [m r t]; simpl.
  destruct m as [|p|p]; [| destruct p | destruct p]; simpl; lia.
Qed.

Lemma iter_pos_invariant {A : Type} (P : A -> Prop) (f : A -> A) :
  (forall x, P x -> P (f x)) -> forall n x, P x -> P (SpecFloat.iter_pos f n x).
Proof.
  intros Hf n. induction n as [n IH|n IH|]; simpl; intros x Hx; auto.
Qed.

Lemma shr_nonneg mrs e n : (0 <= shr_m mrs)%Z -> (0 <= shr_m (fst (shr mrs e n)))%Z.
Proof.
  intros H. destruct n as [|p|p]; simpl; auto.
  apply (iter_pos_invariant (fun r => 0 <= shr_m r)%Z); auto using shr_1_nonneg.
Qed.

Lemma shr_fexp_nonneg m e l :
  (0 <= m)%Z -> (0 <= shr_m (fst (shr_fexp prec emax m e l)))%Z.
Proof.
  intros H. unfold shr_fexp. apply shr_nonneg.
  destruct l as [|[]]; exact H.
Qed.

Lemma round_nearest_even_nonneg m l : (0 <= m)%Z -> (0 <= round_nearest_even m l)%Z.
Proof.
  intros H. destruct l as [|[]]; simpl; try lia.
  destruct (Z.even m); lia.
Qed.

Lemma binary_round_aux_nonneg m e l :
  (0 <= m)%Z -> SFnonneg (binary_round_aux prec emax false m e l) = true.
Proof.
  intros H. unfold binary_round_aux.
  pose proof (shr_fexp_nonneg m e l H) as H1.
  destruct (shr_fexp prec emax m e l) as [mrs' e']. simpl in H1.
  pose proof (shr_fexp_nonneg _ e' loc_Exact
                (round_nearest_even_nonneg _ (loc_of_shr_record mrs') H1)) as H2.
  destruct (shr_fexp prec emax _ e' loc_Exact) as [mrs'' e'']. simpl in H2.
  destruct (shr_m mrs'') as [|p|p]; [reflexivity| |lia].
  destruct (e'' <=? emax - prec)%Z; reflexivity.
Qed.

Lemma binary_normalize_nonneg m e :
  (0 <= m)%Z -> SFnonneg (binary_normalize prec emax m e false) = true.
Proof.
  intros H. destruct m as [|p|p]; [reflexivity| |lia].
  simpl. unfold binary_round.
  destruct (shl_align p e _) as [mz ez]. apply binary_round_aux_nonneg. lia.
Qed.

(** *** Sum of a non-negative and a positive finite number *)

Lemma SFadd_nonneg x y :
  SFnonneg x = true -> SFfinpos y = true -> SFnonneg (SFadd prec emax x y) = true.
Proof.
  destruct y as [| | |[] my ey]; try discriminate. intros Hx _.
  destruct x as [sx|sx| |sx mx ex]; try discriminate; simpl in *; auto.
  destruct sx; [discriminate|].
  apply binary_normalize_nonneg. simpl. lia.
Qed.

(** *** Difference behind the guard [b < a] *)

Lemma shl_align_fst m e e' :
  (e' <= e)%Z -> Zpos (fst (shl_align m e e')) = (Zpos m * 2 ^ (e - e'))%Z.
Proof.
  intros H. unfold shl_align.
  destruct (e' - e)%Z as [|d|d] eqn:E; simpl.
  - replace (e - e')%Z with 0%Z by lia. lia.
  - lia.
  - replace (e - e')%Z with (Zpos d) by lia.
    change (Pos.iter xO m d) with (shift_pos d m).
    rewrite shift_pos_correct, Z.pow_pos_fold. lia.
Qed.

Lemma digits2_pos_bounds m :
  (2 ^ (Zpos (digits2_pos m) - 1) <= Zpos m < 2 ^ Zpos (digits2_pos m))%Z.
Proof.
  induction m as [m IH|m IH|]; simpl digits2_pos.
  - rewrite Pos2Z.inj_succ.
    replace (Z.succ (Zpos (digits2_pos m)) - 1)%Z
      with (Z.succ (Zpos (digits2_pos m) - 1)) by lia.
    rewrite !Z.pow_succ_r by lia. lia.
  - rewrite Pos2Z.inj_succ.
    replace (Z.succ (Zpos (digits2_pos m)) - 1)%Z
      with (Z.succ (Zpos (digits2_pos m) - 1)) by lia.
    rewrite !Z.pow_succ_r by lia. lia.
  - simpl. lia.
Qed.

(** What a valid binary64 mantissa and exponent satisfy: at most 53 digits,
    and exactly 53 above the smallest exponent. *)
Lemma bounded_digits m e :
  bounded prec emax m e = true ->
  (-1074 <= e)%Z /\ (Zpos (digits2_pos m) <= 53)%Z /\
  ((-1074 < e)%Z -> Zpos (digits2_pos m) = 53%Z).
Proof.
  unfold bounded, canonical_mantissa, fexp, SpecFloat.emin, prec, emax.
  intros H. apply andb_true_iff in H. destruct H as [H _].
  apply Z.eqb_eq in H. lia.
Qed.

Lemma SFsub_nonneg x y :
  valid_binary x = true -> valid_binary y = true ->
  SFnonneg x = true -> SFfinpos y = true -> SFltb x y = false ->
  SFnonneg (SFsub prec emax x y) = true.
Proof.
  destruct y as [| | |[] my ey]; try discriminate. intros Vx Vy Hx _.
  destruct x as [sx|sx| |sx mx ex]; try discriminate.
  - destruct sx; [discriminate|]. reflexivity.
  - destruct sx; [discriminate|]. clear Hx. intros Hlt.
    cbn [SFsub cond_Zopp]. apply binary_normalize_nonneg.
    rewrite !shl_align_fst by lia.
    simpl in Vx, Vy. apply bounded_digits in Vx, Vy.
    destruct Vx as (Vx1 & Vx2 & Vx3), Vy as (Vy1 & Vy2 & Vy3).
    pose proof (digits2_pos_bounds mx) as Bx.
    pose proof (digits2_pos_bounds my) as By.
    unfold SFltb in Hlt. simpl in Hlt.
    change (PosDef.Pos.compare_cont Eq mx my) with (mx ?= my)%positive in Hlt.
    destruct (Z.compare_spec ex ey) as [E|E|E]; [| discriminate |].
    + subst ey. rewrite Z.min_id, Z.sub_diag, Z.pow_0_r.
      destruct (Pos.compare_spec mx my) as [E|E|E]; [| discriminate |]; lia.
    + rewrite Z.min_r by lia. rewrite Z.sub_diag, Z.pow_0_r.
      rewrite Vx3 in Bx by lia. change (2 ^ (53 - 1))%Z with 4503599627370496%Z in Bx.
      assert (Zpos my < 2 ^ 53)%Z as By'.
      { eapply Z.lt_le_trans; [apply By|]. apply Z.pow_le_mono_r; lia. }
      change (2 ^ 53)%Z with 9007199254740992%Z in By'.
      assert (2 ^ 1 <= 2 ^ (ex - ey))%Z as Hp by (apply Z.pow_le_mono_r; lia).
      change (2 ^ 1)%Z with 2%Z in Hp. nia.
Qed.

(** *** The three facts the balance invariant rests on *)

(** [balance += amount] behind the guard [amount <= 0]. *)
Lemma add_nonneg (b a : float) :
  (0 <=? b) = true -> is_finite a = true -> (a <=? 0) = false ->
  (0 <=? b + a) = true.
Proof.
  rewrite !leb0_nonneg. intros Hb Hf Ha.
  rewrite add_spec. apply SFadd_nonneg; auto using not_le0_finpos.
Qed.

(** [balance -= amount] behind the guard [amount <= 0 || balance < amount]. *)
Lemma sub_nonneg (b a : float) :
  (0 <=? b) = true -> is_finite a = true ->
  (a <=? 0) = false -> (b <? a) = false ->
  (0 <=? b - a) = true.
Proof.
  rewrite !leb0_nonneg. intros Hb Hf Ha Hlt.
  rewrite sub_spec. rewrite FloatAxioms.ltb_spec in Hlt.
  apply SFsub_nonneg; auto using not_le0_finpos, Prim2SF_valid.
Qed.

End Double.

(** ** The scan loop *)
Section Scan.
Context {A : Type} (p : A -> bool).

Lemma scan_Some arr i n k x :
  scan p arr i n = Some (k, x) ->
  arr !! k = Some x /\ p x = true /\ (i <= k < i + n)%nat /\
  forall j y, (i <= j < k)%nat -> arr !! j = Some y -> p y = false.
Proof.
  revert i. induction n as [|n IH]; intros i; simpl; [discriminate|].
  destruct (arr !! i) as [y|] eqn:Ei; [|discriminate].
  destruct (p y) eqn:Ep.
  - intros [= <- <-]. repeat split; auto; lia.
  - intros H. apply IH in H. destruct H as (H1 & H2 & H3 & H4).
    repeat split; auto; try lia.
    intros j z Hj Hz. destruct (decide (j = i)) as [->|Hne].
    + congruence.
    + apply (H4 j z); [lia|exact Hz].
Qed.

Lemma scan_None arr i n :
  (forall j y, (i <= j < i + n)%nat -> arr !! j = Some y -> p y = false) ->
  scan p arr i n = None.
Proof.
  revert i. induction n as [|n IH]; intros i H; simpl; [reflexivity|].
  destruct (arr !! i) as [y|] eqn:Ei; [|reflexivity].
  rewrite (H i y) by (auto; lia). apply IH. intros j z Hj. apply H. lia.
Qed.

(** The first slot that satisfies [p] is the one the scan returns. *)
Lemma scan_first arr i n k x :
  (i <= k < i + n)%nat -> arr !! k = Some x -> p x = true ->
  (forall j y, (i <= j < k)%nat -> arr !! j = Some y -> p y = false) ->
  (forall j, (i <= j < k)%nat -> is_Some (arr !! j)) ->
  scan p arr i n = Some (k, x).
Proof.
  revert i. induction n as [|n IH]; intros i Hk Hx Hp Hbefore Hdef; [lia|].
  simpl. destruct (decide (i = k)) as [->|Hne].
  - rewrite Hx, Hp. reflexivity.
  - destruct (Hdef i) as [y Hy]; [lia|]. rewrite Hy, (Hbefore i y) by (auto; lia).
    apply IH; auto; try lia.
    + intros j z Hj. apply Hbefore. lia.
    + intros j Hj. apply Hdef. lia.
Qed.

(** A scan depends on the array only through [p] at each slot. *)
Lemma scan_agree arr arr' i n :
  (forall j, p <$> arr' !! j = p <$> arr !! j) ->
  match scan p arr i n with
  | Some (k, _) => exists x', arr' !! k = Some x' /\ scan p arr' i n = Some (k, x')
  | None => scan p arr' i n = None
  end.
Proof.
  intros H. revert i. induction n as [|n IH]; intros i; simpl; [reflexivity|].
  specialize (H i) as Hi.
  destruct (arr !! i) as [y|] eqn:Ei, (arr' !! i) as [y'|] eqn:Ei';
    simpl in Hi; try discriminate; [|reflexivity].
  injection Hi as Hi. rewrite Hi.
  destruct (p y); [|apply IH]. eauto.
Qed.
End Scan.

(** ** Invariants of the reachable states *)

Lemma int_wrap_small z : -2 ^ 31 <= z < 2 ^ 31 -> int_wrap z = z.
Proof. intros H. unfold int_wrap. rewrite Z.mod_small; lia. Qed.

Lemma slots_related_refl {A : Type} (R : A -> A -> Prop) (l : list A) :
  (forall x, R x x) -> slots_related R l l.
Proof. intros HR k. destruct (l !! k); auto. Qed.

Lemma slots_related_insert {A : Type} (R : A -> A -> Prop) (l : list A) i x x' :
  (forall y, R y y) -> l !! i = Some x -> R x x' ->
  slots_related R l (<[ i := x' ]> l).
Proof.
  intros HR Hi Hx k. destruct (decide (k = i)) as [->|Hne].
  - rewrite Hi, list_lookup_insert_eq by (eapply lookup_lt_Some; eauto). exact Hx.
  - rewrite list_lookup_insert_ne by auto. destruct (l !! k); auto.
Qed.

Lemma slots_related_trans {A : Type} (R : A -> A -> Prop) (l1 l2 l3 : list A) :
  (forall x y z, R x y -> R y z -> R x z) ->
  slots_related R l1 l2 -> slots_related R l2 l3 -> slots_related R l1 l3.
Proof.
  intros HR H12 H23 k. specialize (H12 k). specialize (H23 k).
  destruct (l1 !! k), (l2 !! k), (l3 !! k); try contradiction; eauto.
Qed.

Lemma slots_related_length {A : Type} (R : A -> A -> Prop) (l l' : list A) :
  slots_related R l l' -> length l' = length l.
Proof.
  intros H.
  destruct (Nat.lt_trichotomy (length l') (length l)) as [Hlt|[Heq|Hlt]]; auto; exfalso.
  - specialize (H (length l')). rewrite (lookup_ge_None_2 l') in H by lia.
    destruct (lookup_lt_is_Some_2 l (length l') Hlt) as [x Hx]. rewrite Hx in H. exact H.
  - specialize (H (length l)). rewrite (lookup_ge_None_2 l) in H by lia.
    destruct (lookup_lt_is_Some_2 l' (length l) Hlt) as [x Hx]. rewrite Hx in H. exact H.
Qed.

Lemma same_account_refl a : same_account a a.
Proof. repeat split. Qed.

Lemma same_process_refl p : same_process p p.
Proof. repeat split. Qed.

Lemma same_account_trans a b c : same_account a b -> same_account b c -> same_account a c.
Proof. unfold same_account. intuition congruence. Qed.

Lemma same_process_trans a b c : same_process a b -> same_process b c -> same_process a c.
Proof. unfold same_process. intuition congruence. Qed.

Create HintDb bank.
#[local] Hint Resolve same_account_refl same_process_refl : bank.

Lemma executeProcess_outcome s t : exec_outcome s t (executeProcess s t).
Proof.
  unfold executeProcess.
  destruct (scan _ (processes s) 0 _) as [[i proc]|] eqn:Hp;
    [|apply exec_not_found; exact Hp].
  destruct (findAccount s (aid proc)) as [[j acc]|] eqn:Ha;
    [|eapply exec_no_account; eauto].
  destruct (String.eqb_spec (type proc) "Deposit") as [Hd|Hd].
  - destruct (amount proc <=? 0)%float eqn:Hle.
    + eapply exec_failed; eauto.
    + eapply exec_deposit; eauto.
  - destruct (String.eqb_spec (type proc) "Withdraw") as [Hw|Hw].
    + destruct (amount proc <=? 0)%float eqn:Hle; simpl.
      * eapply exec_failed; eauto.
      * destruct (balance acc <? amount proc)%float eqn:Hlt.
        -- eapply exec_failed; eauto.
        -- eapply exec_withdraw; eauto.
    + eapply exec_failed; eauto.
Qed.

(** Case analysis on the way [executeProcess s t] took. *)
Ltac exec_cases s t :=
  destruct (executeProcess_outcome s t)
    as [Hp|i proc Hp Ha|i proc j acc o Hp Ha|i proc j acc Hp Ha Ht Hle
       |i proc j acc Hp Ha Ht Hle Hlt].

Lemma findProcess_Some s t i proc :
  findProcess s t = Some (i, proc) ->
  processes s !! i = Some proc /\ tid proc = t /\ (i < Z.to_nat (processCount s))%nat.
Proof.
  intros H. apply scan_Some in H. destruct H as (H1 & H2 & H3 & _).
  apply Z.eqb_eq in H2. repeat split; auto; lia.
Qed.

Lemma findAccount_Some s a j acc :
  findAccount s a = Some (j, acc) ->
  accounts s !! j = Some acc /\ id acc = a /\ active acc = true /\
  (j < Z.to_nat (accountCount s))%nat.
Proof.
  intros H. apply scan_Some in H. destruct H as (H1 & H2 & H3 & _).
  apply andb_true_iff in H2. destruct H2 as [H2 H2']. apply Z.eqb_eq in H2'.
  repeat split; auto; lia.
Qed.

Lemma set_status_frame s i proc st :
  processes s !! i = Some proc -> exec_frame s (set_status s i proc st).
Proof.
  intros Hp. split; simpl; auto using slots_related_refl with bank.
  eapply slots_related_insert; eauto with bank. repeat split.
Qed.

Lemma set_balance_frame s j acc b :
  accounts s !! j = Some acc -> exec_frame s (set_balance s j acc b).
Proof.
  intros Ha. split; simpl; auto using slots_related_refl with bank.
  eapply slots_related_insert; eauto with bank. repeat split.
Qed.

Lemma exec_frame_trans s1 s2 s3 : exec_frame s1 s2 -> exec_frame s2 s3 -> exec_frame s1 s3.
Proof.
  intros [] []. split; try congruence.
  - eapply slots_related_trans; eauto using same_account_trans.
  - eapply slots_related_trans; eauto using same_process_trans.
Qed.

Lemma exec_frame_refl s : exec_frame s s.
Proof. split; auto using slots_related_refl with bank. Qed.

Lemma executeProcess_frame s t : exec_frame s (fst (executeProcess s t)).
Proof.
  exec_cases s t; simpl;
    try apply exec_frame_refl;
    apply findProcess_Some in Hp; destruct Hp as (Hp & _);
    try (apply set_status_frame; exact Hp);
    apply findAccount_Some in Ha; destruct Ha as (Ha & _);
    (eapply exec_frame_trans;
     [apply set_balance_frame; exact Ha | apply set_status_frame; exact Hp]).
Qed.

(** ** Well-formedness is kept by every operation *)

Lemma init_wf accs0 procs0 :
  Z.of_nat (length accs0) = MAX_ACCOUNTS ->
  Z.of_nat (length procs0) = MAX_PROCESSES ->
  wf (init accs0 procs0).
Proof.
  intros Ha Hp. split; simpl; auto; unfold MAX_ACCOUNTS, MAX_PROCESSES; try lia.
Qed.

Lemma createAccount_wf s cid b : wf s -> wf (snd (fst (createAccount s cid b))).
Proof.
  intros W. unfold createAccount.
  destruct (Z.geb_spec (accountCount s) MAX_ACCOUNTS) as [Hge|Hlt]; [exact W|].
  destruct (b <? 0)%float; [exact W|]. destruct W. simpl.
  split; simpl; unfold MAX_ACCOUNTS in *; auto; try lia.
  - rewrite length_insert. assumption.
  - rewrite wf_next_acc0, int_wrap_small; lia.
  - intros j a Hj. destruct (decide (j = Z.to_nat (accountCount s))) as [->|Hne].
    + rewrite list_lookup_insert_eq by lia. intros [= <-]. simpl. split; [lia|reflexivity].
    + rewrite list_lookup_insert_ne by auto. apply wf_acc_ids0. lia.
Qed.

Lemma createProcess_wf s a ty amt : wf s -> wf (snd (fst (createProcess s a ty amt))).
Proof.
  intros W. unfold createProcess.
  destruct (Z.geb_spec (processCount s) MAX_PROCESSES) as [Hge|Hlt]; [exact W|].
  destruct W. simpl.
  split; simpl; unfold MAX_PROCESSES in *; auto; try lia.
  - rewrite length_insert. assumption.
  - rewrite wf_next_tid0, int_wrap_small; lia.
  - intros i p Hi. destruct (decide (i = Z.to_nat (processCount s))) as [->|Hne].
    + rewrite list_lookup_insert_eq by lia. intros [= <-]. simpl. lia.
    + rewrite list_lookup_insert_ne by auto. apply wf_proc_tids0. lia.
Qed.

Lemma exec_frame_wf s s' : exec_frame s s' -> wf s -> wf s'.
Proof.
  intros [] []. split.
  - rewrite (slots_related_length _ _ _ fr_accounts0). assumption.
  - rewrite (slots_related_length _ _ _ fr_processes0). assumption.
  - lia.
  - lia.
  - lia.
  - lia.
  - intros j a' Hj Ha'. rewrite fr_acc_count0 in Hj.
    specialize (fr_accounts0 j). rewrite Ha' in fr_accounts0.
    destruct (accounts s !! j) as [a|] eqn:Ea; [|contradiction].
    destruct fr_accounts0 as (-> & _ & ->). eauto.
  - intros i p' Hi Hp'. rewrite fr_proc_count0 in Hi.
    specialize (fr_processes0 i). rewrite Hp' in fr_processes0.
    destruct (processes s !! i) as [p|] eqn:Ep; [|contradiction].
    destruct fr_processes0 as (-> & _). eauto.
Qed.

Lemma step_wf s op : wf s -> wf (step_state s op).
Proof.
  intros W. unfold step_state, step. destruct op as [cid b|a ty amt|t|a|].
  - pose proof (createAccount_wf s cid b W) as H.
    destruct (createAccount s cid b) as [[r s'] o]. exact H.
  - pose proof (createProcess_wf s a ty amt W) as H.
    destruct (createProcess s a ty amt) as [[r s'] o]. exact H.
  - pose proof (executeProcess_frame s t) as H.
    destruct (executeProcess s t) as [s' o]. simpl in *. eauto using exec_frame_wf.
  - destruct (checkBalance s a). exact W.
  - exact W.
Qed.

Lemma reachable_wf s : reachable s -> wf s.
Proof. induction 1; auto using init_wf, step_wf. Qed.

Lemma run_wf s ops : wf s -> wf (run s ops).
Proof. revert s. induction ops as [|op ops IH]; simpl; auto using step_wf. Qed.

Lemma run_reachable s ops : reachable s -> reachable (run s ops).
Proof. revert s. induction ops as [|op ops IH]; simpl; auto using reach_step. Qed.

(** The id counters stay within [int]: the wrap of [x++] never acts. *)
Lemma counters_in_range s :
  reachable s ->
  1 <= nextAccountId s <= MAX_ACCOUNTS + 1 /\
  1 <= nextTransactionId s <= MAX_PROCESSES + 1.
Proof. intros R. destruct (reachable_wf s R). lia. Qed.

(** ** Balances stay non-negative (C1) *)

Lemma set_status_balances s i proc st :
  balances_nonneg s -> balances_nonneg (set_status s i proc st).
Proof. intros H. exact H. Qed.

Lemma set_balance_balances s j acc b :
  (0 <=? b)%float = true -> balances_nonneg s -> balances_nonneg (set_balance s j acc b).
Proof.
  intros Hb H k a Hk. simpl in *.
  destruct (decide (k = j)) as [->|Hne].
  - destruct (accounts s !! j) as [a0|] eqn:Ea.
    + rewrite list_lookup_insert_eq by (eapply lookup_lt_Some; eauto).
      intros [= <-]. exact Hb.
    + rewrite list_insert_ge by (apply lookup_ge_None; exact Ea).
      rewrite Ea. discriminate.
  - rewrite list_lookup_insert_ne by auto. apply H. exact Hk.
Qed.

Lemma executeProcess_balances s t :
  balances_nonneg s -> amounts_finite s -> balances_nonneg (fst (executeProcess s t)).
Proof.
  intros HB HA.
  exec_cases s t; simpl fst; auto using set_status_balances.
  - apply findProcess_Some in Hp. destruct Hp as (Hp & _ & Hi).
    apply findAccount_Some in Ha. destruct Ha as (Ha & _ & _ & Hj).
    apply set_status_balances, set_balance_balances; auto.
    apply Double.add_nonneg; eauto.
  - apply findProcess_Some in Hp. destruct Hp as (Hp & _ & Hi).
    apply findAccount_Some in Ha. destruct Ha as (Ha & _ & _ & Hj).
    apply set_status_balances, set_balance_balances; auto.
    apply Double.sub_nonneg; eauto.
Qed.

Lemma executeProcess_amounts s t :
  amounts_finite s -> amounts_finite (fst (executeProcess s t)).
Proof.
  intros HA i p' Hi Hp'. destruct (executeProcess_frame s t) as [].
  rewrite fr_proc_count0 in Hi. specialize (fr_processes0 i). rewrite Hp' in fr_processes0.
  destruct (processes s !! i) as [p|] eqn:Ep; [|contradiction].
  destruct fr_processes0 as (_ & _ & _ & ->). eauto.
Qed.

Lemma createAccount_balances s cid b :
  wf s -> is_nan b = false -> balances_nonneg s ->
  balances_nonneg (snd (fst (createAccount s cid b))).
Proof.
  intros W Hn HB. unfold createAccount.
  destruct (Z.geb_spec (accountCount s) MAX_ACCOUNTS) as [Hge|Hlt]; [exact HB|].
  destruct (b <? 0)%float eqn:Hb; [exact HB|]. simpl.
  destruct W. unfold MAX_ACCOUNTS in *.
  intros j a Hj. simpl in *.
  destruct (decide (j = Z.to_nat (accountCount s))) as [->|Hne].
  - rewrite list_lookup_insert_eq by lia. intros [= <-]. simpl.
    apply Double.not_lt0_nonneg; assumption.
  - rewrite list_lookup_insert_ne by auto. apply HB. lia.
Qed.

Lemma createProcess_amounts s a ty amt :
  wf s -> is_finite amt = true -> amounts_finite s ->
  amounts_finite (snd (fst (createProcess s a ty amt))).
Proof.
  intros W Hf HA. unfold createProcess.
  destruct (Z.geb_spec (processCount s) MAX_PROCESSES) as [Hge|Hlt]; [exact HA|].
  simpl. destruct W. unfold MAX_PROCESSES in *.
  intros i p Hi. simpl in *.
  destruct (decide (i = Z.to_nat (processCount s))) as [->|Hne].
  - rewrite list_lookup_insert_eq by lia. intros [= <-]. exact Hf.
  - rewrite list_lookup_insert_ne by auto. apply HA. lia.
Qed.

Lemma createAccount_processes s cid b :
  processes (snd (fst (createAccount s cid b))) = processes s /\
  processCount (snd (fst (createAccount s cid b))) = processCount s.
Proof.
  unfold createAccount. destruct (_ >=? _); [auto|]. destruct (_ <? _)%float; auto.
Qed.

Lemma createProcess_accounts s a ty amt :
  accounts (snd (fst (createProcess s a ty amt))) = accounts s /\
  accountCount (snd (fst (createProcess s a ty amt))) = accountCount s.
Proof. unfold createProcess. destruct (_ >=? _); auto. Qed.

Lemma step_balances s op :
  wf s -> regular_op op = true ->
  balances_nonneg s /\ amounts_finite s ->
  balances_nonneg (step_state s op) /\ amounts_finite (step_state s op).
Proof.
  intros W Hop [HB HA]. unfold step_state, step.
  destruct op as [cid b|a ty amt|t|a|]; simpl in Hop.
  - apply negb_true_iff in Hop.
    pose proof (createAccount_balances s cid b W Hop HB) as H1.
    pose proof (createAccount_processes s cid b) as [H2 H3].
    destruct (createAccount s cid b) as [[r s'] o]. simpl in *.
    split; [exact H1|]. unfold amounts_finite. rewrite H2, H3. exact HA.
  - pose proof (createProcess_amounts s a ty amt W Hop HA) as H1.
    pose proof (createProcess_accounts s a ty amt) as [H2 H3].
    destruct (createProcess s a ty amt) as [[r s'] o]. simpl in *.
    split; [|exact H1]. unfold balances_nonneg. rewrite H2, H3. exact HB.
  - pose proof (executeProcess_balances s t HB HA) as H1.
    pose proof (executeProcess_amounts s t HA) as H2.
    destruct (executeProcess s t) as [s' o]. simpl in *. auto.
  - destruct (checkBalance s a). simpl. auto.
  - simpl. auto.
Qed.

Lemma run_balances s ops :
  wf s -> forallb regular_op ops = true ->
  balances_nonneg s /\ amounts_finite s ->
  balances_nonneg (run s ops) /\ amounts_finite (run s ops).
Proof.
  revert s. induction ops as [|op ops IH]; intros s W Hops H; simpl; [exact H|].
  simpl in Hops. apply andb_true_iff in Hops. destruct Hops as [Hop Hops].
  apply IH; auto using step_wf, step_balances.
Qed.

(** C1, as amended: from its construction on, and as long as no NaN comes in
    as an initial balance and no NaN or infinity as a transaction amount,
    every account created so far has [balance >= 0] after every operation
    ([createAccount], [createProcess], [executeProcess], [checkBalance]). *)
Theorem balance_never_negative accs0 procs0 ops :
  Z.of_nat (length accs0) = MAX_ACCOUNTS ->
  Z.of_nat (length procs0) = MAX_PROCESSES ->
  forallb regular_op ops = true ->
  balances_nonneg (run (init accs0 procs0) ops).
Proof.
  intros Ha Hp Hops.
  apply (run_balances (init accs0 procs0) ops); auto using init_wf.
  split; intros k x Hk; simpl in Hk; lia.
Qed.

Lemma balance_never_negative_witness :
  balances_nonneg
    (run bank0 [CreateAccount "alice" 100%float; CreateProcess 1 "Withdraw" 30%float;
                ExecuteProcess 1; CheckBalance 1]).
Proof.
  apply (balance_never_negative (repeat blank_account 1000) (repeat blank_process 100));
    reflexivity.
Defined.

(** C1 as stated fails: [NaN < 0] is false, so [createAccount] stores an
    account whose balance is NaN, and [balance >= 0] does not hold of it. *)
Lemma balance_negative_counterexample :
  let s := run bank0 [CreateAccount "alice" nan] in
  accountCount s = 1 /\
  exists a, accounts s !! 0%nat = Some a /\ (0 <=? balance a)%float = false.
Proof.
  split; [reflexivity|]. eexists. split; reflexivity.
Qed.

(** An infinite amount breaks the invariant as well: an account holding
    +infinity passes both guards of a withdrawal of +infinity, and the
    difference is NaN. *)
Example infinite_withdrawal_gives_nan :
  let s := run bank0 [CreateAccount "alice" 0%float;
                      CreateProcess 1 "Deposit" infinity; ExecuteProcess 1;
                      CreateProcess 1 "Withdraw" infinity; ExecuteProcess 2] in
  status_at s 1 = Some "Completed" /\
  exists a, accounts s !! 0%nat = Some a /\ (0 <=? balance a)%float = false.
Proof.
  split; [reflexivity|]. eexists. split; reflexivity.
Qed.

(** ** What one execution does (C2, C3, C8) *)

Lemma status_at_set_status s i proc st :
  processes s !! i = Some proc ->
  processes (set_status s i proc st) !! i
  = Some (mkProcess (tid proc) (aid proc) (type proc) (amount proc) st).
Proof.
  intros H. simpl. apply list_lookup_insert_eq. eapply lookup_lt_Some; eauto.
Qed.

Lemma account_at_set_balance s j acc b :
  accounts s !! j = Some acc ->
  accounts (set_balance s j acc b) !! j
  = Some (mkAccount (id acc) (customerId acc) b (active acc)).
Proof.
  intros H. simpl. apply list_lookup_insert_eq. eapply lookup_lt_Some; eauto.
Qed.

Lemma executeProcess_found s t i proc :
  findProcess s t = Some (i, proc) ->
  executeProcess s t =
  match findAccount s (aid proc) with
  | None => (set_status s i proc "Failed", [ErrAccountNotFound t])
  | Some (j, acc) =>
      if String.eqb (type proc) "Deposit" then
        if (amount proc <=? 0)%float
        then (set_status s i proc "Failed", [ErrInvalidDeposit])
        else
          (set_status (set_balance s j acc (balance acc + amount proc)%float) i proc "Completed",
           [DepositSuccessful t (balance acc + amount proc)%float])
      else if String.eqb (type proc) "Withdraw" then
        if (amount proc <=? 0)%float || (balance acc <? amount proc)%float
        then (set_status s i proc "Failed", [ErrInsufficientOrInvalid])
        else
          (set_status (set_balance s j acc (balance acc - amount proc)%float) i proc "Completed",
           [WithdrawalSuccessful t (balance acc - amount proc)%float])
      else (set_status s i proc "Failed", [ErrUnknownType])
  end.
Proof. intros H. unfold executeProcess. unfold findProcess in H. rewrite H. reflexivity. Qed.

(** The Withdraw branch, once the two lookups of [executeProcess] have
    returned slot [i] and slot [j]. *)
Lemma withdraw_found s t i proc j acc :
  findProcess s t = Some (i, proc) ->
  type proc = "Withdraw" ->
  findAccount s (aid proc) = Some (j, acc) ->
  let a := amount proc in
  let b := balance acc in
  let s' := fst (executeProcess s t) in
  ((0 <? a)%float = true -> (a <=? b)%float = true ->
   balance_at s' j = Some (b - a)%float /\ status_at s' i = Some "Completed") /\
  ((b <? a)%float = true \/ (a <=? 0)%float = true ->
   accounts s' = accounts s /\ balance_at s' j = Some b /\
   status_at s' i = Some "Failed" /\
   snd (executeProcess s t) = [ErrInsufficientOrInvalid]).
Proof.
  intros Hp Hty Ha a b s'. subst s'.
  rewrite (executeProcess_found s t i proc Hp), Ha, Hty.
  change (String.eqb "Withdraw" "Deposit") with false.
  change (String.eqb "Withdraw" "Withdraw") with true. cbv iota.
  apply findProcess_Some in Hp. destruct Hp as (Hp & _).
  apply findAccount_Some in Ha. destruct Ha as (Ha & _).
  fold a b. split.
  - intros H0 Hab.
    rewrite (Double.lt0_not_le0 a H0), (Double.le_not_gt a b Hab). simpl fst.
    unfold balance_at, status_at.
    rewrite status_at_set_status by exact Hp.
    change (accounts (set_status (set_balance s j acc (b - a)%float) i proc "Completed"))
      with (accounts (set_balance s j acc (b - a)%float)).
    rewrite account_at_set_balance by exact Ha. split; reflexivity.
  - intros H.
    assert ((a <=? 0)%float || (b <? a)%float = true) as ->.
    { apply orb_true_iff. tauto. }
    simpl fst. simpl snd. unfold balance_at, status_at.
    rewrite status_at_set_status by exact Hp. simpl accounts. rewrite Ha.
    repeat split; reflexivity.
Qed.

Lemma executeProcess_deposit s t i proc j acc :
  findProcess s t = Some (i, proc) ->
  type proc = "Deposit" ->
  findAccount s (aid proc) = Some (j, acc) ->
  (0 <? amount proc)%float = true ->
  let s' := fst (executeProcess s t) in
  balance_at s' j = Some (balance acc + amount proc)%float /\
  status_at s' i = Some "Completed".
Proof.
  intros Hp Hty Ha H0 s'. subst s'.
  rewrite (executeProcess_found s t i proc Hp), Ha, Hty.
  change (String.eqb "Deposit" "Deposit") with true. cbv iota.
  apply findProcess_Some in Hp. destruct Hp as (Hp & _).
  apply findAccount_Some in Ha. destruct Ha as (Ha & _).
  rewrite (Double.lt0_not_le0 _ H0). simpl fst.
  unfold balance_at, status_at.
  rewrite status_at_set_status by exact Hp.
  change (accounts (set_status (set_balance s j acc (balance acc + amount proc)%float)
                               i proc "Completed"))
    with (accounts (set_balance s j acc (balance acc + amount proc)%float)).
  rewrite account_at_set_balance by exact Ha. split; reflexivity.
Qed.

(** The Deposit branch, once the two lookups of [executeProcess] have
    returned slot [i] and slot [j]. *)
Lemma deposit_found s t i proc j acc :
  findProcess s t = Some (i, proc) ->
  type proc = "Deposit" ->
  findAccount s (aid proc) = Some (j, acc) ->
  let a := amount proc in
  let b := balance acc in
  let s' := fst (executeProcess s t) in
  ((0 <? a)%float = true ->
   balance_at s' j = Some (b + a)%float /\ status_at s' i = Some "Completed") /\
  ((a <=? 0)%float = true ->
   accounts s' = accounts s /\ balance_at s' j = Some b /\
   status_at s' i = Some "Failed" /\
   snd (executeProcess s t) = [ErrInvalidDeposit]).
Proof.
  intros Hp Hty Ha a b s'. split.
  - intros H0. exact (executeProcess_deposit s t i proc j acc Hp Hty Ha H0).
  - subst s'. rewrite (executeProcess_found s t i proc Hp), Ha, Hty.
    change (String.eqb "Deposit" "Deposit") with true. cbv iota.
    apply findProcess_Some in Hp. destruct Hp as (Hp & _).
    apply findAccount_Some in Ha. destruct Ha as (Ha & _).
    fold a b. intros ->. simpl fst. simpl snd. unfold balance_at, status_at.
    rewrite status_at_set_status by exact Hp. simpl accounts. rewrite Ha.
    repeat split; reflexivity.
Qed.

(** [findAccount] returns null on an id that no active account
    among the first [accountCount] carries. *)
Lemma findAccount_None s a :
  (forall j acc, (j < Z.to_nat (accountCount s))%nat -> accounts s !! j = Some acc ->
                 active acc = true -> id acc <> a) ->
  findAccount s a = None.
Proof.
  intros H. apply scan_None. intros j acc Hj Hacc.
  destruct (active acc) eqn:Eact; [|reflexivity]. simpl.
  apply Z.eqb_neq. apply (H j acc); auto. lia.
Qed.

(** C8: a stored transaction whose [aid] is the id of no active account
    among those created.  [executeProcess] sets its status to Failed, writes
    "Account not found", and leaves the whole account array as it was. *)
Theorem execute_without_account s t i proc :
  findProcess s t = Some (i, proc) ->
  (forall j acc, (j < Z.to_nat (accountCount s))%nat -> accounts s !! j = Some acc ->
                 active acc = true -> id acc <> aid proc) ->
  let s' := fst (executeProcess s t) in
  status_at s' i = Some "Failed" /\
  snd (executeProcess s t) = [ErrAccountNotFound t] /\
  accounts s' = accounts s /\
  (forall j, balance_at s' j = balance_at s j).
Proof.
  intros Hp Hno s'. subst s'.
  rewrite (executeProcess_found s t i proc Hp), (findAccount_None s (aid proc) Hno).
  apply findProcess_Some in Hp. destruct Hp as (Hp & _).
  simpl fst. simpl snd. unfold status_at.
  rewrite status_at_set_status by exact Hp. repeat split; reflexivity.
Qed.

Lemma execute_without_account_witness :
  let s := run bank0 [CreateAccount "alice" 100%float;
                      CreateProcess 7 "Deposit" 50%float] in
  status_at (fst (executeProcess s 1)) 0 = Some "Failed" /\
  snd (executeProcess s 1) = [ErrAccountNotFound 1] /\
  accounts (fst (executeProcess s 1)) = accounts s /\
  (forall j, balance_at (fst (executeProcess s 1)) j = balance_at s j).
Proof.
  intros s.
  apply (execute_without_account s 1 0 (mkProcess 1 7 "Deposit" 50%float "Pending") eq_refl).
  intros j acc Hj. change (Z.to_nat (accountCount s)) with 1%nat in Hj.
  assert (j = 0%nat) as -> by lia.
  intros [= <-] _. discriminate.
Defined.

(** ** The footprint of [executeProcess] (C10) *)

Lemma set_status_other s i proc st k :
  k <> i -> processes (set_status s i proc st) !! k = processes s !! k.
Proof. intros H. simpl. apply list_lookup_insert_ne. auto. Qed.

Lemma set_balance_other s j acc b k :
  k <> j -> accounts (set_balance s j acc b) !! k = accounts s !! k.
Proof. intros H. simpl. apply list_lookup_insert_ne. auto. Qed.

(** C10: [executeProcess s t] keeps both counts and both id counters.  When
    no stored transaction has id [t] the state is unchanged.  Otherwise, with
    [i] the slot of that transaction: every other process slot is unchanged
    and slot [i] keeps its tid, aid, type and amount; when its account is not
    resolved the account array is unchanged, and when it is resolved to slot
    [j] every other account slot is unchanged and slot [j] keeps its id,
    customer id and active flag. *)
Theorem executeProcess_footprint s t :
  let s' := fst (executeProcess s t) in
  accountCount s' = accountCount s /\ processCount s' = processCount s /\
  nextAccountId s' = nextAccountId s /\ nextTransactionId s' = nextTransactionId s /\
  match findProcess s t with
  | None => s' = s
  | Some (i, proc) =>
      (forall k, k <> i -> processes s' !! k = processes s !! k) /\
      (exists st, processes s' !! i
                  = Some (mkProcess (tid proc) (aid proc) (type proc) (amount proc) st)) /\
      match findAccount s (aid proc) with
      | None => accounts s' = accounts s
      | Some (j, acc) =>
          (forall k, k <> j -> accounts s' !! k = accounts s !! k) /\
          (exists b, accounts s' !! j
                     = Some (mkAccount (id acc) (customerId acc) b (active acc)))
      end
  end.
Proof.
  intros s'. subst s'.
  destruct (executeProcess_frame s t) as [H1 H2 H3 H4 _ _].
  repeat (split; [assumption|]). clear H1 H2 H3 H4.
  destruct (findProcess s t) as [[i proc]|] eqn:Hp.
  2:{ unfold executeProcess. unfold findProcess in Hp. rewrite Hp. reflexivity. }
  rewrite (executeProcess_found s t i proc Hp).
  apply findProcess_Some in Hp. destruct Hp as (Hp & _).
  destruct (findAccount s (aid proc)) as [[j acc]|] eqn:Ha.
  2:{ simpl fst. split; [intros k Hk; apply set_status_other; exact Hk|].
      split; [|reflexivity]. eexists. apply status_at_set_status. exact Hp. }
  apply findAccount_Some in Ha. destruct Ha as (Ha & _).
  assert (forall st,
    (forall k, k <> i -> processes (set_status s i proc st) !! k = processes s !! k) /\
    (exists st', processes (set_status s i proc st) !! i
       = Some (mkProcess (tid proc) (aid proc) (type proc) (amount proc) st')) /\
    (forall k, k <> j -> accounts (set_status s i proc st) !! k = accounts s !! k) /\
    (exists b, accounts (set_status s i proc st) !! j
       = Some (mkAccount (id acc) (customerId acc) b (active acc)))) as Hfail.
  { intros st. split; [intros k Hk; apply set_status_other; exact Hk|].
    split; [eexists; apply status_at_set_status; exact Hp|].
    split; [reflexivity|]. exists (balance acc). simpl. rewrite Ha. destruct acc; reflexivity. }
  assert (forall b st,
    (forall k, k <> i ->
       processes (set_status (set_balance s j acc b) i proc st) !! k = processes s !! k) /\
    (exists st', processes (set_status (set_balance s j acc b) i proc st) !! i
       = Some (mkProcess (tid proc) (aid proc) (type proc) (amount proc) st')) /\
    (forall k, k <> j ->
       accounts (set_status (set_balance s j acc b) i proc st) !! k = accounts s !! k) /\
    (exists b', accounts (set_status (set_balance s j acc b) i proc st) !! j
       = Some (mkAccount (id acc) (customerId acc) b' (active acc)))) as Hdone.
  { intros b st. split; [intros k Hk; rewrite set_status_other by exact Hk; reflexivity|].
    split; [eexists; apply status_at_set_status; exact Hp|].
    split; [intros k Hk; apply (set_balance_other s j acc b k Hk)|].
    exists b. apply (account_at_set_balance s j acc b Ha). }
  destruct (String.eqb (type proc) "Deposit").
  - destruct (amount proc <=? 0)%float; simpl fst; [apply Hfail|apply Hdone].
  - destruct (String.eqb (type proc) "Withdraw"); [|apply Hfail].
    destruct ((amount proc <=? 0)%float || (balance acc <? amount proc)%float);
      simpl fst; [apply Hfail|apply Hdone].
Qed.

(** ** Who changes a transaction's status (C4) *)

(** In a reachable state the transaction in slot [i] is the one that
    [executeProcess] finds for its tid. *)
Lemma findProcess_slot s i proc :
  wf s -> (i < Z.to_nat (processCount s))%nat -> processes s !! i = Some proc ->
  findProcess s (tid proc) = Some (i, proc).
Proof.
  intros W Hi Hp. destruct W. unfold MAX_PROCESSES in *.
  apply scan_first; auto; try lia.
  - intros k q Hk Hq. apply Z.eqb_neq.
    rewrite (wf_proc_tids0 k q), (wf_proc_tids0 i proc) by (auto; lia). lia.
  - intros k Hk. apply lookup_lt_is_Some_2. lia.
Qed.

Lemma executeProcess_other_slot s t i proc :
  processes s !! i = Some proc -> tid proc <> t ->
  processes (fst (executeProcess s t)) !! i = Some proc.
Proof.
  intros Hp Hne.
  destruct (executeProcess_outcome s t)
    as [Hf|i' proc' Hf Ha|i' proc' j acc o Hf Ha|i' proc' j acc Hf Ha Ht Hle
       |i' proc' j acc Hf Ha Ht Hle Hlt]; simpl fst; [exact Hp|..];
    apply findProcess_Some in Hf; destruct Hf as (Hp' & Ht' & _);
    (assert (i <> i') as Hii by (intros ->; congruence));
    simpl; rewrite list_lookup_insert_ne by auto; exact Hp.
Qed.

Lemma executeProcess_status_terminal s t i proc :
  findProcess s t = Some (i, proc) ->
  exists st, (st = "Completed" \/ st = "Failed") /\
    processes (fst (executeProcess s t)) !! i
    = Some (mkProcess (tid proc) (aid proc) (type proc) (amount proc) st).
Proof.
  intros Hf.
  destruct (executeProcess_outcome s t)
    as [Hp|i' proc' Hp Ha|i' proc' j acc o Hp Ha|i' proc' j acc Hp Ha Ht Hle
       |i' proc' j acc Hp Ha Ht Hle Hlt];
    rewrite Hf in Hp; try discriminate; injection Hp as <- <-;
    apply findProcess_Some in Hf; destruct Hf as (Hf & _); simpl fst.
  - exists "Failed". split; [auto|]. apply status_at_set_status; exact Hf.
  - exists "Failed". split; [auto|]. apply status_at_set_status; exact Hf.
  - exists "Completed". split; [auto|].
    apply (status_at_set_status (set_balance s j acc _) i proc "Completed" Hf).
  - exists "Completed". split; [auto|].
    apply (status_at_set_status (set_balance s j acc _) i proc "Completed" Hf).
Qed.

(** C4, as amended: the record of a stored transaction, its status
    included, is changed by no operation other than [executeProcess] called
    with that transaction's own id; and every such call leaves the status
    Completed or Failed, the other fields unchanged.  The call does not look
    at the status it finds: it runs the checks and the balance update anew. *)
Theorem status_changed_only_by_own_execution s op i proc :
  reachable s ->
  (i < Z.to_nat (processCount s))%nat ->
  processes s !! i = Some proc ->
  (op <> ExecuteProcess (tid proc) -> processes (step_state s op) !! i = Some proc) /\
  (op = ExecuteProcess (tid proc) ->
   exists st, (st = "Completed" \/ st = "Failed") /\
     processes (step_state s op) !! i
     = Some (mkProcess (tid proc) (aid proc) (type proc) (amount proc) st)).
Proof.
  intros R Hi Hp. apply reachable_wf in R. split.
  - intros Hop. unfold step_state, step. destruct op as [cid b|a ty amt|t|a|].
    + pose proof (createAccount_processes s cid b) as [H _].
      destruct (createAccount s cid b) as [[r s'] o]. simpl in *. rewrite H. exact Hp.
    + unfold createProcess. destruct (_ >=? _); simpl; [exact Hp|].
      rewrite list_lookup_insert_ne by lia. exact Hp.
    + pose proof (executeProcess_other_slot s t i proc Hp) as H.
      destruct (executeProcess s t) as [s' o]. simpl in *. apply H. congruence.
    + destruct (checkBalance s a). exact Hp.
    + exact Hp.
  - intros ->. unfold step_state, step.
    pose proof (executeProcess_status_terminal s (tid proc) i proc
                  (findProcess_slot s i proc R Hi Hp)) as H.
    destruct (executeProcess s (tid proc)) as [s' o]. exact H.
Qed.

Lemma status_changed_only_by_own_execution_witness :
  let s := run bank0 [CreateAccount "alice" 100%float;
                      CreateProcess 1 "Deposit" 50%float] in
  let proc := mkProcess 1 1 "Deposit" 50%float "Pending" in
  processes (step_state s (CreateProcess 1 "Withdraw" 5%float)) !! 0%nat = Some proc /\
  exists st, (st = "Completed" \/ st = "Failed") /\
    processes (step_state s (ExecuteProcess 1)) !! 0%nat
    = Some (mkProcess 1 1 "Deposit" 50%float st).
Proof.
  intros s proc.
  assert (reachable s) as R.
  { apply run_reachable. apply reach_init; reflexivity. }
  split.
  - apply (proj1 (status_changed_only_by_own_execution
                    s (CreateProcess 1 "Withdraw" 5%float) 0 proc R
                    ltac:(vm_compute; lia) eq_refl)).
    discriminate.
  - apply (proj2 (status_changed_only_by_own_execution
                    s (ExecuteProcess 1) 0 proc R ltac:(vm_compute; lia) eq_refl)).
    reflexivity.
Defined.

(** C4 as stated fails: nothing stops a second [executeProcess] on the same
    id.  A Completed deposit of 50 is applied again (150 becomes 200), and a
    withdrawal that Failed for lack of funds becomes Completed once the
    funds are there. *)
Lemma reexecution_counterexample :
  (let s1 := run bank0 [CreateAccount "alice" 100%float;
                        CreateProcess 1 "Deposit" 50%float; ExecuteProcess 1] in
   let s2 := run s1 [ExecuteProcess 1] in
   status_at s1 0 = Some "Completed" /\ balance_at s1 0 = Some 150%float /\
   balance_at s2 0 = Some 200%float) /\
  (let s1 := run bank0 [CreateAccount "bob" 100%float;
                        CreateProcess 1 "Withdraw" 200%float; ExecuteProcess 1;
                        CreateProcess 1 "Deposit" 150%float; ExecuteProcess 2] in
   let s2 := run s1 [ExecuteProcess 1] in
   status_at s1 0 = Some "Failed" /\ balance_at s1 0 = Some 250%float /\
   status_at s2 0 = Some "Completed" /\ balance_at s2 0 = Some 50%float).
Proof. repeat split; reflexivity. Qed.

(** ** Ids handed out (C5) *)

Lemma step_new_account_id s op :
  wf s ->
  match new_account_id (op, step_value s op) with
  | Some z => z = nextAccountId s /\ nextAccountId (step_state s op) = z + 1
  | None => nextAccountId (step_state s op) = nextAccountId s
  end.
Proof.
  intros W. unfold step_value, step_state, step. destruct op as [cid b|a ty amt|t|a|].
  - unfold createAccount. destruct (Z.geb_spec (accountCount s) MAX_ACCOUNTS); simpl; auto.
    destruct (b <? 0)%float; simpl; auto.
    destruct W. unfold MAX_ACCOUNTS in *.
    destruct (Z.eqb_spec (nextAccountId s) (-1)); [lia|].
    split; [reflexivity|]. apply int_wrap_small. lia.
  - destruct (createProcess_wf s a ty amt W) as [_ _ _ _ H _ _ _].
    pose proof (createProcess_accounts s a ty amt) as [_ H'].
    destruct W. destruct (createProcess s a ty amt) as [[r s'] o]. simpl in *. lia.
  - destruct (executeProcess_frame s t) as [_ _ H _ _ _].
    destruct (executeProcess s t) as [s' o]. exact H.
  - destruct (checkBalance s a). reflexivity.
  - reflexivity.
Qed.

Lemma step_new_transaction_id s op :
  wf s ->
  match new_transaction_id (op, step_value s op) with
  | Some z => z = nextTransactionId s /\ nextTransactionId (step_state s op) = z + 1
  | None => nextTransactionId (step_state s op) = nextTransactionId s
  end.
Proof.
  intros W. unfold step_value, step_state, step. destruct op as [cid b|a ty amt|t|a|].
  - destruct (createAccount_wf s cid b W) as [_ _ _ _ _ H _ _].
    pose proof (createAccount_processes s cid b) as [_ H'].
    destruct W. destruct (createAccount s cid b) as [[r s'] o]. simpl in *. lia.
  - unfold createProcess. destruct (Z.geb_spec (processCount s) MAX_PROCESSES); simpl; auto.
    destruct W. unfold MAX_PROCESSES in *.
    destruct (Z.eqb_spec (nextTransactionId s) (-1)); [lia|].
    split; [reflexivity|]. apply int_wrap_small. lia.
  - destruct (executeProcess_frame s t) as [_ _ _ H _ _].
    destruct (executeProcess s t) as [s' o]. exact H.
  - destruct (checkBalance s a). reflexivity.
  - reflexivity.
Qed.

Lemma omap_step {A B : Type} (f : A -> option B) (x : A) (l : list A) :
  omap f (x :: l) = match f x with Some y => y :: omap f l | None => omap f l end.
Proof. reflexivity. Qed.

Lemma account_ids_sorted s ops :
  wf s ->
  Forall (fun z => nextAccountId s <= z) (created_account_ids (returns s ops)) /\
  StronglySorted Z.lt (created_account_ids (returns s ops)).
Proof.
  revert s. induction ops as [|op ops IH]; intros s W; cbn [returns].
  - split; constructor.
  - destruct (IH (step_state s op) (step_wf s op W)) as [IH1 IH2].
    pose proof (step_new_account_id s op W) as H.
    unfold created_account_ids in *. rewrite omap_step.
    destruct (new_account_id (op, step_value s op)) as [z|].
    + destruct H as [-> H]. rewrite H in IH1. split.
      * constructor; [lia|]. eapply Forall_impl; [exact IH1|]. simpl. intros; lia.
      * constructor; [exact IH2|]. eapply Forall_impl; [exact IH1|]. simpl. intros; lia.
    + rewrite H in IH1. auto.
Qed.

Lemma transaction_ids_sorted s ops :
  wf s ->
  Forall (fun z => nextTransactionId s <= z) (created_transaction_ids (returns s ops)) /\
  StronglySorted Z.lt (created_transaction_ids (returns s ops)).
Proof.
  revert s. induction ops as [|op ops IH]; intros s W; cbn [returns].
  - split; constructor.
  - destruct (IH (step_state s op) (step_wf s op W)) as [IH1 IH2].
    pose proof (step_new_transaction_id s op W) as H.
    unfold created_transaction_ids in *. rewrite omap_step.
    destruct (new_transaction_id (op, step_value s op)) as [z|].
    + destruct H as [-> H]. rewrite H in IH1. split.
      * constructor; [lia|]. eapply Forall_impl; [exact IH1|]. simpl. intros; lia.
      * constructor; [exact IH2|]. eapply Forall_impl; [exact IH1|]. simpl. intros; lia.
    + rewrite H in IH1. auto.
Qed.

Lemma sorted_lt_NoDup (l : list Z) : StronglySorted Z.lt l -> NoDup l.
Proof.
  induction 1 as [|z l Hs IH Hall]; constructor; auto.
  intros Hin. rewrite Forall_forall in Hall. specialize (Hall z Hin). lia.
Qed.

(** C5: over any run of one [BankSystem] from its construction, the account
    ids returned by the successful [createAccount] calls are strictly
    increasing in call order, hence pairwise distinct; likewise the
    transaction ids returned by the successful [createProcess] calls. *)
Theorem ids_strictly_increasing accs0 procs0 ops :
  Z.of_nat (length accs0) = MAX_ACCOUNTS ->
  Z.of_nat (length procs0) = MAX_PROCESSES ->
  let rs := returns (init accs0 procs0) ops in
  StronglySorted Z.lt (created_account_ids rs) /\ NoDup (created_account_ids rs) /\
  StronglySorted Z.lt (created_transaction_ids rs) /\ NoDup (created_transaction_ids rs).
Proof.
  intros Ha Hp rs. subst rs.
  pose proof (init_wf accs0 procs0 Ha Hp) as W.
  destruct (account_ids_sorted _ ops W) as [_ H1].
  destruct (transaction_ids_sorted _ ops W) as [_ H2].
  auto using sorted_lt_NoDup.
Qed.

Lemma ids_strictly_increasing_witness :
  let rs := returns bank0 [CreateAccount "alice" 100%float; CreateAccount "bad" (-5)%float;
                           CreateProcess 1 "Deposit" 50%float; CreateAccount "bob" 0%float;
                           CreateProcess 9 "Withdraw" 1%float] in
  created_account_ids rs = [1; 2] /\ created_transaction_ids rs = [1; 2] /\
  StronglySorted Z.lt (created_account_ids rs) /\ NoDup (created_account_ids rs) /\
  StronglySorted Z.lt (created_transaction_ids rs) /\ NoDup (created_transaction_ids rs).
Proof.
  intros rs. split; [reflexivity|]. split; [reflexivity|].
  apply (ids_strictly_increasing (repeat blank_account 1000) (repeat blank_process 100));
    reflexivity.
Defined.

(** ** Rejected and accepted creations (C6, C7) *)

(** C6, as amended: [createAccount] with [initialBalance < 0] returns -1 and
    leaves the state as it was, so that the next creation behaves as if the
    call had not been made; the line it writes is "Initial balance cannot be
    negative" when fewer than [MAX_ACCOUNTS] accounts exist, and "Maximum
    account limit reached" otherwise. *)
Theorem createAccount_negative_balance s cid b :
  (b <? 0)%float = true ->
  createAccount s cid b
  = (-1, s, [if accountCount s >=? MAX_ACCOUNTS then ErrMaxAccounts
             else ErrNegativeInitialBalance]) /\
  forall cid' b', createAccount (snd (fst (createAccount s cid b))) cid' b'
                  = createAccount s cid' b'.
Proof.
  intros Hb. unfold createAccount at 1 3. rewrite Hb.
  destruct (accountCount s >=? MAX_ACCOUNTS); split; reflexivity.
Qed.

Lemma createAccount_negative_balance_witness :
  createAccount bank0 "alice" (-5)%float = (-1, bank0, [ErrNegativeInitialBalance]) /\
  forall cid' b', createAccount (snd (fst (createAccount bank0 "alice" (-5)%float))) cid' b'
                  = createAccount bank0 cid' b'.
Proof.
  exact (createAccount_negative_balance bank0 "alice" (-5)%float eq_refl).
Defined.

(** C6 as stated fails on the error reported: the capacity check comes
    first, so a negative initial balance offered to a full bank is answered
    with "Maximum account limit reached". *)
Lemma createAccount_negative_full_counterexample :
  accountCount full_bank = MAX_ACCOUNTS /\
  (-5 <? 0)%float = true /\
  snd (createAccount full_bank "alice" (-5)%float) = [ErrMaxAccounts] /\
  snd (createAccount full_bank "alice" (-5)%float) <> [ErrNegativeInitialBalance].
Proof.
  assert (accountCount full_bank = MAX_ACCOUNTS) as H by (vm_compute; reflexivity).
  unfold createAccount. rewrite H. simpl. repeat split; auto.
Qed.

(** C7: [createProcess] checks nothing but the capacity.  Whatever the
    account id, the type string and the amount, with fewer than
    [MAX_PROCESSES] transactions stored it returns the next transaction id,
    which is one more than the number of transactions stored, and stores a
    process with that id, the arguments as given and status Pending in the
    next free slot; the accounts are not touched. *)
Theorem createProcess_no_validation s accountId ty amt :
  reachable s ->
  processCount s < MAX_PROCESSES ->
  let r := fst (fst (createProcess s accountId ty amt)) in
  let s' := snd (fst (createProcess s accountId ty amt)) in
  r = nextTransactionId s /\ r = processCount s + 1 /\ r <> -1 /\
  processes s' !! Z.to_nat (processCount s) = Some (mkProcess r accountId ty amt "Pending") /\
  processCount s' = processCount s + 1 /\
  nextTransactionId s' = r + 1 /\
  accounts s' = accounts s /\
  snd (createProcess s accountId ty amt) = [ProcessCreated r].
Proof.
  intros R Hlt r s'. subst r s'. apply reachable_wf in R. destruct R.
  unfold createProcess. destruct (Z.geb_spec (processCount s) MAX_PROCESSES); [lia|].
  unfold MAX_PROCESSES in *. simpl.
  repeat split; try lia.
  - apply list_lookup_insert_eq. lia.
  - apply int_wrap_small. lia.
Qed.

Lemma createProcess_no_validation_witness :
  let s := run bank0 [CreateAccount "alice" 100%float] in
  let r := fst (fst (createProcess s 42 "Refund" (-3)%float)) in
  let s' := snd (fst (createProcess s 42 "Refund" (-3)%float)) in
  r = nextTransactionId s /\ r = processCount s + 1 /\ r <> -1 /\
  processes s' !! Z.to_nat (processCount s)
  = Some (mkProcess r 42 "Refund" (-3)%float "Pending") /\
  processCount s' = processCount s + 1 /\
  nextTransactionId s' = r + 1 /\
  accounts s' = accounts s /\
  snd (createProcess s 42 "Refund" (-3)%float) = [ProcessCreated r].
Proof.
  intros s.
  apply (createProcess_no_validation s 42 "Refund" (-3)%float).
  - apply run_reachable. apply reach_init; reflexivity.
  - reflexivity.
Defined.

(** ** Deposits on one account, one after the other

    A family of stored Deposit transactions of one amount on one account,
    executed by calls of [executeProcess] in any order. *)

Lemma findAccount_frame s s' a j acc :
  exec_frame s s' -> findAccount s a = Some (j, acc) ->
  exists acc', accounts s' !! j = Some acc' /\ same_account acc acc' /\
               findAccount s' a = Some (j, acc').
Proof.
  intros [] H. unfold findAccount in *. rewrite fr_acc_count0.
  pose proof (scan_agree (fun x => active x && (id x =? a)) (accounts s) (accounts s')
                0 (Z.to_nat (accountCount s))) as Hag.
  rewrite H in Hag. destruct Hag as (acc' & H1 & H2).
  - intros k. specialize (fr_accounts0 k).
    destruct (accounts s !! k) as [x|], (accounts s' !! k) as [x'|]; try contradiction; auto.
    destruct fr_accounts0 as (E1 & _ & E2). simpl. rewrite E1, E2. reflexivity.
  - exists acc'. repeat split; auto.
    all: apply scan_Some in H; destruct H as (H & _);
      specialize (fr_accounts0 j); rewrite H, H1 in fr_accounts0; apply fr_accounts0.
Qed.

Lemma findProcess_frame s s' t i proc :
  exec_frame s s' -> findProcess s t = Some (i, proc) ->
  exists proc', processes s' !! i = Some proc' /\ same_process proc proc' /\
                findProcess s' t = Some (i, proc').
Proof.
  intros [] H. unfold findProcess in *. rewrite fr_proc_count0.
  pose proof (scan_agree (fun x => tid x =? t) (processes s) (processes s')
                0 (Z.to_nat (processCount s))) as Hag.
  rewrite H in Hag. destruct Hag as (proc' & H1 & H2).
  - intros k. specialize (fr_processes0 k).
    destruct (processes s !! k) as [x|], (processes s' !! k) as [x'|]; try contradiction; auto.
    destruct fr_processes0 as (E1 & _). simpl. rewrite E1. reflexivity.
  - exists proc'. repeat split; auto.
    all: apply scan_Some in H; destruct H as (H & _);
      specialize (fr_processes0 i); rewrite H, H1 in fr_processes0; apply fr_processes0.
Qed.

Lemma is_deposit_frame s s' accountId a t :
  exec_frame s s' -> is_deposit s accountId a t -> is_deposit s' accountId a t.
Proof.
  intros F (i & proc & Hp & Hty & Haid & Ham).
  destruct (findProcess_frame s s' t i proc F Hp) as (proc' & _ & (_ & E1 & E2 & E3) & Hp').
  exists i, proc'. repeat split; congruence.
Qed.

(** One deposit of the family: the account gains [a], the transaction is
    Completed, and the transactions completed before stay so. *)
Lemma deposit_step s accountId a j acc t :
  (0 <? a)%float = true ->
  findAccount s accountId = Some (j, acc) ->
  is_deposit s accountId a t ->
  let s' := fst (executeProcess s t) in
  (exists acc', findAccount s' accountId = Some (j, acc') /\
                balance acc' = (balance acc + a)%float) /\
  is_completed s' t /\
  (forall t', is_completed s t' -> is_completed s' t').
Proof.
  intros Ha Hacc (i & proc & Hp & Hty & Haid & Ham) s'.
  pose proof (executeProcess_frame s t) as F. fold s' in F.
  pose proof (executeProcess_deposit s t i proc j acc Hp Hty) as D.
  rewrite Haid, Ham in D. destruct (D Hacc Ha) as [Hb Hs]. fold s' in Hb, Hs. clear D.
  split; [|split].
  - destruct (findAccount_frame s s' accountId j acc F Hacc) as (acc' & H1 & _ & H2).
    exists acc'. split; [exact H2|].
    unfold balance_at in Hb. rewrite H1 in Hb. simpl in Hb. congruence.
  - destruct (findProcess_frame s s' t i proc F Hp) as (proc' & H1 & _ & H2).
    exists i, proc'. split; [exact H2|].
    unfold status_at in Hs. rewrite H1 in Hs. simpl in Hs. congruence.
  - intros t' (i' & proc' & Hp' & Hst).
    destruct (findProcess_frame s s' t' i' proc' F Hp') as (proc'' & H1 & _ & H2).
    exists i', proc''. split; [exact H2|].
    destruct (Z.eq_dec t' t) as [->|Hne].
    + rewrite Hp in Hp'. injection Hp' as <- <-.
      unfold status_at in Hs. rewrite H1 in Hs. simpl in Hs. congruence.
    + apply findProcess_Some in Hp'. destruct Hp' as (Hq & Ht' & _).
      pose proof (executeProcess_other_slot s t i' proc' Hq) as Ho.
      fold s' in Ho. rewrite Ho in H1 by congruence. congruence.
Qed.

Lemma deposits_run a accountId j order :
  (0 <? a)%float = true ->
  forall s acc,
  findAccount s accountId = Some (j, acc) ->
  (forall t, In t order -> is_deposit s accountId a t) ->
  let s' := run s (map ExecuteProcess order) in
  (exists acc', findAccount s' accountId = Some (j, acc') /\
                balance acc' = add_n (length order) a (balance acc)) /\
  (forall t, In t order -> is_completed s' t) /\
  (forall t, is_completed s t -> is_completed s' t).
Proof.
  intros Ha. induction order as [|t order IH]; intros s acc Hacc Hdep; simpl.
  - split; [eauto|]. split; [contradiction|auto].
  - change (step_state s (ExecuteProcess t)) with
      (snd (fst (let '(s', o) := executeProcess s t in (VVoid, s', o)))).
    replace (snd (fst (let '(s', o) := executeProcess s t in (VVoid, s', o))))
      with (fst (executeProcess s t)) by (destruct (executeProcess s t); reflexivity).
    destruct (deposit_step s accountId a j acc t Ha Hacc (Hdep t (or_introl eq_refl)))
      as ((acc1 & Hacc1 & Hb1) & Hc1 & Hk1).
    pose proof (executeProcess_frame s t) as F.
    assert (forall t', In t' order ->
              is_deposit (fst (executeProcess s t)) accountId a t') as Hdep1.
    { intros t' Ht'. eapply is_deposit_frame; [exact F|]. apply Hdep. right. exact Ht'. }
    destruct (IH (fst (executeProcess s t)) acc1 Hacc1 Hdep1)
      as ((acc2 & Hacc2 & Hb2) & Hc2 & Hk2).
    split; [|split].
    + exists acc2. split; [exact Hacc2|]. rewrite Hb2, Hb1. reflexivity.
    + intros t' [<-|Ht']; auto.
    + auto.
Qed.

(** * Beyond the balance invariant: every input, and the callers *)

(** ** More facts about [double] *)
Module DoubleEdge.

Local Open Scope float_scope.

Lemma ltb0_notlt0 (x : float) : (x <? 0) = negb (SFnotlt0 (Prim2SF x)).
Proof.
  rewrite FloatAxioms.ltb_spec, Double.Prim2SF_zero. unfold SFltb.
  destruct (Prim2SF x) as [s|s| |s m e]; try destruct s; reflexivity.
Qed.

Lemma SFnonneg_notlt0 x : SFnonneg x = true -> SFnotlt0 x = true.
Proof. destruct x as [s|s| |s m e]; simpl; auto. Qed.

Lemma SFadd_notlt0 x y :
  SFnotlt0 x = true -> SFleb y (S754_zero false) = false ->
  SFnotlt0 (SFadd prec emax x y) = true.
Proof.
  intros Hx Hy.
  destruct y as [sy|[]| |[] my ey]; try discriminate Hy.
  - destruct x as [sx|[]| |[] mx ex]; try discriminate; reflexivity.
  - destruct x as [sx|sx| |sx mx ex]; reflexivity.
  - destruct x as [sx|[]| |[] mx ex]; try discriminate; try reflexivity.
    apply SFnonneg_notlt0. apply Double.SFadd_nonneg; reflexivity.
Qed.

Lemma SFsub_notlt0 x y :
  valid_binary x = true -> valid_binary y = true ->
  SFnotlt0 x = true -> SFleb y (S754_zero false) = false -> SFltb x y = false ->
  SFnotlt0 (SFsub prec emax x y) = true.
Proof.
  intros Vx Vy Hx Hy Hlt.
  destruct y as [sy|[]| |[] my ey]; try discriminate Hy.
  - destruct x as [sx|[]| |[] mx ex]; try discriminate; reflexivity.
  - destruct x as [sx|sx| |sx mx ex]; reflexivity.
  - destruct x as [sx|[]| |[] mx ex]; try discriminate; try reflexivity.
    apply SFnonneg_notlt0. apply Double.SFsub_nonneg; auto.
Qed.

(** [balance += amount] behind the guard [amount <= 0], for any [double]s. *)
Lemma add_not_negative (b a : float) :
  (b <? 0) = false -> (a <=? 0) = false -> (b + a <? 0) = false.
Proof.
  rewrite !ltb0_notlt0, FloatAxioms.leb_spec, Double.Prim2SF_zero, add_spec.
  intros Hb Ha. apply negb_false_iff in Hb. apply negb_false_iff.
  apply SFadd_notlt0; assumption.
Qed.

(** [balance -= amount] behind [amount <= 0 || balance < amount], for any
    [double]s. *)
Lemma sub_not_negative (b a : float) :
  (b <? 0) = false -> (a <=? 0) = false -> (b <? a) = false -> (b - a <? 0) = false.
Proof.
  rewrite !ltb0_notlt0, FloatAxioms.leb_spec, Double.Prim2SF_zero, sub_spec.
  rewrite FloatAxioms.ltb_spec.
  intros Hb Ha Hlt. apply negb_false_iff in Hb. apply negb_false_iff.
  apply SFsub_notlt0; auto using Prim2SF_valid.
Qed.

Lemma Prim2SF_minus_one : Prim2SF (-1) = S754_finite true 4503599627370496 (-52).
Proof. reflexivity. Qed.

(** A number that is not below zero is not -1. *)
Lemma not_negative_not_minus_one (x : float) : (x <? 0) = false -> (x =? -1) = false.
Proof.
  rewrite ltb0_notlt0, FloatAxioms.eqb_spec, Prim2SF_minus_one. unfold SFeqb.
  intros H. apply negb_false_iff in H.
  destruct (Prim2SF x) as [s|[]| |[] m e]; try discriminate; reflexivity.
Qed.

(** A finite positive number minus itself is +0. *)
Lemma sub_self (b : float) : is_finite b = true -> (0 <? b) = true -> b - b = 0.
Proof.
  intros Hf Hpos. apply Prim2SF_inj. rewrite sub_spec, Double.Prim2SF_zero.
  apply Double.is_finite_spec in Hf.
  rewrite FloatAxioms.ltb_spec, Double.Prim2SF_zero in Hpos. unfold SFltb in Hpos.
  destruct (Prim2SF b) as [s|s| |[] m e]; try discriminate; try contradiction.
  unfold SF64sub. cbn [SFsub cond_Zopp]. rewrite Z.sub_diag. reflexivity.
Qed.

End DoubleEdge.

(** ** No balance is ever below zero, whatever comes in *)

Lemma set_balance_never_negative s j acc b :
  (b <? 0)%float = false -> never_negative s -> never_negative (set_balance s j acc b).
Proof.
  intros Hb H k a Hk. simpl in *.
  destruct (decide (k = j)) as [->|Hne].
  - destruct (accounts s !! j) as [a0|] eqn:Ea.
    + rewrite list_lookup_insert_eq by (eapply lookup_lt_Some; eauto).
      intros [= <-]. exact Hb.
    + rewrite list_insert_ge by (apply lookup_ge_None; exact Ea).
      rewrite Ea. discriminate.
  - rewrite list_lookup_insert_ne by auto. apply H. exact Hk.
Qed.

Lemma executeProcess_never_negative s t :
  never_negative s -> never_negative (fst (executeProcess s t)).
Proof.
  intros HB. exec_cases s t; simpl fst; auto.
  - apply findAccount_Some in Ha. destruct Ha as (Ha & _ & _ & Hj).
    apply (set_balance_never_negative s j acc); auto.
    apply DoubleEdge.add_not_negative; eauto.
  - apply findAccount_Some in Ha. destruct Ha as (Ha & _ & _ & Hj).
    apply (set_balance_never_negative s j acc); auto.
    apply DoubleEdge.sub_not_negative; eauto.
Qed.

Lemma createAccount_never_negative s cid b :
  wf s -> never_negative s -> never_negative (snd (fst (createAccount s cid b))).
Proof.
  intros W HB. unfold createAccount.
  destruct (Z.geb_spec (accountCount s) MAX_ACCOUNTS) as [Hge|Hlt]; [exact HB|].
  destruct (b <? 0)%float eqn:Hb; [exact HB|]. simpl.
  destruct W. unfold MAX_ACCOUNTS in *.
  intros j a Hj. simpl in *.
  destruct (decide (j = Z.to_nat (accountCount s))) as [->|Hne].
  - rewrite list_lookup_insert_eq by lia. intros [= <-]. exact Hb.
  - rewrite list_lookup_insert_ne by auto. apply HB. lia.
Qed.

Lemma step_never_negative s op :
  wf s -> never_negative s -> never_negative (step_state s op).
Proof.
  intros W HB. unfold step_state, step.
  destruct op as [cid b|a ty amt|t|a|].
  - pose proof (createAccount_never_negative s cid b W HB) as H1.
    destruct (createAccount s cid b) as [[r s'] o]. exact H1.
  - pose proof (createProcess_accounts s a ty amt) as [H2 H3].
    destruct (createProcess s a ty amt) as [[r s'] o]. simpl in *.
    unfold never_negative. rewrite H2, H3. exact HB.
  - pose proof (executeProcess_never_negative s t HB) as H1.
    destruct (executeProcess s t) as [s' o]. exact H1.
  - destruct (checkBalance s a). exact HB.
  - exact HB.
Qed.

Lemma reachable_never_negative s : reachable s -> never_negative s.
Proof.
  induction 1 as [accs0 procs0 Ha Hp|s op R IH].
  - intros j a Hj. simpl in Hj. lia.
  - apply step_never_negative; auto using reachable_wf.
Qed.

(** X1: Whatever [double]s are passed in, NaN and the infinities included, no
    account created in a run from construction ever has [balance < 0]: a
    balance is a number that is not below zero, or NaN. *)
Theorem balance_never_below_zero accs0 procs0 ops :
  Z.of_nat (length accs0) = MAX_ACCOUNTS ->
  Z.of_nat (length procs0) = MAX_PROCESSES ->
  never_negative (run (init accs0 procs0) ops).
Proof.
  intros Ha Hp. apply reachable_never_negative, run_reachable, reach_init; assumption.
Qed.

Lemma balance_never_below_zero_witness :
  never_negative
    (run bank0 [CreateAccount "alice" nan; CreateAccount "bob" infinity;
                CreateProcess 2 "Withdraw" infinity; ExecuteProcess 1;
                CreateProcess 1 "Deposit" neg_infinity; ExecuteProcess 2]).
Proof.
  apply (balance_never_below_zero (repeat blank_account 1000) (repeat blank_process 100));
    reflexivity.
Defined.

(** ** Ids and slots *)

Lemma findAccount_wf s a :
  wf s ->
  (1 <= a <= accountCount s ->
   exists acc, findAccount s a = Some (Z.to_nat (a - 1), acc) /\
               id acc = a /\ active acc = true) /\
  (~ (1 <= a <= accountCount s) -> findAccount s a = None).
Proof.
  intros W. destruct W. unfold MAX_ACCOUNTS in *. split.
  - intros Ha.
    destruct (lookup_lt_is_Some_2 (accounts s) (Z.to_nat (a - 1))) as [acc Hacc]; [lia|].
    assert (Z.to_nat (a - 1) < Z.to_nat (accountCount s))%nat as Hlt by lia.
    destruct (wf_acc_ids0 _ acc Hlt Hacc) as [Hid Hact].
    exists acc. split; [|split; [lia|exact Hact]].
    apply scan_first; auto; try lia.
    + rewrite Hact. simpl. apply Z.eqb_eq. lia.
    + intros k q Hk Hq.
      assert (k < Z.to_nat (accountCount s))%nat as Hk' by lia.
      destruct (wf_acc_ids0 k q Hk' Hq) as [Hid' _].
      apply andb_false_iff. right. apply Z.eqb_neq. lia.
    + intros k Hk. apply lookup_lt_is_Some_2. lia.
  - intros Ha. apply findAccount_None. intros j acc Hj Hacc _.
    destruct (wf_acc_ids0 j acc Hj Hacc) as [Hid _]. lia.
Qed.

Lemma findProcess_wf s t :
  wf s ->
  (1 <= t <= processCount s ->
   exists proc, findProcess s t = Some (Z.to_nat (t - 1), proc) /\ tid proc = t) /\
  (~ (1 <= t <= processCount s) -> findProcess s t = None).
Proof.
  intros W. split.
  - intros Ht. pose proof W as W'. destruct W. unfold MAX_PROCESSES in *.
    destruct (lookup_lt_is_Some_2 (processes s) (Z.to_nat (t - 1))) as [proc Hp]; [lia|].
    assert (Z.to_nat (t - 1) < Z.to_nat (processCount s))%nat as Hlt by lia.
    pose proof (wf_proc_tids0 _ proc Hlt Hp) as Htid.
    exists proc. split; [|lia].
    assert (tid proc = t) as Ht' by lia. rewrite <- Ht' at 1.
    exact (findProcess_slot s _ proc W' Hlt Hp).
  - intros Ht. apply scan_None. intros i p Hi Hp. apply Z.eqb_neq.
    destruct W. rewrite (wf_proc_tids0 i p) by (auto; lia). lia.
Qed.

(** X2: In a reachable state the account ids in use are exactly 1 ..
    [accountCount]: [findAccount] resolves such an id to the account in slot
    [id - 1], which is active, and returns null for every other id. *)
Theorem findAccount_by_id s a :
  reachable s ->
  (1 <= a <= accountCount s ->
   exists acc, findAccount s a = Some (Z.to_nat (a - 1), acc) /\
               id acc = a /\ active acc = true) /\
  (~ (1 <= a <= accountCount s) ->
   findAccount s a = None /\ checkBalance s a = ((-1)%float, [ErrInvalidAccountId])).
Proof.
  intros R. destruct (findAccount_wf s a (reachable_wf s R)) as [H1 H2].
  split; [exact H1|]. intros Ha. specialize (H2 Ha).
  split; [exact H2|]. unfold checkBalance. rewrite H2. reflexivity.
Qed.

Lemma findAccount_by_id_witness :
  let s := run bank0 [CreateAccount "alice" 100%float; CreateAccount "bob" 5%float] in
  (exists acc, findAccount s 2 = Some (1%nat, acc) /\ id acc = 2 /\ active acc = true) /\
  findAccount s 3 = None /\ checkBalance s 3 = ((-1)%float, [ErrInvalidAccountId]).
Proof.
  intros s.
  assert (reachable s) as R by (apply run_reachable, reach_init; reflexivity).
  split.
  - apply (proj1 (findAccount_by_id s 2 R)). vm_compute. split; discriminate.
  - apply (proj2 (findAccount_by_id s 3 R)). vm_compute. intros [_ H]. apply H. reflexivity.
Defined.

(** X3: In a reachable state [executeProcess t] finds a transaction exactly for
    [1 <= t <= processCount], in slot [t - 1]; for every other [t], -1
    included, it writes "Transaction ID not found" and changes nothing. *)
Theorem executeProcess_by_id s t :
  reachable s ->
  (1 <= t <= processCount s ->
   exists proc, findProcess s t = Some (Z.to_nat (t - 1), proc) /\ tid proc = t) /\
  (~ (1 <= t <= processCount s) ->
   executeProcess s t = (s, [ErrTransactionNotFound])).
Proof.
  intros R. destruct (findProcess_wf s t (reachable_wf s R)) as [H1 H2].
  split; [exact H1|]. intros Ht. specialize (H2 Ht).
  unfold executeProcess. unfold findProcess in H2. rewrite H2. reflexivity.
Qed.

Lemma executeProcess_by_id_witness :
  let s := run bank0 [CreateAccount "alice" 100%float;
                      CreateProcess 1 "Deposit" 50%float] in
  (exists proc, findProcess s 1 = Some (0%nat, proc) /\ tid proc = 1) /\
  executeProcess s (-1) = (s, [ErrTransactionNotFound]).
Proof.
  intros s.
  assert (reachable s) as R by (apply run_reachable, reach_init; reflexivity).
  split.
  - apply (proj1 (executeProcess_by_id s 1 R)). vm_compute. split; discriminate.
  - apply (proj2 (executeProcess_by_id s (-1) R)). vm_compute. intros [H _]. apply H. reflexivity.
Defined.

(** ** Creating an account, then looking it up *)

Lemma createAccount_state s cid b :
  accountCount s < MAX_ACCOUNTS -> (b <? 0)%float = false ->
  createAccount s cid b
  = (nextAccountId s,
     {| accounts := <[ Z.to_nat (accountCount s)
                       := mkAccount (nextAccountId s) cid b true ]> (accounts s);
        processes := processes s;
        accountCount := accountCount s + 1;
        processCount := processCount s;
        nextAccountId := int_wrap (nextAccountId s + 1);
        nextTransactionId := nextTransactionId s |},
     [AccountCreated (nextAccountId s)]).
Proof.
  intros Hlt Hb. unfold createAccount. rewrite Hb.
  destruct (Z.geb_spec (accountCount s) MAX_ACCOUNTS); [lia|reflexivity].
Qed.

(** X4: In a reachable state with room left, [createAccount] with an initial
    balance that is not below zero returns [accountCount + 1]; afterwards
    [findAccount] and [checkBalance] on that id give back the customer id and
    the balance passed in, and every other id resolves as it did before. *)
Theorem createAccount_then_lookup s cid b :
  reachable s ->
  accountCount s < MAX_ACCOUNTS ->
  (b <? 0)%float = false ->
  let r := fst (fst (createAccount s cid b)) in
  let s' := snd (fst (createAccount s cid b)) in
  r = accountCount s + 1 /\
  findAccount s' r = Some (Z.to_nat (accountCount s), mkAccount r cid b true) /\
  checkBalance s' r = (b, []) /\
  (forall a, a <> r -> findAccount s' a = findAccount s a).
Proof.
  intros R Hlt Hb r s'.
  pose proof (reachable_wf s R) as W.
  pose proof (createAccount_wf s cid b W) as W'. fold s' in W'.
  subst r s'. rewrite (createAccount_state s cid b Hlt Hb) in *. simpl fst. simpl snd.
  simpl snd in W'. set (s' := mkBank _ _ _ _ _ _) in *.
  assert (nextAccountId s = accountCount s + 1) as Hr by (destruct W; assumption).
  assert (Z.to_nat (accountCount s) < length (accounts s))%nat as Hslot.
  { destruct W. unfold MAX_ACCOUNTS in *. lia. }
  assert (0 <= accountCount s) as H0 by (destruct W; lia).
  assert (findAccount s' (nextAccountId s)
          = Some (Z.to_nat (accountCount s), mkAccount (nextAccountId s) cid b true)) as Hf.
  { destruct (proj1 (findAccount_wf s' (nextAccountId s) W')) as (acc & Hacc & _).
    { simpl. lia. }
    rewrite Hacc. apply findAccount_Some in Hacc. destruct Hacc as (Hacc & _).
    replace (Z.to_nat (nextAccountId s - 1)) with (Z.to_nat (accountCount s)) in * by lia.
    simpl in Hacc. rewrite list_lookup_insert_eq in Hacc by exact Hslot.
    injection Hacc as <-. reflexivity. }
  split; [exact Hr|]. split; [exact Hf|]. split.
  - unfold checkBalance. rewrite Hf. reflexivity.
  - intros a Ha.
    destruct (findAccount_wf s a W) as [H1 H2].
    destruct (findAccount_wf s' a W') as [H1' H2'].
    destruct (Z_le_dec 1 a) as [Hle|Hnle]; [destruct (Z_le_dec a (accountCount s)) as [Hle'|Hnle]|].
    + destruct (H1 (conj Hle Hle')) as (acc & Hacc & _).
      destruct H1' as (acc' & Hacc' & _); [simpl; lia|].
      rewrite Hacc, Hacc'. f_equal. f_equal.
      apply findAccount_Some in Hacc, Hacc'.
      destruct Hacc as (Hacc & _), Hacc' as (Hacc' & _).
      simpl in Hacc'. rewrite list_lookup_insert_ne in Hacc' by lia. congruence.
    + rewrite H2 by lia. apply H2'. simpl. lia.
    + rewrite H2 by lia. apply H2'. simpl. lia.
Qed.

Lemma createAccount_then_lookup_witness :
  let s := run bank0 [CreateAccount "alice" 100%float] in
  let r := fst (fst (createAccount s "bob" 7%float)) in
  let s' := snd (fst (createAccount s "bob" 7%float)) in
  r = accountCount s + 1 /\
  findAccount s' r = Some (Z.to_nat (accountCount s), mkAccount r "bob" 7%float true) /\
  checkBalance s' r = (7%float, []) /\
  (forall a, a <> r -> findAccount s' a = findAccount s a).
Proof.
  intros s.
  apply (createAccount_then_lookup s "bob" 7%float).
  - apply run_reachable, reach_init; reflexivity.
  - reflexivity.
  - reflexivity.
Defined.

(** ** Records are kept *)

Lemma step_counts_grow s op :
  wf s ->
  accountCount s <= accountCount (step_state s op) /\
  processCount s <= processCount (step_state s op).
Proof.
  intros W. unfold step_state, step. destruct op as [cid b|a ty amt|t|a|].
  - unfold createAccount. destruct (_ >=? _); simpl; [lia|].
    destruct (_ <? _)%float; simpl; lia.
  - unfold createProcess. destruct (_ >=? _); simpl; lia.
  - destruct (executeProcess_frame s t) as [H1 H2 _ _ _ _].
    destruct (executeProcess s t) as [s' o]. simpl in *. lia.
  - destruct (checkBalance s a). simpl. lia.
  - simpl. lia.
Qed.

Lemma step_account_kept s op j a :
  (j < Z.to_nat (accountCount s))%nat -> accounts s !! j = Some a ->
  exists a', accounts (step_state s op) !! j = Some a' /\ same_account a a'.
Proof.
  intros Hj Ha. unfold step_state, step. destruct op as [cid b|x ty amt|t|x|].
  - unfold createAccount. destruct (_ >=? _); simpl; [eauto with bank|].
    destruct (_ <? _)%float; simpl; [eauto with bank|].
    rewrite list_lookup_insert_ne by lia. eauto with bank.
  - pose proof (createProcess_accounts s x ty amt) as [H _].
    destruct (createProcess s x ty amt) as [[r s'] o]. simpl in *. rewrite H. eauto with bank.
  - destruct (executeProcess_frame s t) as [_ _ _ _ H _].
    destruct (executeProcess s t) as [s' o]. simpl in *.
    specialize (H j). rewrite Ha in H. destruct (accounts s' !! j); [eauto|contradiction].
  - destruct (checkBalance s x). simpl. eauto with bank.
  - simpl. eauto with bank.
Qed.

Lemma step_process_kept s op i p :
  (i < Z.to_nat (processCount s))%nat -> processes s !! i = Some p ->
  exists p', processes (step_state s op) !! i = Some p' /\ same_process p p'.
Proof.
  intros Hi Hp. unfold step_state, step. destruct op as [cid b|x ty amt|t|x|].
  - pose proof (createAccount_processes s cid b) as [H _].
    destruct (createAccount s cid b) as [[r s'] o]. simpl in *. rewrite H. eauto with bank.
  - unfold createProcess. destruct (_ >=? _); simpl; [eauto with bank|].
    rewrite list_lookup_insert_ne by lia. eauto with bank.
  - destruct (executeProcess_frame s t) as [_ _ _ _ _ H].
    destruct (executeProcess s t) as [s' o]. simpl in *.
    specialize (H i). rewrite Hp in H. destruct (processes s' !! i); [eauto|contradiction].
  - destruct (checkBalance s x). simpl. eauto with bank.
  - simpl. eauto with bank.
Qed.

Lemma run_account_kept s ops j a :
  wf s -> (j < Z.to_nat (accountCount s))%nat -> accounts s !! j = Some a ->
  (j < Z.to_nat (accountCount (run s ops)))%nat /\
  exists a', accounts (run s ops) !! j = Some a' /\ same_account a a'.
Proof.
  revert s a. induction ops as [|op ops IH]; intros s a W Hj Ha; simpl.
  - eauto with bank.
  - destruct (step_account_kept s op j a Hj Ha) as (a1 & Ha1 & S1).
    destruct (step_counts_grow s op W) as [Hc _].
    destruct (IH (step_state s op) a1 (step_wf s op W) ltac:(lia) Ha1) as (Hj' & a' & Ha' & S2).
    split; [exact Hj'|]. exists a'. split; [exact Ha'|]. eapply same_account_trans; eauto.
Qed.

Lemma run_process_kept s ops i p :
  wf s -> (i < Z.to_nat (processCount s))%nat -> processes s !! i = Some p ->
  (i < Z.to_nat (processCount (run s ops)))%nat /\
  exists p', processes (run s ops) !! i = Some p' /\ same_process p p'.
Proof.
  revert s p. induction ops as [|op ops IH]; intros s p W Hi Hp; simpl.
  - eauto with bank.
  - destruct (step_process_kept s op i p Hi Hp) as (p1 & Hp1 & S1).
    destruct (step_counts_grow s op W) as [_ Hc].
    destruct (IH (step_state s op) p1 (step_wf s op W) ltac:(lia) Hp1) as (Hi' & p' & Hp' & S2).
    split; [exact Hi'|]. exists p'. split; [exact Hp'|]. eapply same_process_trans; eauto.
Qed.

(** X5: An account is never removed, deactivated or renamed: once [findAccount]
    resolves an id in a reachable state, it resolves it to the same slot
    after any further operations, with the same id, customer id and active
    flag; only the balance can differ. *)
Theorem account_persists s ops a j acc :
  reachable s ->
  findAccount s a = Some (j, acc) ->
  exists acc', findAccount (run s ops) a = Some (j, acc') /\ same_account acc acc'.
Proof.
  intros R Hf. pose proof (reachable_wf s R) as W.
  pose proof (run_wf s ops W) as W'.
  apply findAccount_Some in Hf. destruct Hf as (Hacc & Hid & Hact & Hj).
  destruct (run_account_kept s ops j acc W Hj Hacc) as (Hj' & acc' & Hacc' & S).
  exists acc'. split; [|exact S].
  destruct (wf_acc_ids s W j acc Hj Hacc) as [Hid1 _].
  destruct (proj1 (findAccount_wf (run s ops) a W')) as (acc2 & Hf2 & _); [lia|].
  replace (Z.to_nat (a - 1)) with j in Hf2 by lia.
  rewrite Hf2. apply findAccount_Some in Hf2. destruct Hf2 as (Hacc2 & _). congruence.
Qed.

Lemma account_persists_witness :
  let s := run bank0 [CreateAccount "alice" 100%float] in
  let ops := [CreateAccount "bob" 0%float; CreateProcess 1 "Withdraw" 40%float;
              ExecuteProcess 1] in
  exists acc', findAccount (run s ops) 1 = Some (0%nat, acc') /\
               same_account (mkAccount 1 "alice" 100%float true) acc'.
Proof.
  intros s ops.
  apply (account_persists s ops 1 0 (mkAccount 1 "alice" 100%float true)).
  - apply run_reachable, reach_init; reflexivity.
  - reflexivity.
Defined.

(** X6: A recorded transaction is never removed or rewritten: once stored, it is
    found for its id in the same slot after any further operations, with the
    same tid, account id, type and amount; only the status can differ. *)
Theorem transaction_persists s ops t i proc :
  reachable s ->
  findProcess s t = Some (i, proc) ->
  exists proc', findProcess (run s ops) t = Some (i, proc') /\ same_process proc proc'.
Proof.
  intros R Hf. pose proof (reachable_wf s R) as W.
  pose proof (run_wf s ops W) as W'.
  apply findProcess_Some in Hf. destruct Hf as (Hp & Ht & Hi).
  destruct (run_process_kept s ops i proc W Hi Hp) as (Hi' & proc' & Hp' & S).
  exists proc'. split; [|exact S].
  destruct S as (Ht' & _). rewrite <- Ht, <- Ht'.
  apply findProcess_slot; assumption.
Qed.

Lemma transaction_persists_witness :
  let s := run bank0 [CreateAccount "alice" 100%float;
                      CreateProcess 1 "Withdraw" 40%float] in
  let ops := [ExecuteProcess 1; CreateProcess 1 "Deposit" 2%float; ExecuteProcess 2] in
  exists proc', findProcess (run s ops) 1 = Some (0%nat, proc') /\
                same_process (mkProcess 1 1 "Withdraw" 40%float "Pending") proc'.
Proof.
  intros s ops.
  apply (transaction_persists s ops 1 0 (mkProcess 1 1 "Withdraw" 40%float "Pending")).
  - apply run_reachable, reach_init; reflexivity.
  - reflexivity.
Defined.

(** ** Outcomes of one execution *)

(** X7: An execution is all or nothing.  For a stored transaction, after
    [executeProcess] its status is Failed and the account array is as it
    was, or its status is Completed and exactly the slot of its account was
    written, with the balance plus the amount for a Deposit and the balance
    minus the amount for a Withdraw.  The status is never left Pending. *)
Theorem execution_all_or_nothing s t i proc :
  findProcess s t = Some (i, proc) ->
  let s' := fst (executeProcess s t) in
  (status_at s' i = Some "Failed" /\ accounts s' = accounts s) \/
  (status_at s' i = Some "Completed" /\
   exists j acc b,
     findAccount s (aid proc) = Some (j, acc) /\
     accounts s' = <[ j := mkAccount (id acc) (customerId acc) b (active acc) ]> (accounts s) /\
     ((type proc = "Deposit" /\ b = (balance acc + amount proc)%float) \/
      (type proc = "Withdraw" /\ b = (balance acc - amount proc)%float))).
Proof.
  intros Hf s'. subst s'.
  destruct (executeProcess_outcome s t)
    as [Hp|i' proc' Hp Ha|i' proc' j acc o Hp Ha|i' proc' j acc Hp Ha Ht Hle
       |i' proc' j acc Hp Ha Ht Hle Hlt];
    rewrite Hf in Hp; try discriminate; injection Hp as <- <-;
    apply findProcess_Some in Hf; destruct Hf as (Hf & _); simpl fst;
    unfold status_at.
  - left. rewrite status_at_set_status by exact Hf. split; reflexivity.
  - left. rewrite status_at_set_status by exact Hf. split; reflexivity.
  - right. rewrite (status_at_set_status (set_balance s j acc _) i proc "Completed" Hf).
    split; [reflexivity|]. exists j, acc, (balance acc + amount proc)%float. auto.
  - right. rewrite (status_at_set_status (set_balance s j acc _) i proc "Completed" Hf).
    split; [reflexivity|]. exists j, acc, (balance acc - amount proc)%float. auto.
Qed.

Lemma execution_all_or_nothing_witness :
  let s := run bank0 [CreateAccount "alice" 100%float;
                      CreateProcess 1 "Withdraw" 200%float] in
  let s' := fst (executeProcess s 1) in
  (status_at s' 0 = Some "Failed" /\ accounts s' = accounts s) \/
  (status_at s' 0 = Some "Completed" /\
   exists j acc b,
     findAccount s 1 = Some (j, acc) /\
     accounts s' = <[ j := mkAccount (id acc) (customerId acc) b (active acc) ]> (accounts s) /\
     (("Withdraw" = "Deposit" /\ b = (balance acc + 200)%float) \/
      ("Withdraw" = "Withdraw" /\ b = (balance acc - 200)%float))).
Proof.
  intros s.
  exact (execution_all_or_nothing s 1 0 (mkProcess 1 1 "Withdraw" 200%float "Pending")
           eq_refl).
Defined.

(** X8: The type string is compared exactly and after the account lookup: a
    stored transaction whose type is neither "Deposit" nor "Withdraw" (for
    instance "deposit") always fails and writes no account; the line written
    is "Unknown transaction type" when its account resolves and "Account not
    found" when it does not. *)
Theorem unknown_type_fails s t i proc :
  findProcess s t = Some (i, proc) ->
  type proc <> "Deposit" -> type proc <> "Withdraw" ->
  let s' := fst (executeProcess s t) in
  status_at s' i = Some "Failed" /\ accounts s' = accounts s /\
  snd (executeProcess s t)
  = [match findAccount s (aid proc) with
     | Some _ => ErrUnknownType
     | None => ErrAccountNotFound t
     end].
Proof.
  intros Hf Hd Hw s'. subst s'.
  rewrite (executeProcess_found s t i proc Hf).
  apply findProcess_Some in Hf. destruct Hf as (Hf & _).
  apply String.eqb_neq in Hd, Hw.
  destruct (findAccount s (aid proc)) as [[j acc]|]; [rewrite Hd, Hw|];
    simpl fst; simpl snd; unfold status_at;
    rewrite status_at_set_status by exact Hf; repeat split; reflexivity.
Qed.

Lemma unknown_type_fails_witness :
  let s := run bank0 [CreateAccount "alice" 100%float;
                      CreateProcess 1 "deposit" 50%float] in
  let s' := fst (executeProcess s 1) in
  status_at s' 0 = Some "Failed" /\ accounts s' = accounts s /\
  snd (executeProcess s 1) = [ErrUnknownType].
Proof.
  intros s.
  apply (unknown_type_fails s 1 0 (mkProcess 1 1 "deposit" 50%float "Pending") eq_refl);
    discriminate.
Defined.

(** A withdrawal of exactly the balance, once the two lookups of
    [executeProcess] have returned slot [i] and slot [j]. *)
Lemma withdraw_whole_found s t i proc j acc :
  findProcess s t = Some (i, proc) ->
  type proc = "Withdraw" ->
  findAccount s (aid proc) = Some (j, acc) ->
  amount proc = balance acc ->
  is_finite (balance acc) = true ->
  (0 <? balance acc)%float = true ->
  let s' := fst (executeProcess s t) in
  balance_at s' j = Some 0%float /\ status_at s' i = Some "Completed".
Proof.
  intros Hp Hty Ha Heq Hfin Hpos s'. subst s'.
  rewrite (executeProcess_found s t i proc Hp), Ha, Hty.
  change (String.eqb "Withdraw" "Deposit") with false.
  change (String.eqb "Withdraw" "Withdraw") with true. cbv iota.
  apply findProcess_Some in Hp. destruct Hp as (Hp & _).
  apply findAccount_Some in Ha. destruct Ha as (Ha & _).
  rewrite Heq, (Double.lt0_not_le0 _ Hpos).
  assert ((balance acc <? balance acc)%float = false) as ->.
  { apply Double.le_not_gt. rewrite FloatAxioms.leb_spec. unfold SFleb.
    apply Double.is_finite_spec in Hfin.
    destruct (Prim2SF (balance acc)) as [sg|sg| |sg m e]; try contradiction.
    - reflexivity.
    - rewrite Double.SFcompare_refl_finite. reflexivity. }
  simpl fst. rewrite (DoubleEdge.sub_self _ Hfin Hpos).
  unfold balance_at, status_at.
  rewrite status_at_set_status by exact Hp.
  change (accounts (set_status (set_balance s j acc 0%float) i proc "Completed"))
    with (accounts (set_balance s j acc 0%float)).
  rewrite account_at_set_balance by exact Ha. split; reflexivity.
Qed.

Lemma checkBalance_found s a :
  reachable s ->
  1 <= a <= accountCount s ->
  exists acc, accounts s !! Z.to_nat (a - 1) = Some acc /\
              checkBalance s a = (balance acc, []) /\
              (balance acc =? -1)%float = false.
Proof.
  intros R Ha.
  destruct (proj1 (findAccount_wf s a (reachable_wf s R)) Ha) as (acc & Hf & _).
  exists acc. unfold checkBalance. rewrite Hf.
  apply findAccount_Some in Hf. destruct Hf as (Hacc & _ & _ & Hj).
  repeat split; auto.
  apply DoubleEdge.not_negative_not_minus_one.
  exact (reachable_never_negative s R _ acc Hj Hacc).
Qed.

(** X10: The value -1 that [checkBalance] returns for an unknown id is never the
    balance of an account.  In a reachable state, whatever inputs led to it,
    the value returned compares equal to -1 exactly when the id is not one
    of 1 .. [accountCount]; for those ids [checkBalance] returns the balance
    of the account and writes nothing. *)
Theorem checkBalance_sentinel s a :
  reachable s ->
  ((fst (checkBalance s a) =? -1)%float = true <-> ~ (1 <= a <= accountCount s)) /\
  (1 <= a <= accountCount s ->
   exists acc, accounts s !! Z.to_nat (a - 1) = Some acc /\
               checkBalance s a = (balance acc, [])).
Proof.
  intros R. split.
  - split.
    + intros Heq Ha. destruct (checkBalance_found s a R Ha) as (acc & _ & Hcb & Hne).
      rewrite Hcb in Heq. simpl in Heq. congruence.
    + intros Ha. destruct (findAccount_wf s a (reachable_wf s R)) as [_ H].
      unfold checkBalance. rewrite (H Ha). reflexivity.
  - intros Ha. destruct (checkBalance_found s a R Ha) as (acc & Hacc & Hcb & _). eauto.
Qed.

Lemma checkBalance_sentinel_witness :
  let s := run bank0 [CreateAccount "alice" nan] in
  ((fst (checkBalance s 1) =? -1)%float = true <-> ~ (1 <= 1 <= accountCount s)) /\
  (1 <= 1 <= accountCount s ->
   exists acc, accounts s !! Z.to_nat (1 - 1) = Some acc /\
               checkBalance s 1 = (balance acc, [])).
Proof.
  intros s. apply (checkBalance_sentinel s 1).
  apply run_reachable, reach_init; reflexivity.
Defined.

(** ** The ids handed out are 1, 2, 3, ... *)

Lemma Zrange_empty lo : Zrange lo lo = [].
Proof. unfold Zrange. rewrite Z.sub_diag. reflexivity. Qed.

Lemma Zrange_first lo hi : lo < hi -> Zrange lo hi = lo :: Zrange (lo + 1) hi.
Proof.
  intros H. unfold Zrange.
  replace (Z.to_nat (hi - lo)) with (S (Z.to_nat (hi - (lo + 1)))) by lia.
  cbn [seq map]. f_equal; [lia|].
  rewrite <- seq_shift, map_map. apply map_ext. intros k. lia.
Qed.

Lemma run_counters_grow s ops :
  wf s ->
  nextAccountId s <= nextAccountId (run s ops) /\
  nextTransactionId s <= nextTransactionId (run s ops).
Proof.
  revert s. induction ops as [|op ops IH]; intros s W; simpl; [lia|].
  pose proof (step_wf s op W) as W1.
  destruct (IH _ W1) as [H1 H2]. destruct (step_counts_grow s op W) as [H3 H4].
  destruct W, W1. lia.
Qed.

Lemma account_ids_range s ops :
  wf s ->
  created_account_ids (returns s ops)
  = Zrange (nextAccountId s) (nextAccountId (run s ops)).
Proof.
  revert s. induction ops as [|op ops IH]; intros s W; cbn [returns run].
  - rewrite Zrange_empty. reflexivity.
  - pose proof (step_wf s op W) as W1.
    pose proof (step_new_account_id s op W) as H.
    destruct (run_counters_grow (step_state s op) ops W1) as [Hm _].
    unfold created_account_ids in *. rewrite omap_step, (IH _ W1).
    destruct (new_account_id (op, step_value s op)) as [z|].
    + destruct H as [-> H]. rewrite H in *. rewrite (Zrange_first (nextAccountId s)) by lia.
      reflexivity.
    + rewrite H. reflexivity.
Qed.

Lemma transaction_ids_range s ops :
  wf s ->
  created_transaction_ids (returns s ops)
  = Zrange (nextTransactionId s) (nextTransactionId (run s ops)).
Proof.
  revert s. induction ops as [|op ops IH]; intros s W; cbn [returns run].
  - rewrite Zrange_empty. reflexivity.
  - pose proof (step_wf s op W) as W1.
    pose proof (step_new_transaction_id s op W) as H.
    destruct (run_counters_grow (step_state s op) ops W1) as [_ Hm].
    unfold created_transaction_ids in *. rewrite omap_step, (IH _ W1).
    destruct (new_transaction_id (op, step_value s op)) as [z|].
    + destruct H as [-> H]. rewrite H in *.
      rewrite (Zrange_first (nextTransactionId s)) by lia. reflexivity.
    + rewrite H. reflexivity.
Qed.

(** X11: Ids are sequential from 1 and bounded by the capacities: over a run from
    construction that ends with [n] accounts and [m] transactions stored,
    the successful [createAccount] calls returned 1, 2, ..., n in this order
    and the successful [createProcess] calls 1, 2, ..., m, with
    [n <= MAX_ACCOUNTS] and [m <= MAX_PROCESSES]. *)
Theorem ids_are_sequential accs0 procs0 ops :
  Z.of_nat (length accs0) = MAX_ACCOUNTS ->
  Z.of_nat (length procs0) = MAX_PROCESSES ->
  let rs := returns (init accs0 procs0) ops in
  let s := run (init accs0 procs0) ops in
  created_account_ids rs = Zrange 1 (accountCount s + 1) /\
  accountCount s <= MAX_ACCOUNTS /\
  created_transaction_ids rs = Zrange 1 (processCount s + 1) /\
  processCount s <= MAX_PROCESSES.
Proof.
  intros Ha Hp rs s. subst rs s.
  pose proof (init_wf accs0 procs0 Ha Hp) as W.
  pose proof (run_wf _ ops W) as W'.
  rewrite (account_ids_range _ ops W), (transaction_ids_range _ ops W).
  destruct W'. rewrite wf_next_acc0, wf_next_tid0. simpl.
  repeat split; lia.
Qed.

Lemma ids_are_sequential_witness :
  let ops := [CreateAccount "alice" 100%float; CreateAccount "bad" (-5)%float;
              CreateAccount "bob" 0%float; CreateProcess 9 "Withdraw" 1%float] in
  let rs := returns bank0 ops in
  let s := run bank0 ops in
  created_account_ids rs = Zrange 1 (accountCount s + 1) /\
  accountCount s <= MAX_ACCOUNTS /\
  created_transaction_ids rs = Zrange 1 (processCount s + 1) /\
  processCount s <= MAX_PROCESSES.
Proof.
  intros ops.
  apply (ids_are_sequential (repeat blank_account 1000) (repeat blank_process 100));
    reflexivity.
Defined.

(** ** The process table *)

(** X12: In a reachable state [printProcesses] writes the two header lines and
    then one row per stored transaction, [processCount] rows in all, in
    order of creation: row [k] is the transaction in slot [k], whose tid is
    [k + 1]. *)
Theorem printProcesses_rows s :
  reachable s ->
  exists rows,
    printProcesses s = ProcessTableTitle :: ProcessTableColumns :: map ProcessRow rows /\
    Z.of_nat (length rows) = processCount s /\
    forall k p, rows !! k = Some p ->
                processes s !! k = Some p /\ tid p = Z.of_nat k + 1.
Proof.
  intros R. apply reachable_wf in R. destruct R. unfold MAX_PROCESSES in *.
  exists (take (Z.to_nat (processCount s)) (processes s)).
  split; [reflexivity|]. split.
  - rewrite length_take_le by lia. lia.
  - intros k p Hk. apply lookup_take_Some in Hk. destruct Hk as [Hk Hlt].
    split; [exact Hk|]. apply wf_proc_tids0; assumption.
Qed.

Lemma printProcesses_rows_witness :
  let s := run bank0 [CreateProcess 3 "Deposit" 1%float; CreateProcess 4 "Withdraw" 2%float] in
  exists rows,
    printProcesses s = ProcessTableTitle :: ProcessTableColumns :: map ProcessRow rows /\
    Z.of_nat (length rows) = processCount s /\
    forall k p, rows !! k = Some p ->
                processes s !! k = Some p /\ tid p = Z.of_nat k + 1.
Proof.
  intros s. apply (printProcesses_rows s).
  apply run_reachable, reach_init; reflexivity.
Defined.

(** ** The menu: each transaction is created and executed at once *)

(** The two calls of cases 2 and 3: [createProcess], then [executeProcess]
    on the id it returned. *)
Lemma create_then_execute s a ty amt :
  wf s ->
  let t := fst (fst (createProcess s a ty amt)) in
  let s1 := snd (fst (createProcess s a ty amt)) in
  let s2 := fst (executeProcess s1 t) in
  (forall i, (i < Z.to_nat (processCount s))%nat -> processes s2 !! i = processes s !! i) /\
  (MAX_PROCESSES <= processCount s ->
   s2 = s /\
   snd (createProcess s a ty amt) = [ErrMaxProcesses] /\
   snd (executeProcess s1 t) = [ErrTransactionNotFound]) /\
  (processCount s < MAX_PROCESSES ->
   processCount s2 = processCount s + 1 /\
   exists st, (st = "Completed" \/ st = "Failed") /\
     processes s2 !! Z.to_nat (processCount s)
     = Some (mkProcess (processCount s + 1) a ty amt st)).
Proof.
  intros W t s1 s2. subst t s1 s2. unfold createProcess.
  destruct (Z.geb_spec (processCount s) MAX_PROCESSES) as [Hge|Hlt]; simpl fst; simpl snd.
  - assert (executeProcess s (-1) = (s, [ErrTransactionNotFound])) as ->.
    { unfold executeProcess.
      destruct (findProcess_wf s (-1) W) as [_ H]. unfold findProcess in H.
      rewrite H by (destruct W; lia). reflexivity. }
    simpl. split; [reflexivity|]. split; [auto|]. intros; lia.
  - pose proof (createProcess_wf s a ty amt W) as W1. unfold createProcess in W1.
    destruct (Z.geb_spec (processCount s) MAX_PROCESSES) as [Hge|_]; [lia|].
    simpl snd in W1. set (s1 := mkBank _ _ _ _ _ _) in *.
    assert (nextTransactionId s = processCount s + 1) as Hn by (destruct W; assumption).
    assert (0 <= processCount s /\ Z.of_nat (length (processes s)) = MAX_PROCESSES) as [H0 Hlen]
      by (destruct W; split; [lia|assumption]).
    unfold MAX_PROCESSES in *.
    set (new := mkProcess (nextTransactionId s) a ty amt "Pending").
    assert (processes s1 !! Z.to_nat (processCount s) = Some new) as Hnew.
    { simpl. apply list_lookup_insert_eq. lia. }
    assert (findProcess s1 (nextTransactionId s) = Some (Z.to_nat (processCount s), new)) as Hf.
    { apply (findProcess_slot s1 _ new W1); [simpl; lia|exact Hnew]. }
    split; [|split; [intros; lia|]].
    + intros i Hi.
      destruct (lookup_lt_is_Some_2 (processes s) i) as [p Hp]; [lia|].
      assert (processes s1 !! i = Some p) as Hp1.
      { simpl. rewrite list_lookup_insert_ne by lia. exact Hp. }
      rewrite Hp. apply executeProcess_other_slot; [exact Hp1|].
      destruct W. rewrite (wf_proc_tids0 i p Hi Hp). lia.
    + intros _. split.
      * destruct (executeProcess_frame s1 (nextTransactionId s)) as [_ H _ _ _ _].
        rewrite H. reflexivity.
      * destruct (executeProcess_status_terminal s1 _ _ new Hf) as (st & Hst & Hp).
        exists st. split; [exact Hst|]. rewrite Hp. subst new. simpl. rewrite Hn. reflexivity.
Qed.

Lemma menu_case_reachable s r : reachable s -> reachable (fst (menu_case s r)).
Proof.
  intros R. destruct r as [cid b|a amt|a amt|a| | |]; simpl; try exact R.
  - pose proof (reach_step s (CreateAccount cid b) R) as H.
    unfold step_state, step in H.
    destruct (createAccount s cid b) as [[r s'] o]. exact H.
  - pose proof (reach_step s (CreateProcess a "Deposit" amt) R) as H.
    unfold step_state, step in H.
    destruct (createProcess s a "Deposit" amt) as [[t s1] o1]. simpl in H.
    pose proof (reach_step s1 (ExecuteProcess t) H) as H'.
    unfold step_state, step in H'.
    destruct (executeProcess s1 t) as [s2 o2]. exact H'.
  - pose proof (reach_step s (CreateProcess a "Withdraw" amt) R) as H.
    unfold step_state, step in H.
    destruct (createProcess s a "Withdraw" amt) as [[t s1] o1]. simpl in H.
    pose proof (reach_step s1 (ExecuteProcess t) H) as H'.
    unfold step_state, step in H'.
    destruct (executeProcess s1 t) as [s2 o2]. exact H'.
  - destruct (checkBalance s a). exact R.
Qed.

Lemma menu_state_step s r rest :
  r <> Choice6 -> menu_state s (r :: rest) = menu_state (fst (menu_case s r)) rest.
Proof.
  intros Hr. unfold menu_state. cbn [menu].
  destruct r; try congruence;
    destruct (menu_case s _) as [s1 o1]; simpl fst;
    destruct (menu s1 rest) as [[s2 o2] b]; reflexivity.
Qed.

Lemma exit_or_not (r : Request) : r = Choice6 \/ r <> Choice6.
Proof. destruct r; try (right; discriminate); left; reflexivity. Qed.

Lemma menu_state_exit s rest : menu_state s (Choice6 :: rest) = s.
Proof. reflexivity. Qed.

Lemma menu_reachable s input : reachable s -> reachable (menu_state s input).
Proof.
  revert s. induction input as [|r rest IH]; intros s R; [exact R|].
  destruct (exit_or_not r) as [->|Hr]; [exact R|].
  - rewrite menu_state_step by exact Hr. apply IH, menu_case_reachable, R.
Qed.

Lemma menu_case_processes_kept s r :
  wf s ->
  processCount s <= processCount (fst (menu_case s r)) /\
  forall i, (i < Z.to_nat (processCount s))%nat ->
            processes (fst (menu_case s r)) !! i = processes s !! i.
Proof.
  intros W. destruct r as [cid b|a amt|a amt|a| | |]; simpl; try (split; [lia|reflexivity]).
  - pose proof (createAccount_processes s cid b) as [H1 H2].
    destruct (createAccount s cid b) as [[r s'] o]. simpl in *. rewrite H1, H2.
    split; [lia|reflexivity].
  - pose proof (create_then_execute s a "Deposit" amt W) as (H1 & H2 & H3).
    destruct (createProcess s a "Deposit" amt) as [[t s1] o1]. simpl in *.
    destruct (executeProcess s1 t) as [s2 o2]. simpl in *. split; [|exact H1].
    destruct (Z_lt_dec (processCount s) MAX_PROCESSES) as [Hlt|Hge].
    + destruct (H3 Hlt) as [-> _]. lia.
    + destruct H2 as [-> _]; lia.
  - pose proof (create_then_execute s a "Withdraw" amt W) as (H1 & H2 & H3).
    destruct (createProcess s a "Withdraw" amt) as [[t s1] o1]. simpl in *.
    destruct (executeProcess s1 t) as [s2 o2]. simpl in *. split; [|exact H1].
    destruct (Z_lt_dec (processCount s) MAX_PROCESSES) as [Hlt|Hge].
    + destruct (H3 Hlt) as [-> _]. lia.
    + destruct H2 as [-> _]; lia.
  - destruct (checkBalance s a). simpl. split; [lia|reflexivity].
Qed.

(** X13: Through the menu the transaction log only grows: a transaction stored
    in a reachable state, with the status its execution gave it, is still
    there unchanged after any further turns of the menu.  The menu executes
    each transaction once, right after creating it, and never again. *)
Theorem menu_log_is_append_only s input i p :
  reachable s ->
  (i < Z.to_nat (processCount s))%nat ->
  processes s !! i = Some p ->
  processes (menu_state s input) !! i = Some p.
Proof.
  revert s. induction input as [|r rest IH]; intros s R Hi Hp; [exact Hp|].
  destruct (exit_or_not r) as [->|Hr]; [exact Hp|].
  rewrite menu_state_step by exact Hr.
  destruct (menu_case_processes_kept s r (reachable_wf s R)) as [Hc Hk].
  apply IH; [apply menu_case_reachable, R|lia|]. rewrite Hk by exact Hi. exact Hp.
Qed.

Lemma menu_log_is_append_only_witness :
  let s := menu_state bank0 [Choice1 "alice" 100%float; Choice3 1 200%float] in
  processes (menu_state s [Choice2 1 150%float; Choice3 1 200%float; Choice5]) !! 0%nat
  = Some (mkProcess 1 1 "Withdraw" 200%float "Failed").
Proof.
  intros s.
  apply (menu_log_is_append_only s).
  - apply menu_reachable, reach_init; reflexivity.
  - vm_compute. lia.
  - reflexivity.
Defined.

Lemma menu_case_no_pending s r :
  wf s -> no_pending s -> no_pending (fst (menu_case s r)).
Proof.
  intros W HN.
  assert (forall ty a amt,
    no_pending (fst (executeProcess (snd (fst (createProcess s a ty amt)))
                                    (fst (fst (createProcess s a ty amt)))))) as Htx.
  { intros ty a amt i p Hi Hp.
    pose proof (create_then_execute s a ty amt W) as (H1 & H2 & H3). cbv zeta in *.
    destruct (Z_lt_dec (processCount s) MAX_PROCESSES) as [Hlt|Hge].
    - destruct (H3 Hlt) as (Hc & st & Hst & Hnew). rewrite Hc in Hi.
      destruct (decide (i = Z.to_nat (processCount s))) as [->|Hne].
      + rewrite Hnew in Hp. injection Hp as <-. exact Hst.
      + assert (i < Z.to_nat (processCount s))%nat as Hi' by (destruct W; lia).
        rewrite (H1 i Hi') in Hp. eapply HN; eauto.
    - destruct H2 as (E & _); [lia|]. rewrite E in *. eapply HN; eauto. }
  destruct r as [cid b|a amt|a amt|a| | |]; simpl; try exact HN.
  - pose proof (createAccount_processes s cid b) as [H1 H2].
    destruct (createAccount s cid b) as [[r s'] o]. simpl in *.
    unfold no_pending. rewrite H1, H2. exact HN.
  - specialize (Htx "Deposit" a amt).
    destruct (createProcess s a "Deposit" amt) as [[t s1] o1]. simpl in *.
    destruct (executeProcess s1 t) as [s2 o2]. exact Htx.
  - specialize (Htx "Withdraw" a amt).
    destruct (createProcess s a "Withdraw" amt) as [[t s1] o1]. simpl in *.
    destruct (executeProcess s1 t) as [s2 o2]. exact Htx.
  - destruct (checkBalance s a). exact HN.
Qed.

(** X14: The menu leaves no transaction Pending: after any turns of the menu on
    a newly constructed bank, every stored transaction is Completed or
    Failed. *)
Theorem menu_leaves_nothing_pending accs0 procs0 input :
  Z.of_nat (length accs0) = MAX_ACCOUNTS ->
  Z.of_nat (length procs0) = MAX_PROCESSES ->
  no_pending (menu_state (init accs0 procs0) input).
Proof.
  intros Ha Hp.
  assert (forall s, reachable s -> no_pending s -> no_pending (menu_state s input)) as H.
  { induction input as [|r rest IH]; intros s R HN; [exact HN|].
    destruct (exit_or_not r) as [->|Hr]; [exact HN|].
    rewrite menu_state_step by exact Hr.
    apply IH; [apply menu_case_reachable, R|].
    apply menu_case_no_pending; auto using reachable_wf. }
  apply H; [apply reach_init; assumption|].
  intros i p Hi. simpl in Hi. lia.
Qed.

Lemma menu_leaves_nothing_pending_witness :
  no_pending (menu_state bank0 [Choice1 "alice" 100%float; Choice2 1 50%float;
                                Choice3 7 1%float; Choice3 1 500%float]).
Proof.
  apply (menu_leaves_nothing_pending (repeat blank_account 1000) (repeat blank_process 100));
    reflexivity.
Defined.

(** X15: With the process table full, a deposit or withdrawal typed at the menu
    changes nothing: [createProcess] returns -1, [executeProcess (-1)] finds
    no transaction, and the two error lines are written. *)
Theorem menu_transaction_on_full_table s a amt :
  reachable s ->
  processCount s = MAX_PROCESSES ->
  menu_case s (Choice2 a amt)
  = (s, [Prompt "Enter account ID: "; Prompt "Enter amount to deposit: ";
         FromBank ErrMaxProcesses; FromBank ErrTransactionNotFound]) /\
  menu_case s (Choice3 a amt)
  = (s, [Prompt "Enter account ID: "; Prompt "Enter amount to withdraw: ";
         FromBank ErrMaxProcesses; FromBank ErrTransactionNotFound]).
Proof.
  intros R Hfull. apply reachable_wf in R.
  assert (forall ty,
    let cp := createProcess s a ty amt in
    cp = (-1, s, [ErrMaxProcesses]) /\
    executeProcess s (-1) = (s, [ErrTransactionNotFound])) as H.
  { intros ty. pose proof (create_then_execute s a ty amt R) as (_ & H2 & _).
    cbv zeta in H2. destruct H2 as (E1 & E2 & E3); [lia|].
    unfold createProcess in *. rewrite Hfull in *. simpl in *.
    split; [reflexivity|]. destruct (executeProcess s (-1)) as [s2 o2]. simpl in *.
    congruence. }
  split; simpl.
  - destruct (H "Deposit") as [-> ->]. reflexivity.
  - destruct (H "Withdraw") as [-> ->]. reflexivity.
Qed.

Lemma menu_transaction_on_full_table_witness :
  let s := run bank0 (repeat (CreateProcess 1 "Deposit" 1%float) 100) in
  menu_case s (Choice2 1 5%float)
  = (s, [Prompt "Enter account ID: "; Prompt "Enter amount to deposit: ";
         FromBank ErrMaxProcesses; FromBank ErrTransactionNotFound]) /\
  menu_case s (Choice3 1 5%float)
  = (s, [Prompt "Enter account ID: "; Prompt "Enter amount to withdraw: ";
         FromBank ErrMaxProcesses; FromBank ErrTransactionNotFound]).
Proof.
  intros s. apply (menu_transaction_on_full_table s 1 5%float).
  - apply run_reachable, reach_init; reflexivity.
  - vm_compute. reflexivity.
Defined.

(** X16: Case 4 of the menu tells an existing account from a missing one by
    comparing the value returned with -1, and that test is exact: in a
    reachable state the balance line is written, with the account's
    balance, exactly for the ids 1 .. [accountCount], and only the "Invalid
    account ID" line for any other id. *)
Theorem menu_check_balance s a :
  reachable s ->
  (1 <= a <= accountCount s ->
   exists acc, accounts s !! Z.to_nat (a - 1) = Some acc /\
     menu_case s (Choice4 a)
     = (s, [Prompt "Enter account ID: "; BalanceLine a (balance acc)])) /\
  (~ (1 <= a <= accountCount s) ->
   menu_case s (Choice4 a)
   = (s, [Prompt "Enter account ID: "; FromBank ErrInvalidAccountId])).
Proof.
  intros R. split.
  - intros Ha. destruct (checkBalance_found s a R Ha) as (acc & Hacc & Hcb & Hne).
    exists acc. split; [exact Hacc|]. simpl. rewrite Hcb, Hne. reflexivity.
  - intros Ha. destruct (findAccount_wf s a (reachable_wf s R)) as [_ H].
    simpl. unfold checkBalance. rewrite (H Ha). reflexivity.
Qed.

Lemma menu_check_balance_witness :
  let s := run bank0 [CreateAccount "alice" 100%float] in
  (exists acc, accounts s !! Z.to_nat (1 - 1) = Some acc /\
     menu_case s (Choice4 1)
     = (s, [Prompt "Enter account ID: "; BalanceLine 1 (balance acc)])) /\
  menu_case s (Choice4 2)
  = (s, [Prompt "Enter account ID: "; FromBank ErrInvalidAccountId]).
Proof.
  intros s.
  assert (reachable s) as R by (apply run_reachable, reach_init; reflexivity).
  split.
  - apply (proj1 (menu_check_balance s 1 R)). vm_compute. split; discriminate.
  - apply (proj2 (menu_check_balance s 2 R)). vm_compute. intros [_ H]. apply H. reflexivity.
Defined.

(** ** Leaving the menu *)

Lemma menu_returned s input : snd (menu s input) = true <-> In Choice6 input.
Proof.
  revert s. induction input as [|r rest IH]; intros s.
  - simpl. split; [discriminate|contradiction].
  - destruct (exit_or_not r) as [->|Hr].
    + simpl. split; auto.
    + assert (snd (menu s (r :: rest)) = snd (menu (fst (menu_case s r)) rest)) as ->.
      { cbn [menu]. destruct r; try congruence;
          destruct (menu_case s _) as [s1 o1]; simpl fst;
          destruct (menu s1 rest) as [[s2 o2] b]; reflexivity. }
      rewrite IH. simpl. split; [auto|]. intros [E|H]; [congruence|exact H].
Qed.

Lemma menu_stops_at_exit s before after :
  menu s (app before (Choice6 :: after)) = menu s (app before [Choice6]).
Proof.
  revert s. induction before as [|r rest IH]; intros s; [reflexivity|].
  cbn [app menu]. destruct r; try reflexivity;
    destruct (menu_case s _) as [s1 o1]; rewrite IH; reflexivity.
Qed.

(** X19: [main] returns 0 exactly when choice 6 is among the requests, and
    nothing typed after the first choice 6 has any effect: not on what is
    written, nor on the value returned. *)
Theorem main_returns_at_exit accs0 procs0 input before after :
  (fst (main accs0 procs0 input) = Some 0 <-> In Choice6 input) /\
  main accs0 procs0 (app before (Choice6 :: after))
  = main accs0 procs0 (app before [Choice6]).
Proof.
  split.
  - unfold main. rewrite <- (menu_returned (init accs0 procs0) input).
    destruct (menu (init accs0 procs0) input) as [[s o] b]. simpl.
    destruct b; split; congruence.
  - unfold main. rewrite menu_stops_at_exit. reflexivity.
Qed.

(** ** A deposit or withdrawal at the menu, then the balance *)

Lemma createProcess_fresh s a ty amt :
  wf s -> processCount s < MAX_PROCESSES ->
  let t := fst (fst (createProcess s a ty amt)) in
  let s1 := snd (fst (createProcess s a ty amt)) in
  wf s1 /\
  findProcess s1 t
  = Some (Z.to_nat (processCount s), mkProcess t a ty amt "Pending") /\
  (forall x, findAccount s1 x = findAccount s x).
Proof.
  intros W Hlt t s1.
  pose proof (createProcess_wf s a ty amt W) as W1. fold s1 in W1.
  subst t s1. unfold createProcess in *.
  destruct (Z.geb_spec (processCount s) MAX_PROCESSES) as [Hge|_]; [lia|].
  simpl fst in *. simpl snd in *. split; [exact W1|]. split; [|reflexivity].
  apply (findProcess_slot _ _ (mkProcess (nextTransactionId s) a ty amt "Pending") W1).
  - simpl. destruct W. lia.
  - simpl. apply list_lookup_insert_eq. destruct W. unfold MAX_PROCESSES in *. lia.
Qed.

Lemma executeProcess_withdraw s t i proc j acc :
  findProcess s t = Some (i, proc) ->
  type proc = "Withdraw" ->
  findAccount s (aid proc) = Some (j, acc) ->
  let s' := fst (executeProcess s t) in
  ((0 <? amount proc)%float = true -> (amount proc <=? balance acc)%float = true ->
   balance_at s' j = Some (balance acc - amount proc)%float /\
   status_at s' i = Some "Completed") /\
  ((balance acc <? amount proc)%float = true ->
   balance_at s' j = Some (balance acc) /\ status_at s' i = Some "Failed").
Proof.
  intros Hp Hty Ha s'. subst s'.
  rewrite (executeProcess_found s t i proc Hp), Ha, Hty.
  change (String.eqb "Withdraw" "Deposit") with false.
  change (String.eqb "Withdraw" "Withdraw") with true. cbv iota.
  apply findProcess_Some in Hp. destruct Hp as (Hp & _).
  apply findAccount_Some in Ha. destruct Ha as (Ha & _).
  split.
  - intros H0 Hab.
    rewrite (Double.lt0_not_le0 _ H0), (Double.le_not_gt _ _ Hab). simpl fst.
    unfold balance_at, status_at.
    rewrite status_at_set_status by exact Hp.
    change (accounts (set_status (set_balance s j acc (balance acc - amount proc)%float)
                                 i proc "Completed"))
      with (accounts (set_balance s j acc (balance acc - amount proc)%float)).
    rewrite account_at_set_balance by exact Ha. split; reflexivity.
  - intros ->. rewrite orb_true_r. simpl fst. unfold balance_at, status_at.
    rewrite status_at_set_status by exact Hp. simpl accounts. rewrite Ha.
    split; reflexivity.
Qed.

(** What [checkBalance] returns is the balance stored in the slot of the id. *)
Lemma checkBalance_slot s a j b :
  wf s -> 1 <= a <= accountCount s -> j = Z.to_nat (a - 1) ->
  balance_at s j = Some b -> checkBalance s a = (b, []).
Proof.
  intros W Ha -> Hb. destruct (proj1 (findAccount_wf s a W) Ha) as (acc & Hf & _).
  unfold checkBalance. rewrite Hf. apply findAccount_Some in Hf. destruct Hf as (Hacc & _).
  unfold balance_at in Hb. rewrite Hacc in Hb. simpl in Hb. congruence.
Qed.

Lemma menu_case_deposit_state s a amt :
  fst (menu_case s (Choice2 a amt))
  = fst (executeProcess (snd (fst (createProcess s a "Deposit" amt)))
                        (fst (fst (createProcess s a "Deposit" amt)))).
Proof.
  simpl. destruct (createProcess s a "Deposit" amt) as [[t s1] o1]. simpl.
  destruct (executeProcess s1 t) as [s2 o2]. reflexivity.
Qed.

Lemma menu_case_withdraw_state s a amt :
  fst (menu_case s (Choice3 a amt))
  = fst (executeProcess (snd (fst (createProcess s a "Withdraw" amt)))
                        (fst (fst (createProcess s a "Withdraw" amt)))).
Proof.
  simpl. destruct (createProcess s a "Withdraw" amt) as [[t s1] o1]. simpl.
  destruct (executeProcess s1 t) as [s2 o2]. reflexivity.
Qed.

(** Case 2 of the menu, once [findAccount] has returned slot [j]. *)
Lemma menu_deposit_found s a amt j acc :
  reachable s ->
  processCount s < MAX_PROCESSES ->
  findAccount s a = Some (j, acc) ->
  (0 <? amt)%float = true ->
  let s' := fst (menu_case s (Choice2 a amt)) in
  checkBalance s' a = ((balance acc + amt)%float, []) /\
  status_at s' (Z.to_nat (processCount s)) = Some "Completed".
Proof.
  intros R Hlt Hacc Hpos s'. subst s'. rewrite menu_case_deposit_state.
  pose proof (reachable_wf s R) as W.
  destruct (createProcess_fresh s a "Deposit" amt W Hlt) as (W1 & Hf & Hsame).
  cbv zeta in *.
  set (t := fst (fst (createProcess s a "Deposit" amt))) in *.
  set (s1 := snd (fst (createProcess s a "Deposit" amt))) in *.
  rewrite <- Hsame in Hacc.
  destruct (executeProcess_deposit s1 t _ _ j acc Hf eq_refl Hacc Hpos) as [Hb Hs].
  split; [|exact Hs].
  pose proof (exec_frame_wf _ _ (executeProcess_frame s1 t) W1) as W2.
  destruct (executeProcess_frame s1 t) as [Hc _ _ _ _ _].
  pose proof (findAccount_Some _ _ _ _ Hacc) as (Hslot & Hid & _ & Hj).
  destruct (wf_acc_ids s1 W1 j acc Hj Hslot) as [Hid' _].
  apply (checkBalance_slot _ a j); auto; lia.
Qed.

(** Case 3 of the menu, once [findAccount] has returned slot [j]. *)
Lemma menu_withdraw_found s a amt j acc :
  reachable s ->
  processCount s < MAX_PROCESSES ->
  findAccount s a = Some (j, acc) ->
  let s' := fst (menu_case s (Choice3 a amt)) in
  ((0 <? amt)%float = true -> (amt <=? balance acc)%float = true ->
   checkBalance s' a = ((balance acc - amt)%float, []) /\
   status_at s' (Z.to_nat (processCount s)) = Some "Completed") /\
  ((balance acc <? amt)%float = true ->
   checkBalance s' a = (balance acc, []) /\
   status_at s' (Z.to_nat (processCount s)) = Some "Failed").
Proof.
  intros R Hlt Hacc s'. subst s'. rewrite menu_case_withdraw_state.
  pose proof (reachable_wf s R) as W.
  destruct (createProcess_fresh s a "Withdraw" amt W Hlt) as (W1 & Hf & Hsame).
  cbv zeta in *.
  set (t := fst (fst (createProcess s a "Withdraw" amt))) in *.
  set (s1 := snd (fst (createProcess s a "Withdraw" amt))) in *.
  rewrite <- Hsame in Hacc.
  destruct (executeProcess_withdraw s1 t _ _ j acc Hf eq_refl Hacc) as [Hok Hfail].
  pose proof (exec_frame_wf _ _ (executeProcess_frame s1 t) W1) as W2.
  destruct (executeProcess_frame s1 t) as [Hc _ _ _ _ _].
  pose proof (findAccount_Some _ _ _ _ Hacc) as (Hslot & Hid & _ & Hj).
  destruct (wf_acc_ids s1 W1 j acc Hj Hslot) as [Hid' _].
  split.
  - intros H0 Hle. destruct (Hok H0 Hle) as [Hb Hs]. split; [|exact Hs].
    apply (checkBalance_slot _ a j); auto; lia.
  - intros Hgt. destruct (Hfail Hgt) as [Hb Hs]. split; [|exact Hs].
    apply (checkBalance_slot _ a j); auto; lia.
Qed.

(** ** Transactions on the accounts of a reachable bank (C2, C3)

    The account of a transaction is the one whose id is the transaction's
    [aid]: with ids 1 .. [accountCount] in use, the account in slot
    [aid - 1].  The transaction is taken in its slot of the process array,
    and executed by its tid. *)

Lemma account_in_slot s a acc :
  wf s -> 1 <= a <= accountCount s -> accounts s !! Z.to_nat (a - 1) = Some acc ->
  findAccount s a = Some (Z.to_nat (a - 1), acc).
Proof.
  intros W Ha Hacc. destruct (proj1 (findAccount_wf s a W) Ha) as (acc' & Hf & _).
  rewrite Hf. apply findAccount_Some in Hf. destruct Hf as (Hacc' & _). congruence.
Qed.

(** C2: in a reachable state, a stored Withdraw of amount [a] on the
    existing account of id [aid], whose balance is [b].  When [0 < a <= b]
    executing it makes that account's balance [b - a] and its status
    Completed; when [a > b] or [a <= 0] it leaves the accounts unchanged and
    makes its status Failed.  ([b - a] is the [double] difference, the
    comparisons are those of [double].) *)
Theorem withdraw_execution s i proc acc :
  reachable s ->
  (i < Z.to_nat (processCount s))%nat ->
  processes s !! i = Some proc ->
  type proc = "Withdraw" ->
  1 <= aid proc <= accountCount s ->
  accounts s !! Z.to_nat (aid proc - 1) = Some acc ->
  let a := amount proc in
  let b := balance acc in
  let j := Z.to_nat (aid proc - 1) in
  let s' := fst (executeProcess s (tid proc)) in
  ((0 <? a)%float = true -> (a <=? b)%float = true ->
   balance_at s' j = Some (b - a)%float /\ status_at s' i = Some "Completed") /\
  ((b <? a)%float = true \/ (a <=? 0)%float = true ->
   accounts s' = accounts s /\ balance_at s' j = Some b /\
   status_at s' i = Some "Failed" /\
   snd (executeProcess s (tid proc)) = [ErrInsufficientOrInvalid]).
Proof.
  intros R Hi Hp Hty Ha Hacc. apply reachable_wf in R.
  exact (withdraw_found s (tid proc) i proc _ acc
           (findProcess_slot s i proc R Hi Hp) Hty
           (account_in_slot s (aid proc) acc R Ha Hacc)).
Qed.

Lemma withdraw_execution_witness :
  let s := run bank0 [CreateAccount "alice" 100%float; CreateAccount "bob" 40%float;
                      CreateProcess 2 "Withdraw" 30%float;
                      CreateProcess 2 "Withdraw" 200%float] in
  (balance_at (fst (executeProcess s 1)) 1 = Some 10%float /\
   status_at (fst (executeProcess s 1)) 0 = Some "Completed") /\
  (accounts (fst (executeProcess s 2)) = accounts s /\
   balance_at (fst (executeProcess s 2)) 1 = Some 40%float /\
   status_at (fst (executeProcess s 2)) 1 = Some "Failed" /\
   snd (executeProcess s 2) = [ErrInsufficientOrInvalid]).
Proof.
  intros s.
  assert (reachable s) as R by (apply run_reachable, reach_init; reflexivity).
  split.
  - apply (proj1 (withdraw_execution s 0 (mkProcess 1 2 "Withdraw" 30%float "Pending")
                    (mkAccount 2 "bob" 40%float true) R
                    ltac:(vm_compute; lia) eq_refl eq_refl
                    ltac:(vm_compute; split; discriminate) eq_refl));
      reflexivity.
  - apply (proj2 (withdraw_execution s 1 (mkProcess 2 2 "Withdraw" 200%float "Pending")
                    (mkAccount 2 "bob" 40%float true) R
                    ltac:(vm_compute; lia) eq_refl eq_refl
                    ltac:(vm_compute; split; discriminate) eq_refl)).
    left. reflexivity.
Defined.

(** C3: in a reachable state, a stored Deposit of amount [a] on the
    existing active account of id [aid], whose balance is [b].  When [a > 0]
    executing it makes that account's balance [b + a] and its status
    Completed; when [a <= 0] it leaves the accounts unchanged and makes its
    status Failed. *)
Theorem deposit_execution s i proc acc :
  reachable s ->
  (i < Z.to_nat (processCount s))%nat ->
  processes s !! i = Some proc ->
  type proc = "Deposit" ->
  1 <= aid proc <= accountCount s ->
  accounts s !! Z.to_nat (aid proc - 1) = Some acc ->
  let a := amount proc in
  let b := balance acc in
  let j := Z.to_nat (aid proc - 1) in
  let s' := fst (executeProcess s (tid proc)) in
  ((0 <? a)%float = true ->
   balance_at s' j = Some (b + a)%float /\ status_at s' i = Some "Completed") /\
  ((a <=? 0)%float = true ->
   accounts s' = accounts s /\ balance_at s' j = Some b /\
   status_at s' i = Some "Failed" /\
   snd (executeProcess s (tid proc)) = [ErrInvalidDeposit]).
Proof.
  intros R Hi Hp Hty Ha Hacc. apply reachable_wf in R.
  exact (deposit_found s (tid proc) i proc _ acc
           (findProcess_slot s i proc R Hi Hp) Hty
           (account_in_slot s (aid proc) acc R Ha Hacc)).
Qed.

Lemma deposit_execution_witness :
  let s := run bank0 [CreateAccount "alice" 100%float; CreateAccount "bob" 40%float;
                      CreateProcess 2 "Deposit" 50%float;
                      CreateProcess 2 "Deposit" (-5)%float] in
  (balance_at (fst (executeProcess s 1)) 1 = Some 90%float /\
   status_at (fst (executeProcess s 1)) 0 = Some "Completed") /\
  (accounts (fst (executeProcess s 2)) = accounts s /\
   balance_at (fst (executeProcess s 2)) 1 = Some 40%float /\
   status_at (fst (executeProcess s 2)) 1 = Some "Failed" /\
   snd (executeProcess s 2) = [ErrInvalidDeposit]).
Proof.
  intros s.
  assert (reachable s) as R by (apply run_reachable, reach_init; reflexivity).
  split.
  - apply (proj1 (deposit_execution s 0 (mkProcess 1 2 "Deposit" 50%float "Pending")
                    (mkAccount 2 "bob" 40%float true) R
                    ltac:(vm_compute; lia) eq_refl eq_refl
                    ltac:(vm_compute; split; discriminate) eq_refl));
      reflexivity.
  - apply (proj2 (deposit_execution s 1 (mkProcess 2 2 "Deposit" (-5)%float "Pending")
                    (mkAccount 2 "bob" 40%float true) R
                    ltac:(vm_compute; lia) eq_refl eq_refl
                    ltac:(vm_compute; split; discriminate) eq_refl)).
    reflexivity.
Defined.

(** X9: The guard of a withdrawal is [balance < amount], so the whole balance
    can be withdrawn: in a reachable state, a stored Withdraw of exactly the
    balance of the existing account of id [aid], that balance being finite
    and positive, completes and leaves that account's balance 0. *)
Theorem withdraw_whole_balance s i proc acc :
  reachable s ->
  (i < Z.to_nat (processCount s))%nat ->
  processes s !! i = Some proc ->
  type proc = "Withdraw" ->
  1 <= aid proc <= accountCount s ->
  accounts s !! Z.to_nat (aid proc - 1) = Some acc ->
  amount proc = balance acc ->
  is_finite (balance acc) = true ->
  (0 <? balance acc)%float = true ->
  let s' := fst (executeProcess s (tid proc)) in
  balance_at s' (Z.to_nat (aid proc - 1)) = Some 0%float /\
  status_at s' i = Some "Completed".
Proof.
  intros R Hi Hp Hty Ha Hacc. apply reachable_wf in R.
  exact (withdraw_whole_found s (tid proc) i proc _ acc
           (findProcess_slot s i proc R Hi Hp) Hty
           (account_in_slot s (aid proc) acc R Ha Hacc)).
Qed.

Lemma withdraw_whole_balance_witness :
  let s := run bank0 [CreateAccount "alice" 100%float; CreateAccount "bob" 40%float;
                      CreateProcess 2 "Withdraw" 40%float] in
  let s' := fst (executeProcess s 1) in
  balance_at s' 1 = Some 0%float /\ status_at s' 0 = Some "Completed".
Proof.
  intros s.
  apply (withdraw_whole_balance s 0 (mkProcess 1 2 "Withdraw" 40%float "Pending")
           (mkAccount 2 "bob" 40%float true)); try reflexivity.
  - apply run_reachable, reach_init; reflexivity.
  - vm_compute. lia.
  - vm_compute. split; discriminate.
Defined.

(** X17: A deposit typed at the menu is seen by the next balance check: in a
    reachable state with room in the process table, depositing a positive
    amount to the existing account of id [a] (one of 1 .. [accountCount])
    records a Completed transaction, and [checkBalance] on that account then
    returns the old balance plus the amount. *)
Theorem menu_deposit_then_balance s a amt acc :
  reachable s ->
  processCount s < MAX_PROCESSES ->
  1 <= a <= accountCount s ->
  accounts s !! Z.to_nat (a - 1) = Some acc ->
  (0 <? amt)%float = true ->
  let s' := fst (menu_case s (Choice2 a amt)) in
  checkBalance s' a = ((balance acc + amt)%float, []) /\
  status_at s' (Z.to_nat (processCount s)) = Some "Completed".
Proof.
  intros R Hlt Ha Hacc Hpos.
  exact (menu_deposit_found s a amt _ acc R Hlt
           (account_in_slot s a acc (reachable_wf s R) Ha Hacc) Hpos).
Qed.

Lemma menu_deposit_then_balance_witness :
  let s := menu_state bank0 [Choice1 "alice" 100%float; Choice1 "bob" 40%float] in
  let s' := fst (menu_case s (Choice2 2 50%float)) in
  checkBalance s' 2 = (90%float, []) /\
  status_at s' (Z.to_nat (processCount s)) = Some "Completed".
Proof.
  intros s.
  apply (menu_deposit_then_balance s 2 50%float (mkAccount 2 "bob" 40%float true)).
  - apply menu_reachable, reach_init; reflexivity.
  - reflexivity.
  - vm_compute. split; discriminate.
  - reflexivity.
  - reflexivity.
Defined.

(** X18: A withdrawal typed at the menu, likewise, on the existing account of
    id [a] (one of 1 .. [accountCount]): of a positive amount not above the
    balance it records a Completed transaction and the next balance check
    returns the old balance minus the amount; of an amount above the balance
    it records a Failed transaction and the balance is as before. *)
Theorem menu_withdraw_then_balance s a amt acc :
  reachable s ->
  processCount s < MAX_PROCESSES ->
  1 <= a <= accountCount s ->
  accounts s !! Z.to_nat (a - 1) = Some acc ->
  let s' := fst (menu_case s (Choice3 a amt)) in
  ((0 <? amt)%float = true -> (amt <=? balance acc)%float = true ->
   checkBalance s' a = ((balance acc - amt)%float, []) /\
   status_at s' (Z.to_nat (processCount s)) = Some "Completed") /\
  ((balance acc <? amt)%float = true ->
   checkBalance s' a = (balance acc, []) /\
   status_at s' (Z.to_nat (processCount s)) = Some "Failed").
Proof.
  intros R Hlt Ha Hacc.
  exact (menu_withdraw_found s a amt _ acc R Hlt
           (account_in_slot s a acc (reachable_wf s R) Ha Hacc)).
Qed.

Lemma menu_withdraw_then_balance_witness :
  let s := menu_state bank0 [Choice1 "alice" 100%float; Choice1 "bob" 40%float] in
  (checkBalance (fst (menu_case s (Choice3 2 30%float))) 2 = (10%float, []) /\
   status_at (fst (menu_case s (Choice3 2 30%float))) (Z.to_nat (processCount s))
   = Some "Completed") /\
  (checkBalance (fst (menu_case s (Choice3 2 200%float))) 2 = (40%float, []) /\
   status_at (fst (menu_case s (Choice3 2 200%float))) (Z.to_nat (processCount s))
   = Some "Failed").
Proof.
  intros s.
  assert (reachable s) as R by (apply menu_reachable, reach_init; reflexivity).
  split.
  - apply (proj1 (menu_withdraw_then_balance s 2 30%float
                    (mkAccount 2 "bob" 40%float true) R eq_refl
                    ltac:(vm_compute; split; discriminate) eq_refl)); reflexivity.
  - apply (proj2 (menu_withdraw_then_balance s 2 200%float
                    (mkAccount 2 "bob" 40%float true) R eq_refl
                    ltac:(vm_compute; split; discriminate) eq_refl)); reflexivity.
Defined.


(** * Concurrent calls of [executeProcess] *)

(** ** One thread alone *)

Lemma solo_plus k t n d pc sh :
  solo k t (n + d) pc sh
  = match solo k t n pc sh with
    | Some (pc', sh') => solo k t d pc' sh'
    | None => None
    end.
Proof.
  revert pc sh. induction n as [|n IH]; intros pc sh; simpl; [reflexivity|].
  destruct (thread_step k t pc sh) as [[pc' sh']|]; [apply IH|reflexivity].
Qed.

Lemma solo_glue k t n d pc sh pc1 sh1 r :
  solo k t n pc sh = Some (pc1, sh1) -> solo k t d pc1 sh1 = r ->
  solo k t (n + d) pc sh = r.
Proof. intros H1 H2. rewrite solo_plus, H1. exact H2. Qed.

Lemma solo_done k t n sh pc sh' :
  solo k t n Done sh = Some (pc, sh') -> n = 0%nat /\ pc = Done /\ sh' = sh.
Proof. destruct n; simpl; [intros [= <- <-]; auto|discriminate]. Qed.

Lemma loop_test_more (i n : nat) (count : Z) :
  (i + S n = Z.to_nat count)%nat -> (Z.of_nat i <? count) = true.
Proof. intros H. apply Z.ltb_lt. lia. Qed.

Lemma loop_test_end (i : nat) (count : Z) :
  (i + 0 = Z.to_nat count)%nat -> (Z.of_nat i <? count) = false.
Proof. intros H. apply Z.ltb_ge. lia. Qed.

(** The loop of [executeProcess], iteration by iteration, ends where [scan]
    does. *)
Lemma solo_InLoop k t sh n i :
  (i + n = Z.to_nat (processCount (bank sh)))%nat ->
  exists m, (m <= S n)%nat /\
    solo k t m (InLoop i) sh
    = Some (match scan (fun p => tid p =? t) (processes (bank sh)) i n with
            | Some (i', _) => AtProc i'
            | None => NotFound
            end, sh).
Proof.
  revert i. induction n as [|n IH]; intros i Hi.
  - exists 1%nat. split; [lia|]. cbn [solo thread_step scan].
    rewrite (loop_test_end _ _ Hi). reflexivity.
  - cbn [scan]. destruct (processes (bank sh) !! i) as [proc|] eqn:Hp.
    + destruct (tid proc =? t) eqn:Ht.
      * exists 1%nat. split; [lia|]. cbn [solo thread_step].
        rewrite (loop_test_more _ _ _ Hi), Hp, Ht. reflexivity.
      * destruct (IH (S i)) as (m & Hm & Hs); [lia|]. exists (S m). split; [lia|].
        cbn [solo thread_step]. rewrite (loop_test_more _ _ _ Hi), Hp, Ht. exact Hs.
    + exists 1%nat. split; [lia|]. cbn [solo thread_step].
      rewrite (loop_test_more _ _ _ Hi), Hp. reflexivity.
Qed.

(** The loop of [findAccount], likewise. *)
Lemma solo_InFind k t sh i a n j :
  (j + n = Z.to_nat (accountCount (bank sh)))%nat ->
  exists m, (m <= S n)%nat /\
    solo k t m (InFind i a j) sh
    = Some (match scan (fun x => active x && (id x =? a)) (accounts (bank sh)) j n with
            | Some (j', _) => AtAccLock i j'
            | None => AccNull i
            end, sh).
Proof.
  revert j. induction n as [|n IH]; intros j Hj.
  - exists 1%nat. split; [lia|]. cbn [solo thread_step scan].
    rewrite (loop_test_end _ _ Hj). reflexivity.
  - cbn [scan]. destruct (accounts (bank sh) !! j) as [acc|] eqn:Hp.
    + destruct (active acc && (id acc =? a)) eqn:Ht.
      * exists 1%nat. split; [lia|]. cbn [solo thread_step].
        rewrite (loop_test_more _ _ _ Hj), Hp, Ht. reflexivity.
      * destruct (IH (S j)) as (m & Hm & Hs); [lia|]. exists (S m). split; [lia|].
        cbn [solo thread_step]. rewrite (loop_test_more _ _ _ Hj), Hp, Ht. exact Hs.
    + exists 1%nat. split; [lia|]. cbn [solo thread_step].
      rewrite (loop_test_more _ _ _ Hj), Hp. reflexivity.
Qed.

(** A thread that finds both kinds of mutex free and runs alone reaches the
    end of the body, within [body_steps], and has then done to the bank and
    to [cout] what [executeProcess] does. *)
Lemma solo_executes k t base :
  bankMutex base = None -> (forall j, accMutex base j = None) ->
  exists m sh,
    (m <= body_steps (bank base))%nat /\
    solo k t m AtStart base = Some (Done, sh) /\
    bank sh = fst (executeProcess (bank base) t) /\
    cout sh = app (cout base) (snd (executeProcess (bank base) t)) /\
    bankMutex sh = None /\ (forall j, accMutex sh j = None).
Proof.
  intros Hb Hacc. destruct base as [s o bm am]. simpl in Hb, Hacc. subst bm.
  simpl bank. simpl cout. unfold body_steps.
  set (P := Z.to_nat (processCount s)). set (A := Z.to_nat (accountCount s)).
  destruct (solo_InLoop k t (mkShared s o (Some k) am) P 0) as (m1 & Hm1 & Hloop);
    [reflexivity|].
  simpl bank in Hloop. fold (findProcess s t) in Hloop.
  assert (forall d r, solo k t d (match findProcess s t with
                                  | Some (i', _) => AtProc i'
                                  | None => NotFound
                                  end) (mkShared s o (Some k) am) = r ->
                      solo k t (1 + (m1 + d)) AtStart (mkShared s o None am) = r) as Hin.
  { intros d r Hr. eapply solo_glue; [reflexivity|]. eapply solo_glue; eauto. }
  destruct (findProcess s t) as [[i proc]|] eqn:Hf.
  2:{ assert (executeProcess s t = (s, [ErrTransactionNotFound])) as ->.
      { unfold executeProcess. unfold findProcess in Hf. rewrite Hf. reflexivity. }
      exists (1 + (m1 + 2))%nat. eexists. split; [lia|]. split; [apply Hin; reflexivity|].
      simpl. repeat split; auto. }
  rewrite (executeProcess_found s t i proc Hf).
  pose proof (findProcess_Some _ _ _ _ Hf) as (Hp & _).
  destruct (solo_InFind k t (mkShared s o (Some k) am) i (aid proc) A 0) as (m2 & Hm2 & Hfind);
    [reflexivity|].
  simpl bank in Hfind. fold (findAccount s (aid proc)) in Hfind.
  assert (forall d r, solo k t d (match findAccount s (aid proc) with
                                  | Some (j', _) => AtAccLock i j'
                                  | None => AccNull i
                                  end) (mkShared s o (Some k) am) = r ->
                      solo k t (1 + (m1 + (1 + (m2 + d)))) AtStart (mkShared s o None am) = r)
    as Hin2.
  { intros d r Hr. apply Hin. eapply solo_glue; [simpl; rewrite Hp; reflexivity|].
    eapply solo_glue; eauto. }
  destruct (findAccount s (aid proc)) as [[j acc]|] eqn:Ha.
  2:{ exists (1 + (m1 + (1 + (m2 + 3))))%nat. eexists. split; [lia|].
      split; [apply Hin2; simpl; rewrite Hp; reflexivity|].
      simpl. repeat split; auto. }
  pose proof (findAccount_Some _ _ _ _ Ha) as (Hj & _).
  set (am' := fun j' => if Nat.eqb j' j then Some k else am j').
  assert (forall q, exists sh,
             solo k t 4 (AtReject i j q) (mkShared s o (Some k) am') = Some (Done, sh) /\
             bank sh = set_status s i proc "Failed" /\ cout sh = app o [q] /\
             bankMutex sh = None /\ (forall j0, accMutex sh j0 = None)) as Hrej.
  { intros q. eexists. simpl. rewrite Hp. simpl. split; [reflexivity|]. simpl.
    repeat split; auto. intros j0. unfold am'. destruct (Nat.eqb j0 j); auto. }
  assert (forall dep b, exists sh,
             solo k t 5 (AtStore i j dep b) (mkShared s o (Some k) am') = Some (Done, sh) /\
             bank sh = set_status (set_balance s j acc b) i proc "Completed" /\
             cout sh = app o [if dep then DepositSuccessful t b
                              else WithdrawalSuccessful t b] /\
             bankMutex sh = None /\ (forall j0, accMutex sh j0 = None)) as Hok.
  { intros dep b. eexists. simpl. rewrite Hj. simpl. rewrite Hp. simpl.
    rewrite list_lookup_insert_eq by (eapply lookup_lt_Some; eauto). simpl.
    split; [reflexivity|]. simpl. repeat split; auto.
    intros j0. unfold am'. destruct (Nat.eqb j0 j); auto. }
  assert (forall d r, solo k t d (AtType i j) (mkShared s o (Some k) am') = r ->
                      solo k t (1 + (m1 + (1 + (m2 + (1 + d))))) AtStart (mkShared s o None am) = r)
    as Hin3.
  { intros d r Hr. apply Hin2. eapply solo_glue; [|exact Hr].
    simpl. rewrite Hacc. reflexivity. }
  destruct (String.eqb (type proc) "Deposit") eqn:Ed.
  - destruct (amount proc <=? 0)%float eqn:Hle.
    + destruct (Hrej ErrInvalidDeposit) as (sh & H1 & H2 & H3 & H4).
      exists (1 + (m1 + (1 + (m2 + (1 + (1 + 4))))))%nat, sh. split; [lia|].
      split; [|simpl; repeat split; tauto].
      apply Hin3. eapply solo_glue; [|exact H1]. simpl. rewrite Hp, Hj, Ed, Hle. reflexivity.
    + destruct (Hok true (balance acc + amount proc)%float) as (sh & H1 & H2 & H3 & H4).
      exists (1 + (m1 + (1 + (m2 + (1 + (2 + 5))))))%nat, sh. split; [lia|].
      split; [|simpl; repeat split; tauto].
      apply Hin3. eapply solo_glue; [|exact H1]. simpl. rewrite Hp, Hj, Ed, Hle.
      simpl. rewrite Hp, Hj. reflexivity.
  - destruct (String.eqb (type proc) "Withdraw") eqn:Ew.
    + destruct ((amount proc <=? 0)%float || (balance acc <? amount proc)%float) eqn:Hg.
      * destruct (Hrej ErrInsufficientOrInvalid) as (sh & H1 & H2 & H3 & H4).
        exists (1 + (m1 + (1 + (m2 + (1 + (1 + 4))))))%nat, sh. split; [lia|].
        split; [|simpl; repeat split; tauto].
        apply Hin3. eapply solo_glue; [|exact H1].
        simpl. rewrite Hp, Hj, Ed, Ew, Hg. reflexivity.
      * destruct (Hok false (balance acc - amount proc)%float) as (sh & H1 & H2 & H3 & H4).
        exists (1 + (m1 + (1 + (m2 + (1 + (2 + 5))))))%nat, sh. split; [lia|].
        split; [|simpl; repeat split; tauto].
        apply Hin3. eapply solo_glue; [|exact H1]. simpl. rewrite Hp, Hj, Ed, Ew, Hg.
        simpl. rewrite Hp, Hj. reflexivity.
    + destruct (Hrej ErrUnknownType) as (sh & H1 & H2 & H3 & H4).
      exists (1 + (m1 + (1 + (m2 + (1 + (1 + 4))))))%nat, sh. split; [lia|].
      split; [|simpl; repeat split; tauto].
      apply Hin3. eapply solo_glue; [|exact H1]. simpl. rewrite Hp, Hj, Ed, Ew. reflexivity.
Qed.

Ltac step_cases H :=
  repeat match type of H with
         | match ?x with _ => _ end = _ => destruct x eqn:?
         end;
  try discriminate; injection H as <- <-.

Lemma thread_step_started k t pc sh pc' sh' :
  thread_step k t pc sh = Some (pc', sh') -> pc' <> AtStart.
Proof. destruct pc; simpl; intros H; step_cases H; discriminate. Qed.

Lemma thread_step_lock k t pc sh pc' sh' :
  pc <> AtStart -> thread_step k t pc sh = Some (pc', sh') ->
  if is_done pc' then bankMutex sh' = None else bankMutex sh' = bankMutex sh.
Proof.
  intros Hpc. destruct pc; simpl; intros H; try congruence; step_cases H; reflexivity.
Qed.

(** Mutual exclusion, seen from the thread inside: from the step that takes
    [bankMutex] until the step that gives it back, the thread holds it. *)
Lemma solo_inside k t n pc0 sh0 pc sh :
  pc0 <> AtStart -> (is_done pc0 = false -> bankMutex sh0 = Some k) ->
  solo k t n pc0 sh0 = Some (pc, sh) ->
  pc <> AtStart /\ (is_done pc = false -> bankMutex sh = Some k).
Proof.
  revert pc0 sh0. induction n as [|n IH]; intros pc0 sh0 H0 Hl; simpl.
  - intros [= <- <-]. auto.
  - destruct (thread_step k t pc0 sh0) as [[pc1 sh1]|] eqn:E; [|discriminate].
    apply IH.
    + exact (thread_step_started _ _ _ _ _ _ E).
    + pose proof (thread_step_lock _ _ _ _ _ _ H0 E) as L. intros Hd. rewrite Hd in L.
      rewrite L. apply Hl. destruct pc0; try reflexivity. discriminate E.
Qed.

Lemma solo_from_start k t n base pc sh :
  bankMutex base = None ->
  solo k t (S n) AtStart base = Some (pc, sh) ->
  pc <> AtStart /\ (is_done pc = false -> bankMutex sh = Some k).
Proof.
  intros Hb. simpl. rewrite Hb. apply solo_inside; [discriminate|reflexivity].
Qed.

Lemma solo_ends_once k t n m pc0 sh0 sh1 sh2 :
  solo k t n pc0 sh0 = Some (Done, sh1) ->
  solo k t m pc0 sh0 = Some (Done, sh2) ->
  n = m /\ sh1 = sh2.
Proof.
  revert m pc0 sh0. induction n as [|n IH]; intros m pc0 sh0; simpl.
  - intros [= -> ->] H. apply solo_done in H. destruct H as (-> & _ & ->). auto.
  - destruct (thread_step k t pc0 sh0) as [[pc1 sh1']|] eqn:E; [|discriminate].
    intros H1 H2. destruct m as [|m]; simpl in H2.
    + injection H2 as -> ->. discriminate E.
    + rewrite E in H2. destruct (IH _ _ _ H1 H2) as [-> ->]. auto.
Qed.

(** A thread that has started and not finished can take its next step, and
    has taken fewer than [body_steps]. *)
Lemma solo_not_stuck k t n base pc sh :
  bankMutex base = None -> (forall j, accMutex base j = None) ->
  solo k t n AtStart base = Some (pc, sh) -> is_done pc = false ->
  thread_step k t pc sh <> None /\ (n < body_steps (bank base))%nat.
Proof.
  intros Hb Ha Hs Hd.
  destruct (solo_executes k t base Hb Ha) as (m & shD & Hbound & Hm & _).
  destruct (Nat.le_gt_cases m n) as [Hle|Hlt].
  - replace n with (m + (n - m))%nat in Hs by lia.
    rewrite solo_plus, Hm in Hs. apply solo_done in Hs. destruct Hs as (_ & -> & _).
    discriminate Hd.
  - split; [|lia]. replace m with (n + S (m - n - 1))%nat in Hm by lia.
    rewrite solo_plus, Hs in Hm. simpl in Hm.
    destruct (thread_step k t pc sh); [discriminate|discriminate Hm].
Qed.

Lemma solo_finished k t n base sh :
  bankMutex base = None -> (forall j, accMutex base j = None) ->
  solo k t n AtStart base = Some (Done, sh) ->
  (n <= body_steps (bank base))%nat /\
  bank sh = fst (executeProcess (bank base) t) /\
  cout sh = app (cout base) (snd (executeProcess (bank base) t)) /\
  bankMutex sh = None /\ (forall j, accMutex sh j = None).
Proof.
  intros Hb Ha Hs.
  destruct (solo_executes k t base Hb Ha) as (m & shD & Hbound & Hm & H1 & H2 & H3 & H4).
  destruct (solo_ends_once _ _ _ _ _ _ _ _ Hs Hm) as [-> ->]. auto.
Qed.

(** ** Interleavings of the threads *)

Lemma run_app s ops1 ops2 : run s (app ops1 ops2) = run (run s ops1) ops2.
Proof. revert s. induction ops1 as [|op ops1 IH]; intros s; simpl; auto. Qed.

Lemma run_execute s t : run s [ExecuteProcess t] = fst (executeProcess s t).
Proof.
  simpl. unfold step_state. simpl. destruct (executeProcess s t); reflexivity.
Qed.

Lemma run_executes_counts s order :
  processCount (run s (map ExecuteProcess order)) = processCount s /\
  accountCount (run s (map ExecuteProcess order)) = accountCount s.
Proof.
  revert s. induction order as [|x order IH]; intros s; simpl; auto.
  destruct (IH (step_state s (ExecuteProcess x))) as [-> ->].
  pose proof (executeProcess_frame s x) as F.
  unfold step_state. simpl. destruct (executeProcess s x) as [s1 o]. simpl in *.
  destruct F; auto.
Qed.

Lemma body_steps_run s order :
  body_steps (run s (map ExecuteProcess order)) = body_steps s.
Proof.
  unfold body_steps. destruct (run_executes_counts s order) as [-> ->]. reflexivity.
Qed.

Lemma calls_of_app calls order k t :
  calls !! k = Some t -> calls_of calls (app order [k]) = app (calls_of calls order) [t].
Proof.
  intros H. unfold calls_of. rewrite omap_app. simpl. rewrite H. reflexivity.
Qed.

Lemma calls_of_all_aux (pre l : list Z) :
  omap (fun k => (app pre l) !! k) (seq (length pre) (length l)) = l.
Proof.
  revert pre. induction l as [|x l IH]; intros pre; [reflexivity|].
  simpl seq. simpl omap.
  rewrite (list_lookup_middle pre l x (length pre) eq_refl).
  f_equal. specialize (IH (app pre [x])).
  rewrite length_app in IH. simpl in IH. rewrite Nat.add_1_r in IH.
  rewrite <- app_assoc in IH. exact IH.
Qed.

Lemma calls_of_all calls : calls_of calls (seq 0 (length calls)) = calls.
Proof. exact (calls_of_all_aux [] calls). Qed.

(** When every thread is in [order] once, the calls of [order] are the
    calls, in another order. *)
Lemma calls_of_Permutation calls order :
  NoDup order -> (forall k, In k order <-> (k < length calls)%nat) ->
  Permutation (calls_of calls order) calls.
Proof.
  intros Hnd Hin.
  assert (Permutation order (seq 0 (length calls))) as P.
  { apply NoDup_Permutation.
    - exact Hnd.
    - apply NoDup_ListNoDup, List.seq_NoDup.
    - intros k. rewrite !list_elem_of_In, Hin, in_seq. lia. }
  rewrite <- (calls_of_all calls) at 2. unfold calls_of.
  apply omap_Permutation. exact P.
Qed.

Lemma order_length (order : list nat) (N : nat) :
  NoDup order -> (forall k, In k order -> (k < N)%nat) -> (length order <= N)%nat.
Proof.
  intros Hnd Hin. replace N with (length (seq 0 N)) by apply length_seq.
  apply submseteq_length.
  apply NoDup_submseteq; [exact Hnd|].
  intros k Hk. apply list_elem_of_In in Hk. apply Hin in Hk.
  apply list_elem_of_In, in_seq. lia.
Qed.

Lemma sys_step_inv calls k c c' :
  sys_step calls k c = Some c' ->
  exists t pc pc', calls !! k = Some t /\ pcs c !! k = Some pc /\
    thread_step k t pc (shared c) = Some (pc', shared c') /\
    pcs c' = <[ k := pc' ]> (pcs c).
Proof.
  unfold sys_step. intros H.
  destruct (calls !! k) as [t|]; [|discriminate].
  destruct (pcs c !! k) as [pc|]; [|discriminate].
  destruct (thread_step k t pc (shared c)) as [[pc' sh']|] eqn:E; [|discriminate].
  injection H as <-. exists t, pc, pc'. simpl. auto.
Qed.

Lemma steps_threads calls n c c' :
  steps calls n c c' -> length (pcs c') = length (pcs c).
Proof.
  induction 1 as [c|n k c c1 c2 Hs _ IH]; [reflexivity|].
  apply sys_step_inv in Hs. destruct Hs as (t & pc & pc' & _ & _ & _ & Hl).
  rewrite IH, Hl. apply length_insert.
Qed.

Lemma steps_from_start s calls n c :
  steps calls n (start s calls) c -> length (pcs c) = length calls.
Proof.
  intros H. apply steps_threads in H. simpl in H. rewrite repeat_length in H. exact H.
Qed.

Lemma schedule_steps calls schedule c :
  steps calls (moves calls schedule c) c (run_schedule calls schedule c).
Proof.
  revert c. induction schedule as [|k rest IH]; intros c; simpl.
  - constructor.
  - destruct (sys_step calls k c) as [c'|] eqn:E.
    + econstructor; [exact E|apply IH].
    + apply IH.
Qed.

Lemma lookup_repeat {A} (x y : A) n k : repeat x n !! k = Some y -> y = x.
Proof.
  revert k. induction n as [|n IH]; intros k; simpl; [discriminate|].
  destruct k as [|k]; simpl; [congruence|apply IH].
Qed.

Lemma linearized_start s calls : linearized s calls 0 (start s calls).
Proof.
  apply lin_free with (order := []); simpl; auto.
  - constructor.
  - intros k. split; [contradiction|].
    intros H. apply lookup_repeat in H. discriminate.
  - intros k pc H. apply lookup_repeat in H. auto.
  - lia.
Qed.

(** Mutual exclusion and linearization: whatever thread moves, one thread at
    most is inside the body, and a thread that leaves it has done to the bank
    what one whole call of [executeProcess] does. *)
Lemma linearized_step s0 calls n k c c' :
  linearized s0 calls n c -> sys_step calls k c = Some c' ->
  linearized s0 calls (S n) c'.
Proof.
  intros L H. apply sys_step_inv in H.
  destruct H as (t & pc & pc' & Ht & Hpc & Hs & Hl).
  assert (k < length (pcs c))%nat as Hk by (eapply lookup_lt_Some; eauto).
  assert (pcs c' !! k = Some pc') as Hpc'.
  { rewrite Hl. apply list_lookup_insert_eq. exact Hk. }
  assert (forall k', k' <> k -> pcs c' !! k' = pcs c !! k') as Hother.
  { intros k' Hne. rewrite Hl. apply list_lookup_insert_ne. auto. }
  destruct L as [order Hb Ha Hnd Hdone Hout Hbank Hn
                |order h th base m pch Hth Hpch Hns Hnd' Hb Hbb Hba Hbank Hsolo
                   Hnd Hnin Hdone Hout Hn].
  - destruct (Hout k pc Hpc) as [-> | ->]; [|discriminate Hs].
    simpl in Hs. rewrite Hb in Hs. injection Hs as <- Hsh.
    apply lin_held with (order := order) (k := k) (t := t) (base := shared c)
                        (m := 1%nat) (pc := InLoop 0); auto; try discriminate.
    + rewrite <- Hsh. reflexivity.
    + simpl. rewrite Hb, Hsh. reflexivity.
    + intros Hin. apply Hdone in Hin. congruence.
    + intros k'. destruct (Nat.eq_dec k' k) as [->|Hne].
      * rewrite Hpc'. split; [|discriminate]. intros Hin. apply Hdone in Hin. congruence.
      * rewrite (Hother k' Hne). apply Hdone.
    + intros k' pc0 Hne. rewrite (Hother k' Hne). apply Hout.
    + lia.
  - destruct (Nat.eq_dec k h) as [->|Hne].
    2:{ destruct (Hout k pc Hne Hpc) as [-> | ->]; [|discriminate Hs].
        simpl in Hs. rewrite Hb in Hs. discriminate Hs. }
    assert (t = th) as -> by congruence. assert (pc = pch) as -> by congruence.
    assert (solo h th (m + 1) AtStart base = Some (pc', shared c')) as Hsolo'.
    { rewrite solo_plus, Hsolo. simpl. rewrite Hs. reflexivity. }
    destruct (is_done pc') eqn:Hd.
    + assert (pc' = Done) as -> by (destruct pc'; try discriminate; reflexivity).
      destruct (solo_finished _ _ _ _ _ Hbb Hba Hsolo') as (Hm & Hres & _ & Hfb & Hfa).
      rewrite Hbank, body_steps_run in Hm.
      apply lin_free with (order := app order [h]); auto.
      * apply NoDup_app. repeat split; auto.
        -- intros x Hx Hx'. apply list_elem_of_singleton in Hx'. subst x.
           apply list_elem_of_In in Hx. contradiction.
        -- apply NoDup_singleton.
      * intros k'. rewrite in_app_iff. simpl. destruct (Nat.eq_dec k' h) as [->|Hne].
        -- rewrite Hpc'. tauto.
        -- rewrite (Hother k' Hne), <- Hdone. intuition congruence.
      * intros k' pc0. destruct (Nat.eq_dec k' h) as [->|Hne].
        -- rewrite Hpc'. intros [= <-]. auto.
        -- rewrite (Hother k' Hne). apply Hout. exact Hne.
      * rewrite Hres, Hbank, (calls_of_app _ _ _ _ Hth), map_app, run_app.
        symmetry. apply run_execute.
      * rewrite length_app. simpl. nia.
    + rewrite Nat.add_1_r in Hsolo'.
      destruct (solo_from_start _ _ _ _ _ _ Hbb Hsolo') as [Hns' Hheld].
      apply lin_held with (order := order) (k := h) (t := th) (base := base)
                          (m := S m) (pc := pc'); auto.
      * intros ->. discriminate Hd.
      * intros k'. destruct (Nat.eq_dec k' h) as [->|Hne].
        -- rewrite Hpc'. split; [contradiction|]. intros [= ->]. discriminate Hd.
        -- rewrite (Hother k' Hne). apply Hdone.
      * intros k' pc0 Hne. rewrite (Hother k' Hne). apply Hout. exact Hne.
      * lia.
Qed.

Lemma linearized_steps s0 calls n c c' :
  steps calls n c c' ->
  forall n0, linearized s0 calls n0 c -> linearized s0 calls (n0 + n) c'.
Proof.
  induction 1 as [c|n k c c1 c2 Hs _ IH]; intros n0 L.
  - rewrite Nat.add_0_r. exact L.
  - rewrite Nat.add_succ_r. apply (IH (S n0)). eapply linearized_step; eauto.
Qed.

Lemma linearized_from_start s calls n c :
  steps calls n (start s calls) c -> linearized s calls n c.
Proof.
  intros H. exact (linearized_steps s calls n _ c H 0%nat (linearized_start s calls)).
Qed.

(** No interleaving is longer than [body_steps] per thread. *)
Lemma linearized_bound s0 calls n c :
  linearized s0 calls n c -> length (pcs c) = length calls ->
  (n <= body_steps s0 * length calls)%nat.
Proof.
  intros L Hlen.
  destruct L as [order Hb Ha Hnd Hdone Hout Hbank Hn
                |order h th base m pch Hth Hpch Hns Hnd' Hb Hbb Hba Hbank Hsolo
                   Hnd Hnin Hdone Hout Hn].
  - assert (length order <= length calls)%nat.
    { apply order_length; [exact Hnd|]. intros k Hk. apply Hdone in Hk.
      rewrite <- Hlen. eapply lookup_lt_Some; eauto. }
    nia.
  - assert (is_done pch = false) as Hd by (destruct pch; try reflexivity; congruence).
    destruct (solo_not_stuck _ _ _ _ _ _ Hbb Hba Hsolo Hd) as [_ Hm].
    rewrite Hbank, body_steps_run in Hm.
    assert (length (app order [h]) <= length calls)%nat.
    { apply order_length.
      - apply NoDup_app. repeat split; auto.
        + intros x Hx Hx'. apply list_elem_of_singleton in Hx'. subst x.
          apply list_elem_of_In in Hx. contradiction.
        + apply NoDup_singleton.
      - intros k Hk. apply in_app_iff in Hk. rewrite <- Hlen.
        destruct Hk as [Hk|[<-|[]]].
        + apply Hdone in Hk. eapply lookup_lt_Some; eauto.
        + eapply lookup_lt_Some; eauto. }
    rewrite length_app in *. simpl in *. nia.
Qed.

Lemma not_all_done l :
  forallb is_done l = false -> exists k pc, l !! k = Some pc /\ is_done pc = false.
Proof.
  induction l as [|x l IH]; simpl; [discriminate|].
  destruct (is_done x) eqn:E; simpl.
  - intros H. destruct (IH H) as (k & pc & H1 & H2). exists (S k), pc. auto.
  - intros _. exists 0%nat, x. auto.
Qed.

Lemma all_done_lookup l k pc :
  forallb is_done l = true -> l !! k = Some pc -> pc = Done.
Proof.
  intros H Hk. rewrite forallb_forall in H.
  apply list_elem_of_lookup_2, list_elem_of_In in Hk.
  specialize (H pc Hk). destruct pc; try discriminate; reflexivity.
Qed.

(** No deadlock: as long as a thread has not finished, some thread can move. *)
Lemma linearized_progress s0 calls n c :
  linearized s0 calls n c -> length (pcs c) = length calls ->
  all_done c \/ exists k c', sys_step calls k c = Some c'.
Proof.
  intros L Hlen.
  destruct L as [order Hb Ha Hnd Hdone Hout Hbank Hn
                |order h th base m pch Hth Hpch Hns Hnd' Hb Hbb Hba Hbank Hsolo
                   Hnd Hnin Hdone Hout Hn].
  - unfold all_done. destruct (forallb is_done (pcs c)) eqn:E; [auto|right].
    destruct (not_all_done _ E) as (k & pc & Hpc & Hd).
    destruct (Hout k pc Hpc) as [-> | ->]; [|discriminate Hd].
    destruct (lookup_lt_is_Some_2 calls k) as [t Ht].
    { rewrite <- Hlen. eapply lookup_lt_Some; eauto. }
    exists k. unfold sys_step. rewrite Ht, Hpc. simpl. rewrite Hb. eauto.
  - right. exists h. unfold sys_step. rewrite Hth, Hpch.
    assert (is_done pch = false) as Hd by (destruct pch; try reflexivity; congruence).
    destruct (solo_not_stuck _ _ _ _ _ _ Hbb Hba Hsolo Hd) as [Hstep _].
    destruct (thread_step h th pch (shared c)) as [[pc' sh']|]; [eauto|congruence].
Qed.

(** When all threads have finished, both kinds of mutex are free and the
    bank is what the calls give when made one after the other, in the order
    in which they took [bankMutex]. *)
Lemma linearized_done s0 calls n c :
  linearized s0 calls n c -> length (pcs c) = length calls -> all_done c ->
  bankMutex (shared c) = None /\ (forall j, accMutex (shared c) j = None) /\
  exists order, Permutation order calls /\
    bank (shared c) = run s0 (map ExecuteProcess order).
Proof.
  intros L Hlen Hall.
  destruct L as [order Hb Ha Hnd Hdone Hout Hbank Hn
                |order h th base m pch Hth Hpch Hns Hnd' Hb Hbb Hba Hbank Hsolo
                   Hnd Hnin Hdone Hout Hn].
  - split; [exact Hb|]. split; [exact Ha|].
    exists (calls_of calls order). split; [|exact Hbank].
    apply calls_of_Permutation.
    + exact Hnd.
    + intros k. rewrite Hdone. split.
      * intros H. rewrite <- Hlen. eapply lookup_lt_Some; eauto.
      * intros H. destruct (lookup_lt_is_Some_2 (pcs c) k) as [pc Hpc]; [lia|].
        rewrite Hpc. f_equal. eapply all_done_lookup; eauto.
  - pose proof (all_done_lookup _ _ _ Hall Hpch). contradiction.
Qed.

Lemma linearized_exclusive s0 calls n c k pc k' pc' :
  linearized s0 calls n c ->
  pcs c !! k = Some pc -> pcs c !! k' = Some pc' -> k <> k' ->
  (pc = AtStart \/ pc = Done) \/ (pc' = AtStart \/ pc' = Done).
Proof.
  intros L Hk Hk' Hne.
  destruct L as [order Hb Ha Hnd Hdone Hout Hbank Hn
                |order h th base m pch Hth Hpch Hns Hnd' Hb Hbb Hba Hbank Hsolo
                   Hnd Hnin Hdone Hout Hn].
  - left. eapply Hout; eauto.
  - destruct (Nat.eq_dec k h) as [->|Hkh].
    + right. eapply Hout; [|eauto]. congruence.
    + left. eapply Hout; eauto.
Qed.

Lemma stored_deposit_is_deposit s accountId a t :
  wf s -> stored_deposit s accountId a t -> is_deposit s accountId a t.
Proof.
  intros W (Ht & proc & Hp & Hty & Haid & Ham).
  destruct (proj1 (findProcess_wf s t W) Ht) as (proc' & Hf & _).
  pose proof (findProcess_Some _ _ _ _ Hf) as (Hp' & _).
  exists (Z.to_nat (t - 1)), proc. assert (proc' = proc) as <- by congruence. auto.
Qed.

(** C9, as amended: N calls of [executeProcess], each run by a thread of its
    own, on stored Deposit transactions of the same amount [a > 0] on one
    account of a reachable bank, whose balance is 0.  Under every
    interleaving of the threads' steps: the run is at most [body_steps] per
    thread long; as long as a thread has not finished, some thread can move;
    and once all have finished, all the transactions are Completed and the
    balance is the [double] that N successive [balance += a] give from 0, no
    update lost.  (That [double] need not be N*a.) *)
Theorem concurrent_deposits s accountId acc a calls n c :
  reachable s ->
  1 <= accountId <= accountCount s ->
  accounts s !! Z.to_nat (accountId - 1) = Some acc ->
  balance acc = 0%float ->
  (0 <? a)%float = true ->
  (forall t, In t calls -> stored_deposit s accountId a t) ->
  steps calls n (start s calls) c ->
  (n <= body_steps s * length calls)%nat /\
  (all_done c \/ exists k c', sys_step calls k c = Some c') /\
  (all_done c ->
   balance_at (bank (shared c)) (Z.to_nat (accountId - 1))
     = Some (add_n (length calls) a 0) /\
   forall t, In t calls ->
     status_at (bank (shared c)) (Z.to_nat (t - 1)) = Some "Completed").
Proof.
  intros R Hid Hacc Hb Ha Hdep Hsteps.
  pose proof (reachable_wf s R) as W.
  pose proof (steps_from_start s calls n c Hsteps) as Hlen.
  pose proof (linearized_from_start s calls n c Hsteps) as L.
  split; [exact (linearized_bound s calls n c L Hlen)|].
  split; [exact (linearized_progress s calls n c L Hlen)|].
  intros Hall.
  destruct (linearized_done s calls n c L Hlen Hall) as (_ & _ & order & P & Hbank).
  assert (forall t, In t order -> is_deposit s accountId a t) as Hdep'.
  { intros t Ht. apply stored_deposit_is_deposit; [exact W|]. apply Hdep.
    apply list_elem_of_In. rewrite <- P. apply list_elem_of_In. exact Ht. }
  destruct (deposits_run a accountId _ order Ha s acc
              (account_in_slot s accountId acc W Hid Hacc) Hdep')
    as ((acc' & Hacc' & Hb') & Hc & _).
  rewrite <- Hbank in Hacc', Hc. split.
  - apply findAccount_Some in Hacc'. destruct Hacc' as (H & _).
    unfold balance_at. rewrite H. simpl. rewrite Hb', Hb.
    rewrite (Permutation_length P). reflexivity.
  - intros t Ht.
    assert (In t order) as Ht'.
    { apply list_elem_of_In. rewrite P. apply list_elem_of_In. exact Ht. }
    destruct (Hc t Ht') as (i & proc & Hf & Hst).
    assert (wf (bank (shared c))) as W' by (rewrite Hbank; apply run_wf; exact W).
    assert (processCount (bank (shared c)) = processCount s) as Hcount
      by (rewrite Hbank; apply run_executes_counts).
    destruct (Hdep t Ht) as (Hrange & _). rewrite <- Hcount in Hrange.
    destruct (proj1 (findProcess_wf _ t W') Hrange) as (proc' & Hf' & _).
    rewrite Hf in Hf'. injection Hf' as -> <-.
    apply findProcess_Some in Hf. destruct Hf as (Hp & _).
    unfold status_at. rewrite Hp. simpl. congruence.
Qed.

Lemma concurrent_deposits_witness :
  let s := run bank0 [CreateAccount "alice" 10%float;
                      CreateAccount "bob" 0%float;
                      CreateProcess 2 "Deposit" 25%float;
                      CreateProcess 2 "Deposit" 25%float;
                      CreateProcess 2 "Deposit" 25%float] in
  let calls := [3; 1; 2] in
  let schedule := app [2; 0; 1; 2; 1; 2; 0; 2]%nat (concat (repeat [1; 2; 0]%nat 40)) in
  let c := run_schedule calls schedule (start s calls) in
  (moves calls schedule (start s calls) <= 17 * 3)%nat /\
  all_done c /\
  balance_at (bank (shared c)) 1 = Some 75%float /\
  (forall t, In t calls -> status_at (bank (shared c)) (Z.to_nat (t - 1)) = Some "Completed").
Proof.
  intros s calls schedule c.
  destruct (concurrent_deposits s 2 (mkAccount 2 "bob" 0%float true) 25%float calls
              (moves calls schedule (start s calls)) c) as (H1 & _ & H3).
  - apply run_reachable. apply reach_init; reflexivity.
  - vm_compute. split; discriminate.
  - reflexivity.
  - reflexivity.
  - reflexivity.
  - intros t [<-|[<-|[<-|[]]]].
    + split; [vm_compute; split; discriminate|].
      exists (mkProcess 3 2 "Deposit" 25%float "Pending"). repeat split.
    + split; [vm_compute; split; discriminate|].
      exists (mkProcess 1 2 "Deposit" 25%float "Pending"). repeat split.
    + split; [vm_compute; split; discriminate|].
      exists (mkProcess 2 2 "Deposit" 25%float "Pending"). repeat split.
  - apply schedule_steps.
  - assert (all_done c) as Hall by (vm_compute; reflexivity).
    split; [exact H1|]. split; [exact Hall|]. exact (H3 Hall).
Defined.

(** C9 as stated fails on the amount: ten threads that each deposit 0.1 (the
    [double] nearest to it) on a fresh account, interleaved thread 9 first,
    all finish Completed and leave 0.99999999999999989, which is neither the
    [double] product [10 * 0.1] (that is 1) nor the number ten times the
    amount. *)
Lemma concurrent_deposits_counterexample :
  let a := 0x1.999999999999ap-4%float in
  let s := run bank0 (CreateAccount "alice" 10%float :: CreateAccount "bob" 0%float
                      :: repeat (CreateProcess 2 "Deposit" a) 10) in
  let calls := [1; 2; 3; 4; 5; 6; 7; 8; 9; 10] in
  let schedule := concat (repeat (rev (seq 0 10)) 240) in
  let c := run_schedule calls schedule (start s calls) in
  let b := 0x1.fffffffffffffp-1%float in
  (0 <? a)%float = true /\
  (forall t, In t calls -> stored_deposit s 2 a t) /\
  balance_at s 1 = Some 0%float /\
  all_done c /\
  balance_at (bank (shared c)) 1 = Some b /\
  map (status_at (bank (shared c))) (seq 0 10) = repeat (Some "Completed") 10 /\
  (10 * a)%float = 1%float /\
  (b =? 10 * a)%float = false /\
  match exact_value b, exact_value a with
  | Some q, Some qa => Qeq_bool q (10 * qa) = false
  | _, _ => False
  end.
Proof.
  intros a s calls schedule c b.
  split; [reflexivity|]. split.
  { intros t Ht. split.
    - simpl in Ht. vm_compute. intuition (subst; discriminate).
    - assert (exists k, t = Z.of_nat k + 1 /\ (k < 10)%nat) as (k & -> & Hk).
      { simpl in Ht.
        repeat (destruct Ht as [<-|Ht];
                [match goal with |- exists k, ?n = _ /\ _ =>
                   exists (Z.to_nat (n - 1)); split; [reflexivity|vm_compute; lia] end|]).
        contradiction. }
      exists (mkProcess (Z.of_nat k + 1) 2 "Deposit" a "Pending").
      do 10 (destruct k as [|k]; [repeat split|]). lia. }
  vm_compute. repeat split; reflexivity.
Qed.

(** ** Any calls of [executeProcess], interleaved *)

(** X20: two threads are never inside the body of [executeProcess] at the
    same time; under every interleaving, of any two threads one has not yet
    taken [bankMutex] or has given it back. *)
Theorem mutual_exclusion s calls n c k pc k' pc' :
  steps calls n (start s calls) c ->
  pcs c !! k = Some pc -> pcs c !! k' = Some pc' -> k <> k' ->
  (pc = AtStart \/ pc = Done) \/ (pc' = AtStart \/ pc' = Done).
Proof.
  intros Hsteps. apply linearized_exclusive with (s0 := s) (calls := calls) (n := n).
  exact (linearized_from_start s calls n c Hsteps).
Qed.

Lemma mutual_exclusion_witness :
  let s := run bank0 [CreateAccount "alice" 10%float;
                      CreateAccount "bob" 40%float;
                      CreateProcess 2 "Deposit" 25%float;
                      CreateProcess 2 "Withdraw" 5%float] in
  (AtUpdate 1 1 false = AtStart \/ AtUpdate 1 1 false = Done) \/
  (AtStart = AtStart \/ AtStart = Done).
Proof.
  intros s.
  apply (mutual_exclusion s [2; 1] 8
           (run_schedule [2; 1] [0; 1; 0; 0; 1; 0; 0; 1; 0; 0; 0]%nat (start s [2; 1]))
           0%nat (AtUpdate 1 1 false) 1%nat AtStart).
  - apply (schedule_steps [2; 1] [0; 1; 0; 0; 1; 0; 0; 1; 0; 0; 0]%nat (start s [2; 1])).
  - reflexivity.
  - reflexivity.
  - discriminate.
Defined.

(** X21: calls of [executeProcess] on any transaction ids, each run by a
    thread of its own, on any bank.  Whatever the interleaving, it is at
    most [body_steps] per thread long, it is not stuck before every thread
    has finished, and once all have finished both kinds of mutex are free
    and the bank is the one that the same calls give when made one after the
    other in some order. *)
Theorem interleaving_serializable s calls n c :
  steps calls n (start s calls) c ->
  (n <= body_steps s * length calls)%nat /\
  (all_done c \/ exists k c', sys_step calls k c = Some c') /\
  (all_done c ->
   bankMutex (shared c) = None /\ (forall j, accMutex (shared c) j = None) /\
   exists order, Permutation order calls /\
     bank (shared c) = run s (map ExecuteProcess order)).
Proof.
  intros Hsteps.
  pose proof (steps_from_start s calls n c Hsteps) as Hlen.
  pose proof (linearized_from_start s calls n c Hsteps) as L.
  split; [exact (linearized_bound s calls n c L Hlen)|].
  split; [exact (linearized_progress s calls n c L Hlen)|].
  exact (linearized_done s calls n c L Hlen).
Qed.

Lemma interleaving_serializable_witness :
  let s := run bank0 [CreateAccount "alice" 10%float;
                      CreateAccount "bob" 0%float;
                      CreateProcess 2 "Deposit" 25%float;
                      CreateProcess 2 "Withdraw" 5%float;
                      CreateProcess 7 "Deposit" 1%float] in
  let calls := [2; 1; 3; 9] in
  let schedule := concat (repeat [3; 0; 2; 1]%nat 40) in
  let c := run_schedule calls schedule (start s calls) in
  (moves calls schedule (start s calls) <= 17 * 4)%nat /\
  bankMutex (shared c) = None /\ (forall j, accMutex (shared c) j = None) /\
  exists order, Permutation order calls /\
    bank (shared c) = run s (map ExecuteProcess order).
Proof.
  intros s calls schedule c.
  destruct (interleaving_serializable s calls (moves calls schedule (start s calls)) c)
    as (H1 & _ & H3).
  - apply schedule_steps.
  - split; [exact H1|]. apply H3. vm_compute. reflexivity.
Defined.
